(** * ptvtracker-data: version store, realtime processor, consumer,
    parser/importer helpers and maintenance, embedded in Rocq. *)

From Stdlib Require Import ZArith Lia Bool Sorted Permutation.
From stdpp Require Import base list strings gmap.
From Stdlib Require Import Ascii.


Open Scope Z_scope.

(* ===================================================================== *)
(** ** Go-style results and a transaction monad                           *)
(* ===================================================================== *)

(** A Go [(value, error)] pair: either a value or an error message. *)
Inductive res (A : Type) : Type :=
| Ok (a : A)
| Err (e : string).
Arguments Ok {A} a.
Arguments Err {A} e.

(** Work inside a [*sql.Tx]: every statement runs against the
    transaction-local copy [St] of the tables.  The database decides, per
    statement (numbered from 0 inside the transaction), whether it fails:
    [fails n = true] makes statement [n] return an error. *)
Definition txm (St A : Type) : Type :=
  (nat -> bool) -> nat -> St -> res (A * nat * St).

Definition tx_ret {St A} (a : A) : txm St A :=
  fun _ n s => Ok (a, n, s).

Definition tx_bind {St A B} (m : txm St A) (k : A -> txm St B) : txm St B :=
  fun fails n s =>
    match m fails n s with
    | Ok (a, n', s') => k a fails n' s'
    | Err e => Err e
    end.

(** Go's [return fmt.Errorf(...)] inside the transaction body. *)
Definition tx_fail {St A} (e : string) : txm St A :=
  fun _ _ _ => Err e.

(** One statement sent to the store ([tx.Exec], [tx.QueryRow],
    [stmt.Exec], ...): it may fail; otherwise it transforms the
    transaction-local tables. *)
Definition tx_stmt {St A} (what : string) (f : St -> A * St) : txm St A :=
  fun fails n s =>
    if fails n then Err what
    else let '(a, s') := f s in Ok (a, S n, s').

Notation "'let!' x := m 'in' k" := (tx_bind m (fun x => k))
  (at level 200, x name, m at level 100, k at level 200).
Notation "'do!' m 'in' k" := (tx_bind m (fun _ => k))
  (at level 200, m at level 100, k at level 200).

(** [tx, err := BeginTx(ctx); defer tx.Rollback(); ...; tx.Commit()]:
    statement 0 is [BEGIN], then the body, then [COMMIT] as the next
    statement.  Only a successful commit publishes the local tables; on
    every error path the deferred rollback leaves the store as it was. *)
Definition with_tx {St A} (fails : nat -> bool) (body : txm St A) (s : St)
  : res A * St :=
  if fails O then (Err "beginning transaction", s) else
  match body fails 1%nat s with
  | Ok (a, n, s') =>
      if fails n then (Err "committing transaction", s) else (Ok a, s')
  | Err e => (Err e, s)
  end.

(* ===================================================================== *)
(** ** gtfs.versions and VersionChecker (internal/common/db)               *)
(* ===================================================================== *)

Module VersionStore.

(** A row of [gtfs.versions] ([models.VersionInfo]); times are Unix
    seconds. *)
Record version := mkVersion {
  version_id : nat;
  version_name : string;
  created_at : Z;
  updated_at : Z;
  is_active : bool;
  source_url : string;
  description : string
}.

(** The table together with its [SERIAL] sequence and the clock used
    for the [created_at DEFAULT NOW()] column. *)
Record vstore := mkVStore {
  versions : list version;
  next_version_id : nat;
  now : Z
}.

Definition set_active (b : bool) (v : version) : version :=
  mkVersion (version_id v) (version_name v) (created_at v) (updated_at v)
            b (source_url v) (description v).

(** [UPDATE gtfs.versions SET is_active = false WHERE is_active = true] *)
Definition deactivate_all (s : vstore) : nat * vstore :=
  (length (List.filter is_active (versions s)),
   mkVStore (map (fun v => if is_active v then set_active false v else v)
                 (versions s))
            (next_version_id s) (now s)).

(** [UPDATE gtfs.versions SET is_active = true WHERE version_id = $1],
    returning [RowsAffected()]. *)
Definition activate_where_id (id : nat) (s : vstore) : nat * vstore :=
  (length (List.filter (fun v => Nat.eqb (version_id v) id) (versions s)),
   mkVStore (map (fun v => if Nat.eqb (version_id v) id
                           then set_active true v else v) (versions s))
            (next_version_id s) (now s)).

(** [INSERT INTO gtfs.versions (version_name, source_url, updated_at,
    is_active, description) VALUES ($1, $2, $3, false, $4)
    RETURNING version_id] *)
Definition insert_version (name url : string) (lm : Z) (descr : string)
    (s : vstore) : nat * vstore :=
  let id := next_version_id s in
  (id, mkVStore (versions s ++ [mkVersion id name (now s) lm false url descr])
                (S id) (now s)).

Section Ops.
(** [lastModified.Format(time.RFC3339)]. *)
Variable format_rfc3339 : Z -> string.

(** [VersionChecker.CreateNewVersion] *)
Definition CreateNewVersion (fails : nat -> bool) (versionName sourceURL : string)
    (lastModified : Z) (s : vstore) : res nat * vstore :=
  with_tx fails
    (do! tx_stmt "deactivating versions" deactivate_all in
     let description := ("GTFS data imported from " ++ sourceURL ++ " at "
                          ++ format_rfc3339 lastModified)%string in
     let! versionID := tx_stmt "creating version"
                    (insert_version versionName sourceURL lastModified description) in
     tx_ret versionID) s.
End Ops.

(** [VersionChecker.ActivateVersion] *)
Definition ActivateVersion (fails : nat -> bool) (versionID : nat) (s : vstore)
  : res unit * vstore :=
  with_tx fails
    (do! tx_stmt "deactivating versions" deactivate_all in
     let! rows := tx_stmt "activating version" (activate_where_id versionID) in
     if Nat.eqb rows 0 then tx_fail "version not found" else tx_ret tt) s.

(** [VersionChecker.GetActiveVersion]: [WHERE is_active = true LIMIT 1];
    [sql.ErrNoRows] gives [(nil, nil)], any other error of the query
    ([query_fails]) is returned. *)
Definition GetActiveVersion (query_fails : bool) (s : vstore) : res (option version) :=
  if query_fails then Err "querying active version"
  else Ok (List.find is_active (versions s)).

(** [VersionChecker.HasNewerVersion]: [(false, err)] when the lookup
    fails, [true] without an active version. *)
Definition HasNewerVersion (query_fails : bool) (lastModified : Z) (s : vstore) : res bool :=
  match GetActiveVersion query_fails s with
  | Err e => Err ("getting active version: " ++ e)%string
  | Ok None => Ok true
  | Ok (Some v) => Ok (Z.ltb (updated_at v) lastModified)
  end.

(** SQL function [create_new_version] (migration 004), the sibling
    creation path: a plain insert that leaves other rows alone. *)
Definition create_new_version_sql (p_version_name p_source_url p_description : string)
    (s : vstore) : nat * vstore :=
  let id := next_version_id s in
  (id, mkVStore (versions s ++ [mkVersion id p_version_name (now s) (now s)
                                  false p_source_url p_description])
                (S id) (now s)).

(** Number of active rows. *)
Definition active_count (s : vstore) : nat :=
  length (List.filter is_active (versions s)).

(** Storage invariants: [version_id] is a primary key drawn from the
    sequence, and at most one row is active. *)
Definition store_ok (s : vstore) : Prop :=
  NoDup (map version_id (versions s)) /\
  Forall (fun v => (version_id v < next_version_id s)%nat) (versions s) /\
  (active_count s <= 1)%nat.

End VersionStore.


(* ===================================================================== *)
(** ** Realtime processor (internal/gtfs-realtime/processor)               *)
(* ===================================================================== *)

Module Realtime.

(** Tables of the [gtfs_rt] schema. *)
Inductive table :=
| FeedMessages | VehiclePositions | TripUpdates | StopTimeUpdates
| Alerts | AlertActivePeriods | AlertInformedEntities | AlertTranslations.

#[global] Instance table_eq_dec : EqDecision table.
Proof. solve_decision. Defined.

(** A stored row: its table, its surrogate key, the key of the row it
    references ([feed_message_id], [trip_update_id] or [alert_id]; 0
    for headers), the entity id column where the table has one, and
    [owner], the position in the drained channel of the feed result
    whose transaction wrote it (bookkeeping for attribution only). *)
Record row := mkRow {
  tbl : table;
  row_id : nat;
  parent_id : nat;
  row_entity : string;
  owner : nat
}.

(** The realtime tables. *)
Record rtstore := mkRT { rows : list row }.

(** The [SERIAL] keys: every table has its own sequence, which lives
    outside the transactions (a rollback does not give its values back,
    other sessions draw from it as well).  [nextval own tb k] is the id
    the sequence of [tb] hands to the [k]-th row that the transaction of
    the feed result at position [own] inserts into [tb]; the model
    leaves these values open. *)
Class Sequences := nextval : nat -> table -> nat -> nat.

Section Ids.
Context {SEQ : Sequences}.

(** A transaction in progress: local tables, and whether PostgreSQL has
    already put it in the aborted state. *)
Record rttx := mkTx { tx_tables : rtstore; tx_aborted : bool }.

(** The parts of a [gtfs_proto.FeedEntity] the bulk inserts read. *)
Record TripUpdateE := mkTU {
  tu_has_trip_id : bool;          (* Trip != nil && Trip.TripId != nil *)
  tu_stop_time_updates : nat      (* len(StopTimeUpdate) *)
}.
Record AlertE := mkAlert {
  al_active_periods : nat;
  al_informed_entities : nat;
  al_translations : nat           (* rows over url, header, description *)
}.
Record FeedEntity := mkEntity {
  entity_id : string;
  vehicle_has_position : bool;    (* Vehicle != nil && Vehicle.Position != nil *)
  trip_update : option TripUpdateE;
  alert : option AlertE
}.

(** [consumer.FeedResult] with its endpoint fields. *)
Record FeedResult := mkResult {
  ep_source : string;
  ep_feed_type : string;
  message : option (list FeedEntity);   (* None: nil Message *)
  fetch_error : bool                    (* Error != nil *)
}.

(** A statement of the transaction: fails when the store says so, and
    always once the transaction is aborted. *)
Definition rt_stmt {A} (what : string) (f : rtstore -> A * rtstore) : txm rttx A :=
  fun fails n t =>
    if fails n || tx_aborted t then Err what
    else let '(a, s') := f (tx_tables t) in Ok (a, S n, mkTx s' false).

(** A diagnostic [tx.QueryRow(...).Scan] whose error is only logged:
    the code goes on, but PostgreSQL aborts the transaction. *)
Definition rt_probe : txm rttx unit :=
  fun fails n t =>
    if fails n then Ok (tt, S n, mkTx (tx_tables t) true)
    else Ok (tt, S n, t).

(** Rows of [tb] the transaction of [own] has inserted so far. *)
Definition row_count (tb : table) (own : nat) (s : rtstore) : nat :=
  length (List.filter (fun r => bool_decide (tbl r = tb) && Nat.eqb (owner r) own) (rows s)).

(** [INSERT ... RETURNING id] into [tb]: the row gets the next value of
    the sequence of [tb]. *)
Definition insert_row (tb : table) (parent : nat) (ent : string) (own : nat)
    (s : rtstore) : nat * rtstore :=
  let id := nextval own tb (row_count tb own s) in
  (id, mkRT (rows s ++ [mkRow tb id parent ent own])).

(** A COPY flush ([stmt.Exec()] without arguments): all buffered rows land. *)
Fixpoint insert_rows (tb : table) (own : nat) (buf : list (nat * string)) (s : rtstore)
  : rtstore :=
  match buf with
  | [] => s
  | (parent, ent) :: buf' => insert_rows tb own buf' (snd (insert_row tb parent ent own s))
  end.

Definition copy_flush (tb : table) (own : nat) (buf : list (nat * string)) : txm rttx unit :=
  rt_stmt "failed to execute copy" (fun s => (tt, insert_rows tb own buf s)).

(** [for _, x := range xs { if keep x { err = stmt.Exec(...) } }]:
    one buffered [stmt.Exec] per kept element. *)
Fixpoint copy_add {X} (keep : X -> bool) (xs : list X) : txm rttx unit :=
  match xs with
  | [] => tx_ret tt
  | x :: xs' =>
      if keep x then
        do! rt_stmt "failed to add to batch" (fun s => (tt, s)) in copy_add keep xs'
      else copy_add keep xs'
  end.

Fixpoint repeat_insert (k : nat) (tb : table) (parent : nat) (own : nat)
  : txm rttx unit :=
  match k with
  | O => tx_ret tt
  | S k' => do! rt_stmt "failed to insert" (insert_row tb parent ""%string own) in
            repeat_insert k' tb parent own
  end.

Section Bulk.
Variable own : nat.
Variable feedMessageID : nat.

(** Requery [entity_id -> id] of the rows just copied for this header. *)
Definition id_map (tb : table) (s : rtstore) : gmap string nat :=
  foldl (fun m r => if decide (tbl r = tb /\ parent_id r = feedMessageID)
                    then <[row_entity r := row_id r]> m else m) ∅ (rows s).

Definition processVehiclePositionsBulk (entities : list FeedEntity) : txm rttx unit :=
  do! rt_probe in
  do! rt_stmt "failed to prepare vehicle positions copy" (fun s => (tt, s)) in
  do! copy_add vehicle_has_position entities in
  copy_flush VehiclePositions own
    (map (fun e => (feedMessageID, entity_id e))
         (List.filter vehicle_has_position entities)).

Definition has_trip_id (e : FeedEntity) : bool :=
  match trip_update e with Some tu => tu_has_trip_id tu | None => false end.

Fixpoint stop_time_rows (m : gmap string nat) (entities : list FeedEntity)
  : list (nat * string) :=
  match entities with
  | [] => []
  | e :: es =>
      match trip_update e, m !! entity_id e with
      | Some tu, Some tuid =>
          repeat (tuid, ""%string) (tu_stop_time_updates tu) ++ stop_time_rows m es
      | _, _ => stop_time_rows m es
      end
  end.

Definition processTripUpdatesBulk (entities : list FeedEntity) : txm rttx unit :=
  do! rt_stmt "failed to prepare trip updates copy" (fun s => (tt, s)) in
  do! copy_add has_trip_id entities in
  do! copy_flush TripUpdates own
        (map (fun e => (feedMessageID, entity_id e)) (List.filter has_trip_id entities)) in
  let! m := rt_stmt "failed to query trip update ids" (fun s => (id_map TripUpdates s, s)) in
  do! rt_stmt "failed to prepare stop time updates copy" (fun s => (tt, s)) in
  let buf := stop_time_rows m entities in
  do! copy_add (fun _ => true) buf in
  copy_flush StopTimeUpdates own buf.

Definition has_alert (e : FeedEntity) : bool :=
  match alert e with Some _ => true | None => false end.

Fixpoint alert_children (m : gmap string nat) (entities : list FeedEntity)
  : txm rttx unit :=
  match entities with
  | [] => tx_ret tt
  | e :: es =>
      match alert e, m !! entity_id e with
      | Some a, Some aid =>
          do! repeat_insert (al_active_periods a) AlertActivePeriods aid own in
          do! repeat_insert (al_informed_entities a) AlertInformedEntities aid own in
          do! repeat_insert (al_translations a) AlertTranslations aid own in
          alert_children m es
      | _, _ => alert_children m es
      end
  end.

Definition processServiceAlertsBulk (entities : list FeedEntity) : txm rttx unit :=
  do! rt_stmt "failed to prepare alerts copy" (fun s => (tt, s)) in
  do! copy_add has_alert entities in
  do! copy_flush Alerts own
        (map (fun e => (feedMessageID, entity_id e)) (List.filter has_alert entities)) in
  let! m := rt_stmt "failed to query alert ids" (fun s => (id_map Alerts s, s)) in
  alert_children m entities.
End Bulk.

(** The processor: its caches, and the store it writes. *)
Record processor := mkProc {
  sourceMapping : gmap string nat;
  versionMapping : option nat;        (* versionMapping["active_version"] *)
  db_active_version : option nat;     (* SELECT version_id ... WHERE is_active *)
  store : rtstore
}.

(** [Processor.getOrCreateVersion] (outside the transaction). *)
Definition getOrCreateVersion (p : processor) : res nat * processor :=
  match versionMapping p with
  | Some v => (Ok v, p)
  | None =>
      match db_active_version p with
      | None => (Err "no active GTFS version found", p)
      | Some v => (Ok v, mkProc (sourceMapping p) (Some v) (db_active_version p) (store p))
      end
  end.

(** The transaction of [processFeedMessage]: [BEGIN]; the body on a
    fresh, non-aborted transaction; [COMMIT], which fails on an aborted
    transaction; the deferred [tx.Rollback()] on every other path. *)
Definition rt_with_tx {A} (fails : nat -> bool) (body : txm rttx A) (s : rtstore)
  : res A * rtstore :=
  if fails O then (Err "failed to begin transaction", s) else
  match body fails 1%nat (mkTx s false) with
  | Ok (a, n, t) =>
      if fails n || tx_aborted t then (Err "failed to commit transaction", s)
      else (Ok a, tx_tables t)
  | Err e => (Err e, s)
  end.

(** [Processor.processFeedMessage] for the result at position [own] of
    the channel; [entities] is [result.Message.Entity]. *)
Definition processFeedMessage (fails : nat -> bool) (own : nat) (r : FeedResult)
    (entities : list FeedEntity) (p : processor) : res unit * processor :=
  match sourceMapping p !! ep_source r with
  | None => (Err "unknown source", p)
  | Some sourceID =>
      match getOrCreateVersion p with
      | (Err e, p1) => (Err e, p1)
      | (Ok versionID, p1) =>
          let '(out, s') :=
            rt_with_tx fails
              (do! rt_probe in do! rt_probe in do! rt_probe in
               let! feedMessageID :=
                 rt_stmt "failed to insert feed message"
                   (insert_row FeedMessages 0 ""%string own) in
               if String.eqb (ep_feed_type r) "vehicle_positions" then
                 processVehiclePositionsBulk own feedMessageID entities
               else if String.eqb (ep_feed_type r) "trip_updates" then
                 processTripUpdatesBulk own feedMessageID entities
               else if String.eqb (ep_feed_type r) "service_alerts" then
                 processServiceAlertsBulk own feedMessageID entities
               else tx_fail "unknown feed type")
              (store p1) in
          (out, mkProc (sourceMapping p1) (versionMapping p1) (db_active_version p1) s')
      end
  end.

(** What the drainer did with one feed result. *)
Inductive outcome := Skipped | Failed (e : string) | Processed.

(** One iteration of the loop of [Processor.processFeedResults] for
    the result at position [own]: errors and nil messages are logged
    and skipped, a failing [processFeedMessage] is logged. *)
Definition handleResult (fails : nat -> bool) (own : nat) (r : FeedResult)
    (p : processor) : outcome * processor :=
  if fetch_error r then (Skipped, p) else
  match message r with
  | None => (Skipped, p)
  | Some ents =>
      match processFeedMessage fails own r ents p with
      | (Err e, p') => (Failed e, p')
      | (Ok _, p') => (Processed, p')
      end
  end.

(** [Processor.processFeedResults] over the results received, the
    [k]-th one getting statement outcomes [fails_for k]; the loop goes
    on with the next result whatever happened to this one. *)
Fixpoint processFeedResults (fails_for : nat -> nat -> bool) (k : nat)
    (results : list FeedResult) (p : processor) : list outcome * processor :=
  match results with
  | [] => ([], p)
  | r :: rs =>
      let '(o, p1) := handleResult (fails_for k) k r p in
      let '(os, p2) := processFeedResults fails_for (S k) rs p1 in
      (o :: os, p2)
  end.

End Ids.

(** [s'] is [s] with rows appended, all owned by [own]; [only_adds]:
    every successful run of [m] only grows the tables that way. *)
Definition grows (own : nat) (s s' : rtstore) : Prop :=
  exists extra, rows s' = rows s ++ extra /\ Forall (fun r => owner r = own) extra.

Definition only_adds (own : nat) {A} (m : txm rttx A) : Prop :=
  forall fails n t a n' t', m fails n t = Ok (a, n', t') ->
    grows own (tx_tables t) (tx_tables t').

(** Sample input: two vehicle-position results on an empty store. *)
Definition sample_entities : list FeedEntity :=
  [mkEntity "e1" true None None; mkEntity "e2" false None None].

Definition sample_proc : processor :=
  mkProc (<["metro_train" := 2%nat]> ∅) None (Some 5%nat) (mkRT []).

(** Sample sequences: the transaction of result [own] draws its ids of
    every table from a block of ten of its own. *)
Module SampleSequences.
#[export] Instance sample_sequences : Sequences := fun own _ k => (10 * own + k + 1)%nat.
End SampleSequences.

Definition sample_results : list FeedResult :=
  [mkResult "metro_train" "vehicle_positions" (Some sample_entities) false;
   mkResult "metro_train" "vehicle_positions" (Some sample_entities) false].

End Realtime.


(* ===================================================================== *)
(** ** Go standard-library helpers used by the code                       *)
(* ===================================================================== *)

Module Go.

(** [strings.HasPrefix] / [strings.HasSuffix] *)
Definition HasPrefix (s prefix : string) : bool := String.prefix prefix s.

Definition HasSuffix (s suffix : string) : bool :=
  let n := String.length s in
  let m := String.length suffix in
  Nat.leb m n && String.eqb (String.substring (n - m) m s) suffix.

(** [strings.Split(s, sep)] for a one-byte separator:
    [Split("", ":") = [""]], [Split("a:b", ":") = ["a"; "b"]]. *)
Fixpoint Split (s : string) (sep : ascii) : list string :=
  match s with
  | EmptyString => [""%string]
  | String c s' =>
      let rest := Split s' sep in
      if Ascii.eqb c sep then ""%string :: rest
      else match rest with
           | r :: rs => String c r :: rs
           | [] => [String c ""]
           end
  end.

Definition isDigit (c : ascii) : bool :=
  let n := Ascii.nat_of_ascii c in Nat.leb 48 n && Nat.leb n 57.

Definition digitVal (c : ascii) : Z := Z.of_nat (Ascii.nat_of_ascii c) - 48.

(** Decimal digits, at least one, nothing else. *)
Fixpoint digits_value (acc : Z) (s : string) : option Z :=
  match s with
  | EmptyString => Some acc
  | String c s' => if isDigit c then digits_value (acc * 10 + digitVal c) s' else None
  end.

Definition parse_digits (s : string) : option Z :=
  match s with EmptyString => None | _ => digits_value 0 s end.

(** [strconv.Atoi] on a 64-bit platform: optional sign, decimal digits,
    the value within the range of [int]. *)
Definition Atoi (s : string) : option Z :=
  let within v := (- 2^63 <=? v) && (v <? 2^63) in
  let res v := if within v then Some v else None in
  match s with
  | String c s' =>
      if Ascii.eqb c "-"%char then
        match parse_digits s' with Some v => res (- v) | None => None end
      else if Ascii.eqb c "+"%char then
        match parse_digits s' with Some v => res v | None => None end
      else match parse_digits s with Some v => res v | None => None end
  | EmptyString => None
  end.

(** Two's-complement wrap-around of Go's [int] (64 bits) and [int32]. *)
Definition wrap (bits : Z) (x : Z) : Z :=
  let m := x mod 2^bits in if m >=? 2^(bits - 1) then m - 2^bits else m.
Definition int64 (x : Z) : Z := wrap 64 x.
Definition int32 (x : Z) : Z := wrap 32 x.

(** [strings.TrimSpace] on ASCII input (space, \t, \n, \v, \f, \r). *)
Definition isSpace (c : ascii) : bool :=
  let n := Ascii.nat_of_ascii c in Nat.eqb n 32 || (Nat.leb 9 n && Nat.leb n 13).

Fixpoint trim_left (s : string) : string :=
  match s with
  | String c s' => if isSpace c then trim_left s' else s
  | EmptyString => EmptyString
  end.

Fixpoint rev_string (s acc : string) : string :=
  match s with
  | String c s' => rev_string s' (String c acc)
  | EmptyString => acc
  end.

Definition TrimSpace (s : string) : string :=
  rev_string (trim_left (rev_string (trim_left s) EmptyString)) EmptyString.

End Go.

(* ===================================================================== *)
(** ** GTFS time parsing (realtime processor and static importer)          *)
(* ===================================================================== *)

Module GTFSTime.

(** [processor.parseGTFSTime]: [nil] for "", seconds since midnight as
    [int32] otherwise. *)
Definition parseGTFSTime_rt (timeStr : string) : res (option Z) :=
  if String.eqb timeStr "" then Ok None else
  match Go.Split timeStr ":"%char with
  | [h; m; sec] =>
      match Go.Atoi h with
      | None => Err ("invalid hours: " ++ h)%string
      | Some hours =>
        match Go.Atoi m with
        | None => Err ("invalid minutes: " ++ m)%string
        | Some minutes =>
          match Go.Atoi sec with
          | None => Err ("invalid seconds: " ++ sec)%string
          | Some seconds =>
              Ok (Some (Go.int32 (Go.int64 (Go.int64 (Go.int64 (hours * 3600)
                                  + Go.int64 (minutes * 60)) + seconds))))
          end
        end
      end
  | _ => Err ("invalid time format: " ++ timeStr)%string
  end.

(** Go's [getnum(value, fixed)]: one or two leading digits; with
    [fixed] two are required. *)
Definition getnum (s : string) (fixed : bool) : option (Z * string) :=
  match s with
  | String c0 s1 =>
      if negb (Go.isDigit c0) then None else
      match s1 with
      | String c1 s2 =>
          if Go.isDigit c1 then Some (Go.digitVal c0 * 10 + Go.digitVal c1, s2)
          else if fixed then None else Some (Go.digitVal c0, s1)
      | EmptyString => if fixed then None else Some (Go.digitVal c0, s1)
      end
  | EmptyString => None
  end.

Fixpoint skip_digits (s : string) : string :=
  match s with
  | String c s' => if Go.isDigit c then skip_digits s' else s
  | EmptyString => s
  end.

(** After [05]: Go accepts a fractional second ([.ddd] or [,ddd]) even
    when the layout has none. *)
Definition skip_fraction (s : string) : string :=
  match s with
  | String c (String d rest) =>
      if (Ascii.eqb c "."%char || Ascii.eqb c ","%char) && Go.isDigit d
      then skip_digits rest else s
  | _ => s
  end.

Definition expect (c : ascii) (s : string) : option string :=
  match s with
  | String c' s' => if Ascii.eqb c c' then Some s' else None
  | EmptyString => None
  end.

(** [time.Parse("2006-01-02 15:04:05", "2006-01-02 " + t)]: the date
    part of layout and value is the same constant and always matches;
    this is the clock part, [15:04:05], with Go's range checks
    ([hour < 24], [min < 60], [sec < 60]) and the trailing-text check.
    Result: hour, minute, second. *)
Definition time_Parse_clock (t : string) : option (Z * Z * Z) :=
  match getnum t false with
  | None => None
  | Some (hour, r1) =>
    match expect ":"%char r1 with
    | None => None
    | Some r2 =>
      match getnum r2 true with
      | None => None
      | Some (min, r3) =>
        match expect ":"%char r3 with
        | None => None
        | Some r4 =>
          match getnum r4 true with
          | None => None
          | Some (sec, r5) =>
              let rest := skip_fraction r5 in
              if negb (String.eqb rest "") then None
              else if (24 <=? hour) || (60 <=? min) || (60 <=? sec) then None
              else Some (hour, min, sec)
          end
        end
      end
    end
  end.

(** [importer.parseGTFSTime] *)
Definition parseGTFSTime_static (timeStr : string) : res (Z * Z * Z) :=
  if negb (Nat.eqb (length (Go.Split timeStr ":"%char)) 3)
  then Err ("invalid time format: " ++ timeStr)%string
  else match time_Parse_clock timeStr with
       | Some t => Ok t
       | None => Err "parsing time"
       end.

(** [sql.NullTime] built in [OnStopTime] for [arrival_time] and
    [departure_time]: NULL for "" and for unparsable strings. *)
Definition OnStopTime_time (timeStr : string) : option (Z * Z * Z) :=
  if String.eqb timeStr "" then None else
  match parseGTFSTime_static timeStr with
  | Ok t => Some t
  | Err _ => None
  end.

End GTFSTime.


(* ===================================================================== *)
(** ** Static parser and importer (internal/gtfs-static)                   *)
(* ===================================================================== *)

Module Static.

(** An entry of a [zip.Reader]. *)
Record zipEntry := mkEntry { entry_name : string; entry_is_dir : bool }.

(** What [Parser.ParseZip] hands to [parseStandardGTFS]: the outer
    archive itself, or one nested entry read into memory. *)
Inductive parse_target := ParseOuterFlat | ParseNested (e : zipEntry).

(** [Parser.ParseZip]: the first entry ending in
    [/google_transit.zip] and starting with [2/] is parsed as a flat
    archive; without one the outer archive is parsed as flat. *)
Definition ParseZip_target (files : list zipEntry) : parse_target :=
  match List.find (fun f => Go.HasSuffix (entry_name f) "/google_transit.zip"
                            && Go.HasPrefix (entry_name f) "2/") files with
  | Some f => ParseNested f
  | None => ParseOuterFlat
  end.

(** [regexp.MustCompile(`^(\d+)/google_transit\.zip$`).FindStringSubmatch]:
    the digit group when the whole name matches. *)
Definition nested_zip_match (name : string) : option string :=
  let suffix := "/google_transit.zip"%string in
  let n := String.length name in
  let m := String.length suffix in
  if Go.HasSuffix name suffix && Nat.ltb m n then
    let digits := String.substring 0 (n - m) name in
    match Go.parse_digits digits with
    | Some _ => Some digits
    | None => None
    end
  else None.

(** A source [GTFSScheduler.checkAndUpdate] imported: the version it
    went into, its source id and its entry of the master archive. *)
Inductive import_event := Imported (versionID : nat) (sourceID : Z) (e : zipEntry).

(** The import loop of [GTFSScheduler.checkAndUpdate] over the master
    archive, after [CreateNewVersion] returned [versionID]: every
    non-directory entry matching the pattern gets its source id from
    [strconv.Atoi] (an entry whose digits [Atoi] rejects is logged and
    skipped) and is imported into that one version.  [import_err id f]
    is the error, if any, of creating the scratch file, opening or
    extracting the nested archive [f], or importing it as source [id].
    The first error is returned (the version stays inactive); when the
    loop completes, the version is activated. *)
Fixpoint import_sources (versionID : nat) (import_err : Z -> zipEntry -> option string)
    (files : list zipEntry) : list import_event * res unit :=
  match files with
  | [] => ([], Ok tt)
  | f :: fs =>
      if entry_is_dir f then import_sources versionID import_err fs else
      match nested_zip_match (entry_name f) with
      | None => import_sources versionID import_err fs
      | Some digits =>
          match Go.Atoi digits with
          | None => import_sources versionID import_err fs     (* logged, skipped *)
          | Some sourceID =>
              match import_err sourceID f with
              | None =>
                  let '(evs, r) := import_sources versionID import_err fs in
                  (Imported versionID sourceID f :: evs, r)
              | Some e => ([], Err e)
              end
          end
      end
  end.

(** The sources the loop would visit, in archive order. *)
Definition nested_sources (files : list zipEntry) : list (Z * zipEntry) :=
  List.flat_map (fun f =>
    if entry_is_dir f then [] else
    match nested_zip_match (entry_name f) with
    | None => []
    | Some d => match Go.Atoi d with Some id => [(id, f)] | None => [] end
    end) files.

(** A CSV record and the header map of its file. *)
Definition csv_record := list string.
Definition header_map := gmap string nat.

(** [Parser.getString] *)
Definition getString (record : csv_record) (headerMap : header_map) (field : string)
  : string :=
  match headerMap !! field with
  | Some idx => match record !! idx with
                | Some v => Go.TrimSpace v
                | None => ""%string
                end
  | None => ""%string
  end.

(** [Parser.getInt] *)
Definition getInt (record : csv_record) (headerMap : header_map) (field : string)
    (defaultVal : Z) : Z :=
  let str := getString record headerMap field in
  if String.eqb str "" then defaultVal else
  match Go.Atoi str with Some v => v | None => defaultVal end.

Section Floats.
(** Go's [float64]: its zero, the [!=] comparison, and
    [strconv.ParseFloat(s, 64)] ([None] for a syntax error). *)
Variable float64 : Type.
Variable float_zero : float64.
Variable float_ne : float64 -> float64 -> bool.
Variable ParseFloat : string -> option float64.

(** [Parser.getFloat] *)
Definition getFloat (record : csv_record) (headerMap : header_map) (field : string)
    (defaultVal : float64) : float64 :=
  let str := getString record headerMap field in
  if String.eqb str "" then defaultVal else
  match ParseFloat str with Some v => v | None => defaultVal end.

(** [models.Stop] *)
Record Stop := mkStop {
  StopID : string; StopName : string;
  StopLat : float64; StopLon : float64;
  LocationType : Z; ParentStation : string;
  WheelchairBoarding : Z; LevelID : string
}.

(** [Parser.parseStop] *)
Definition parseStop (record : csv_record) (headerMap : header_map) : Stop :=
  mkStop (getString record headerMap "stop_id")
         (getString record headerMap "stop_name")
         (getFloat record headerMap "stop_lat" float_zero)
         (getFloat record headerMap "stop_lon" float_zero)
         (getInt record headerMap "location_type" 0)
         (getString record headerMap "parent_station")
         (getInt record headerMap "wheelchair_boarding" 0)
         (getString record headerMap "level_id").

(** [sql.NullFloat64] / [sql.NullString] *)
Record NullFloat64 := mkNullFloat64 { Float64 : float64; ValidF : bool }.
Record NullString := mkNullString { NString : string; ValidS : bool }.

(** The row [OnStop] adds to the [stops] batch. *)
Record stop_row := mkStopRow {
  col_stop_id : string; col_source_id : Z; col_version_id : nat;
  col_stop_name : string; col_stop_lat : NullFloat64; col_stop_lon : NullFloat64;
  col_location_type : Z; col_parent_station : NullString;
  col_wheelchair_boarding : Z; col_level_id : NullString
}.

(** [Importer.Import]'s [OnStop] callback. *)
Definition OnStop (sourceID : Z) (versionID : nat) (stop : Stop) : stop_row :=
  mkStopRow (StopID stop) sourceID versionID (StopName stop)
    (mkNullFloat64 (StopLat stop) (float_ne (StopLat stop) float_zero))
    (mkNullFloat64 (StopLon stop) (float_ne (StopLon stop) float_zero))
    (LocationType stop)
    (mkNullString (ParentStation stop) (negb (String.eqb (ParentStation stop) "")))
    (WheelchairBoarding stop)
    (mkNullString (LevelID stop) (negb (String.eqb (LevelID stop) ""))).

(** The value the database stores for a [sql.NullFloat64] argument. *)
Definition stored (x : NullFloat64) : option float64 :=
  if ValidF x then Some (Float64 x) else None.
End Floats.

End Static.

(** ** The realtime consumer's [fetchFeed] (unnamed/part_001) *)
Module Consumer.

(** Feed messages are represented by an identifier of the decoded
    [FeedMessage]. *)
Definition feedMessage := string.

Record cacheEntry := mkCacheEntry {
  ce_feedMessage : feedMessage;
  ce_timestamp : Z;
  ce_etag : string
}.

(** The consumer state [fetchFeed] reads and writes: the number of
    tokens buffered in [rateLimiter.tokens], the cache map, the clock
    and [config.CacheExpiration]. *)
Record consumer := mkConsumer {
  tokens : nat;
  cache : gmap string cacheEntry;
  clock : Z;
  CacheExpiration : Z
}.

(** The cases of the rate-limit [select]. *)
Inductive select_case := TokenCase | CtxDoneCase | StopCase | AfterCase.

(** What the world does while [fetchFeed] runs: whether the refill
    goroutine adds a token within 5 s, whether [ctx] or [stopChan] are
    closed, which ready case the runtime chooses (an index into the
    ready cases; Go picks uniformly among them), and the HTTP answer. *)
Inductive http_outcome :=
  | DoError
  | Response (status : Z) (etag : string) (body : option feedMessage).
  (* [body = None]: reading or [proto.Unmarshal] fails *)

Record env := mkEnv {
  refill_within_5s : bool;
  ctx_done : bool;
  stopped : bool;
  pick : nat;
  http : http_outcome
}.

Record FeedResult := mkFeedResult {
  Message : option feedMessage;
  Error : option string
}.

(** What one call did besides its result: whether an HTTP request was
    sent and the [If-None-Match] header it carried. *)
Record effects := mkEffects {
  http_sent : bool;
  if_none_match : option string
}.

Definition ready_cases (c : consumer) (w : env) : list select_case :=
  (if Nat.ltb 0 (tokens c) || refill_within_5s w then [TokenCase] else []) ++
  (if ctx_done w then [CtxDoneCase] else []) ++
  (if stopped w then [StopCase] else []) ++
  (if Nat.eqb (tokens c) 0 && negb (refill_within_5s w) then [AfterCase] else []).

Definition chosen (c : consumer) (w : env) : select_case :=
  let rs := ready_cases c w in
  nth (pick w mod length rs) rs AfterCase.

Definition no_effects := mkEffects false None.

(** [fetchFeed]: the rate-limit [select], then the cache check, then the
    HTTP request and the handling of its response. *)
Definition fetchFeed (name : string) (w : env) (c : consumer)
    : FeedResult * effects * consumer :=
  match chosen c w with
  | CtxDoneCase => (mkFeedResult None (Some "context canceled"), no_effects, c)
  | StopCase => (mkFeedResult None (Some "consumer stopped"), no_effects, c)
  | AfterCase => (mkFeedResult None (Some "rate limit exceeded"), no_effects, c)
  | TokenCase =>
      (* a token buffered or refilled within the wait is received *)
      let c1 := mkConsumer (tokens c - 1) (cache c) (clock c) (CacheExpiration c) in
      let served :=
        match cache c1 !! name with
        | Some e =>
            if clock c1 - ce_timestamp e <? CacheExpiration c1 then
              Some (mkFeedResult (Some (ce_feedMessage e)) None, no_effects, c1)
            else None
        | None => None
        end in
      match served with
      | Some r => r
      | None =>
        let inm := match cache c1 !! name with
                   | Some e => if String.eqb (ce_etag e) "" then None else Some (ce_etag e)
                   | None => None end in
        let eff := mkEffects true inm in
        match http w with
        | DoError => (mkFeedResult None (Some "failed to fetch feed"), eff, c1)
        | Response status etag body =>
          match (if status =? 304 then cache c1 !! name else None) with
          | Some e => (mkFeedResult (Some (ce_feedMessage e)) None, eff, c1)
          | None =>
            if negb (status =? 200) then (mkFeedResult None (Some "HTTP error"), eff, c1) else
            match body with
            | None => (mkFeedResult None (Some "failed to unmarshal protobuf"), eff, c1)
            | Some m =>
              let c2 := mkConsumer (tokens c1)
                          (<[name := mkCacheEntry m (clock c1) etag]> (cache c1))
                          (clock c1) (CacheExpiration c1) in
              (mkFeedResult (Some m) None, eff, c2)
            end
          end
        end
      end
  end.

Definition fresh_cache : gmap string cacheEntry :=
  {[ "metro_trains" := mkCacheEntry "msg_1" 100 "" ]}.

End Consumer.

(** ** Static version cleanup: [Maintenance.CleanupOldGTFSVersions]
    (unnamed/part_005) *)
Module GTFSCleanup.

Record gversion := mkGVersion {
  gv_id : nat;
  gv_name : string;
  gv_created_at : Z;
  gv_is_active : bool
}.

(** The static schema: the [gtfs.versions] rows and, for each entity row
    of the per-version tables, its table name and [version_id]. *)
Record gdb := mkGDB {
  gversions : list gversion;
  gentities : list (string * nat)
}.

(** [ORDER BY created_at DESC]: an insertion sort; rows with equal
    [created_at] come in an order SQL leaves unspecified. *)
Fixpoint insert_desc (v : gversion) (l : list gversion) : list gversion :=
  match l with
  | [] => [v]
  | x :: l' => if gv_created_at x <? gv_created_at v then v :: l else x :: insert_desc v l'
  end.

Fixpoint sort_desc (l : list gversion) : list gversion :=
  match l with
  | [] => []
  | x :: l' => insert_desc x (sort_desc l')
  end.

Definition inactive (s : gdb) : list gversion :=
  List.filter (fun v => negb (gv_is_active v)) (gversions s).

(** [SELECT ... WHERE is_active = false ORDER BY created_at DESC OFFSET $1]. *)
Definition versionsToDelete (keepInactiveVersions : nat) (s : gdb) : list gversion :=
  drop keepInactiveVersions (sort_desc (inactive s)).

Definition tables : list string :=
  ["stop_times"; "trips"; "shapes"; "calendar_dates"; "calendar"; "transfers";
   "pathways"; "levels"; "stops"; "routes"; "agency"].

(** [DELETE FROM gtfs.<table> WHERE version_id = $1] outside any
    transaction: the rows go at once; the result is the affected count. *)
Definition delete_rows (table : string) (vid : nat) (s : gdb) : Z * gdb :=
  let hit e := String.eqb (fst e) table && Nat.eqb (snd e) vid in
  (Z.of_nat (length (List.filter hit (gentities s))),
   mkGDB (gversions s) (List.filter (fun e => negb (hit e)) (gentities s))).

(** [fails vid t]: the statement deleting version [vid] from table [t]
    (or ["versions"]) returns an error. *)
Section Delete.
Variable fails : nat -> string -> bool.

Fixpoint delete_tables (vid : nat) (ts : list string) (totalDeleted : Z) (s : gdb)
    : Z * option string * gdb :=
  match ts with
  | [] =>
      if fails vid "versions" then (totalDeleted, Some "deleting version record", s)
      else (totalDeleted, None,
            mkGDB (List.filter (fun v => negb (Nat.eqb (gv_id v) vid)) (gversions s)) (gentities s))
  | t :: ts' =>
      if fails vid t then (totalDeleted, Some ("deleting from " ++ t)%string, s)
      else let '(deleted, s1) := delete_rows t vid s in
           delete_tables vid ts' (totalDeleted + deleted) s1
  end.

Definition deleteGTFSVersion (versionID : nat) (s : gdb) : Z * option string * gdb :=
  delete_tables versionID tables 0 s.

Record VersionCleanupResult := mkVCR {
  VersionID : option nat;
  VersionName : string;
  RecordsDeleted : Z;
  CleanupStatus : string
}.

(** The loop over [versionsToDelete]: an error is recorded and the loop
    continues with the next version. *)
Fixpoint delete_each (vs : list gversion) (totalDeleted : Z) (s : gdb)
    : list VersionCleanupResult * Z * gdb :=
  match vs with
  | [] => ([], totalDeleted, s)
  | v :: vs' =>
      let '(deletedCount, err, s1) := deleteGTFSVersion (gv_id v) s in
      match err with
      | Some e =>
          let '(rs, tot, s2) := delete_each vs' totalDeleted s1 in
          (mkVCR (Some (gv_id v)) (gv_name v) deletedCount ("ERROR: " ++ e)%string :: rs, tot, s2)
      | None =>
          let '(rs, tot, s2) := delete_each vs' (totalDeleted + deletedCount) s1 in
          (mkVCR (Some (gv_id v)) (gv_name v) deletedCount "SUCCESS" :: rs, tot, s2)
      end
  end.

(** [select_error]: the [SELECT] of the versions to delete, one of its
    [rows.Scan] or [rows.Err()] fails; the error is returned before any
    deletion. *)
Definition CleanupOldGTFSVersions (select_error : option string)
    (keepInactiveVersions : nat) (s : gdb) : res (list VersionCleanupResult) * gdb :=
  match select_error with
  | Some e => (Err e, s)
  | None =>
      let vs := versionsToDelete keepInactiveVersions s in
      let '(results, totalDeleted, s') := delete_each vs 0 s in
      if Nat.ltb 0 (length vs)
      then (Ok (results ++ [mkVCR None "CLEANUP_SUMMARY" totalDeleted "COMPLETED"]), s')
      else (Ok results, s')
  end.
End Delete.

Definition ge_created (a b : gversion) : Prop := gv_created_at b <= gv_created_at a.

Definition has_id (r : VersionCleanupResult) : bool :=
  match VersionID r with Some _ => true | None => false end.

(** Deleting only ever removes rows. *)
Definition shrinks (s s' : gdb) : Prop :=
  (forall v, In v (gversions s') -> In v (gversions s)) /\
  (forall e, In e (gentities s') -> In e (gentities s)).

Definition three_inactive : gdb :=
  mkGDB [mkGVersion 1 "v1" 10 false; mkGVersion 2 "v2" 20 false; mkGVersion 3 "v3" 30 false]
        [("stops", 1%nat); ("stops", 2%nat); ("stops", 3%nat)].

End GTFSCleanup.

(** ** The import lock of [maintenance.CleanupScheduler] *)
Module ImportLock.

(** Where the static import ([GTFSScheduler.checkAndUpdate]) is: idle, or
    between the start of the bulk insert and the activation commit. *)
Inductive import_pc := IIdle | IImporting.

(** Where a cleanup task ([performRealtimeCleanup] or
    [performStaticCleanup]) is: idle, inside [canPerformCleanup] holding
    the read side, or running its deletes after [canPerformCleanup]
    returned [true]. *)
Inductive cleanup_pc := CIdle | CChecking | CMutating.

Record sys := mkSys {
  imp : import_pc;
  cln : cleanup_pc;
  writer : bool;            (* importLock held for writing *)
  readers : nat;            (* importLock read holders *)
  isImportInProgress : bool
}.

Definition init : sys := mkSys IIdle CIdle false 0 false.

(** [calls_lock]: whether the import brackets its work with
    [LockForImport] / [UnlockAfterImport].  [checkAndUpdate] makes no
    such call (the only callers of those methods are in the maintenance
    package's own files), so the program is [calls_lock = false]. *)
Section Steps.
Variable calls_lock : bool.

Inductive step : sys -> sys -> Prop :=
  | import_start_nolock c w r f :
      calls_lock = false -> step (mkSys IIdle c w r f) (mkSys IImporting c w r f)
  | import_finish_nolock c w r f :
      calls_lock = false -> step (mkSys IImporting c w r f) (mkSys IIdle c w r f)
  (* LockForImport: importLock.Lock() waits for no writer and no
     reader, then the flag is set *)
  | import_start_lock c f :
      calls_lock = true -> step (mkSys IIdle c false 0 f) (mkSys IImporting c true 0 true)
  (* UnlockAfterImport: the flag is cleared, then importLock.Unlock() *)
  | import_finish_lock c r f :
      calls_lock = true -> step (mkSys IImporting c true r f) (mkSys IIdle c false r false)
  (* canPerformCleanup: importLock.RLock() waits for no writer *)
  | cleanup_rlock i r f :
      step (mkSys i CIdle false r f) (mkSys i CChecking false (S r) f)
  (* the flag is read, the deferred RUnlock runs, and the caller skips or
     goes on to its deletes *)
  | cleanup_check i w r f :
      step (mkSys i CChecking w (S r) f)
           (mkSys i (if f then CIdle else CMutating) w r f)
  | cleanup_finish i w r f :
      step (mkSys i CMutating w r f) (mkSys i CIdle w r f).

Inductive reach : sys -> Prop :=
  | reach_init : reach init
  | reach_step s s' : reach s -> step s s' -> reach s'.
End Steps.

Definition overlap : sys := mkSys IImporting CMutating false 0 false.

End ImportLock.

(** ** Realtime retention: [Processor.performCleanup] *)
Module Retention.
Import Realtime.

(** A realtime row for retention: its table, key, the key it references
    (0 for [feed_messages]) and, for [feed_messages], [received_at] in
    seconds. *)
Record rrow := mkRRow {
  r_tbl : table;
  r_id : nat;
  r_parent : nat;
  received_at : Z
}.

(** The [ON DELETE CASCADE] foreign keys of 001_realtime_tables.sql. *)
Definition parent_table (t : table) : option table :=
  match t with
  | FeedMessages => None
  | VehiclePositions | TripUpdates | Alerts => Some FeedMessages
  | StopTimeUpdates => Some TripUpdates
  | AlertActivePeriods | AlertInformedEntities | AlertTranslations => Some Alerts
  end.

Definition is_key (pt : table) (k : nat) (p : rrow) : bool :=
  (if decide (r_tbl p = pt) then true else false) && Nat.eqb (r_id p) k.

(** Every reference points at a present row. *)
Definition fk_ok (rs : list rrow) : bool :=
  forallb (fun c => match parent_table (r_tbl c) with
                    | None => true
                    | Some pt => existsb (is_key pt (r_parent c)) rs
                    end) rs.

(** The rows a [DELETE FROM feed_messages WHERE received_at < cutoff]
    removes: the matching headers and, by cascade, every row referencing
    a removed row.  The references are at most two deep, so three rounds
    reach every descendant. *)
Fixpoint doomed (fuel : nat) (cutoff : Z) (rs : list rrow) (r : rrow) : bool :=
  match fuel with
  | O => false
  | S f =>
      match parent_table (r_tbl r) with
      | None => received_at r <? cutoff
      | Some pt => existsb (fun p => is_key pt (r_parent r) p && doomed f cutoff rs p) rs
      end
  end.

(** [INTERVAL '15 minutes']. *)
Definition retention_window : Z := 900.

(** [performCleanup]: one autocommitted statement; on error nothing is
    removed. *)
Definition performCleanup (fails : bool) (now : Z) (rs : list rrow) : list rrow :=
  if fails then rs
  else List.filter (fun r => negb (doomed 3 (now - retention_window) rs r)) rs.

Definition sample_rows : list rrow :=
  [mkRRow FeedMessages 1 0 100; mkRRow TripUpdates 2 1 0; mkRRow StopTimeUpdates 3 2 0;
   mkRRow FeedMessages 4 0 1000; mkRRow Alerts 5 4 0; mkRRow AlertTranslations 6 5 0].

End Retention.

(* ===================================================================== *)
(** ** Decimal formatting ([strconv.Itoa], [fmt]'s [%d])                  *)
(* ===================================================================== *)

Module GoFmt.

(** The ASCII digit of [0 <= d < 10]. *)
Definition digit_char (d : Z) : ascii := Ascii.ascii_of_nat (48 + Z.to_nat d).

(** The decimal digits of [n >= 0], least significant first onto [acc];
    [fuel] bounds the number of digits. *)
Fixpoint udigits (fuel : nat) (n : Z) (acc : string) : string :=
  match fuel with
  | O => acc
  | S f =>
      let acc' := String (digit_char (n mod 10)) acc in
      if n <? 10 then acc' else udigits f (n / 10) acc'
  end.

(** [n >= 0] has at most [log2 n + 1] decimal digits. *)
Definition utoa (n : Z) : string := udigits (S (Z.to_nat (Z.log2 n))) n EmptyString.

(** [strconv.Itoa] (and [fmt.Sprintf("%d", n)]): a minus sign for a
    negative number, then the digits of its magnitude. *)
Definition Itoa (n : Z) : string :=
  if n <? 0 then String "-"%char (utoa (- n)) else utoa n.

(** Every character of [s] satisfies [f]. *)
Fixpoint str_all (f : ascii -> bool) (s : string) : bool :=
  match s with EmptyString => true | String c s' => f c && str_all f s' end.

End GoFmt.

(* ===================================================================== *)
(** ** Importer batch inserter (internal/gtfs-static/importer)            *)
(* ===================================================================== *)

Module Importer.

Section Batch.
(** A bound argument of [tx.Exec] ([interface{}]). *)
Variable value : Type.

(** [batchInserter]; its [tx] is the log of the statements it executed. *)
Record batchInserter := mkBatch {
  tableName : string;
  columns : list string;
  values : list value;
  valueCount : Z;
  batchSize : Z;
  fieldCount : Z
}.

(** The transaction the batches share: the [INSERT]s executed so far,
    each with its arguments.  [exec_ok q args] tells whether
    [tx.Exec(q, args...)] succeeds. *)
Definition txlog := list (string * list value).
Variable exec_ok : string -> list value -> bool.

(** [batchInserter.buildInsertQuery]: row [i] gets placeholders
    [$(i*fieldCount+1)] .. [$(i*fieldCount+fieldCount)]. *)
Definition buildInsertQuery (b : batchInserter) : string :=
  ("INSERT INTO gtfs." ++ tableName b ++ " (" ++ String.concat ", " (columns b)
   ++ ") VALUES "
   ++ String.concat ", "
        (map (fun i => "(" ++ String.concat ", "
                 (map (fun j => "$" ++ GoFmt.Itoa (i * fieldCount b + j + 1))
                      (seqZ 0 (fieldCount b))) ++ ")")
             (seqZ 0 (valueCount b)))
   ++ " ON CONFLICT DO NOTHING")%string.

Definition set_buffer (b : batchInserter) (vs : list value) (vc : Z) : batchInserter :=
  mkBatch (tableName b) (columns b) vs vc (batchSize b) (fieldCount b).

(** [batchInserter.Flush]: nothing for an empty batch; otherwise one
    [tx.Exec]; the buffer is reset only when it succeeds. *)
Definition Flush (b : batchInserter) (tx : txlog) : res unit * batchInserter * txlog :=
  if valueCount b =? 0 then (Ok tt, b, tx) else
  let query := buildInsertQuery b in
  if exec_ok query (values b)
  then (Ok tt, set_buffer b [] 0, tx ++ [(query, values b)])
  else (Err "executing batch insert", b, tx).

(** [batchInserter.Add(values...)] *)
Definition Add (b : batchInserter) (vs : list value) (tx : txlog)
  : res unit * batchInserter * txlog :=
  let b' := set_buffer b (values b ++ vs) (valueCount b + 1) in
  if batchSize b' <=? valueCount b' then Flush b' tx else (Ok tt, b', tx).

(** The callbacks' [Add]s one after the other; the parser stops at the
    first error a callback returns. *)
Fixpoint add_all (b : batchInserter) (rows : list (list value)) (tx : txlog)
  : res unit * batchInserter * txlog :=
  match rows with
  | [] => (Ok tt, b, tx)
  | r :: rs =>
      match Add b r tx with
      | (Ok _, b', tx') => add_all b' rs tx'
      | (Err e, b', tx') => (Err e, b', tx')
      end
  end.
End Batch.
Arguments mkBatch {value}.
Arguments tableName {value}.
Arguments columns {value}.
Arguments values {value}.
Arguments valueCount {value}.
Arguments batchSize {value}.
Arguments fieldCount {value}.
Arguments buildInsertQuery {value}.
Arguments set_buffer {value}.
Arguments Flush {value}.
Arguments Add {value}.
Arguments add_all {value}.

(** [getColumnsForTable] *)
Definition getColumnsForTable (tableName : string) : list string :=
  match tableName with
  | "agency" => ["agency_id"; "source_id"; "version_id"; "agency_name"; "agency_url"; "agency_timezone"; "agency_lang"; "agency_fare_url"]
  | "stops" => ["stop_id"; "source_id"; "version_id"; "stop_name"; "stop_lat"; "stop_lon"; "location_type"; "parent_station"; "wheelchair_boarding"; "level_id"]
  | "routes" => ["route_id"; "source_id"; "version_id"; "agency_id"; "route_short_name"; "route_long_name"; "route_type"; "route_color"; "route_text_color"]
  | "calendar" => ["service_id"; "source_id"; "version_id"; "monday"; "tuesday"; "wednesday"; "thursday"; "friday"; "saturday"; "sunday"; "start_date"; "end_date"]
  | "calendar_dates" => ["service_id"; "source_id"; "version_id"; "date"; "exception_type"]
  | "shapes" => ["shape_id"; "source_id"; "version_id"; "shape_pt_lat"; "shape_pt_lon"; "shape_pt_sequence"; "shape_dist_traveled"]
  | "trips" => ["trip_id"; "source_id"; "version_id"; "route_id"; "service_id"; "shape_id"; "trip_headsign"; "direction_id"; "block_id"; "wheelchair_accessible"]
  | "stop_times" => ["trip_id"; "source_id"; "version_id"; "stop_id"; "stop_sequence"; "arrival_time"; "departure_time"; "stop_headsign"; "pickup_type"; "drop_off_type"; "shape_dist_traveled"]
  | "levels" => ["level_id"; "source_id"; "version_id"; "level_index"; "level_name"]
  | "pathways" => ["pathway_id"; "source_id"; "version_id"; "from_stop_id"; "to_stop_id"; "pathway_mode"; "is_bidirectional"; "traversal_time"]
  | "transfers" => ["from_stop_id"; "to_stop_id"; "source_id"; "version_id"; "from_route_id"; "to_route_id"; "from_trip_id"; "to_trip_id"; "transfer_type"; "min_transfer_time"]
  | _ => []
  end%string.

(** [Importer.newBatchInserter] with [NewImporter]'s [batchSize] of 1000. *)
Definition newBatchInserter {value} (tableName : string) (fieldCount : Z)
  : batchInserter value :=
  mkBatch tableName (getColumnsForTable tableName) [] 0 1000 fieldCount.

(** The batches of [Importer.Import], in its flush order [batches], with
    the [fieldCount] each is created with. *)
Definition import_batches : list (string * Z) :=
  [("agency", 6); ("levels", 5); ("stops", 8); ("routes", 7); ("calendar", 11);
   ("calendar_dates", 5); ("shapes", 6); ("trips", 8); ("stop_times", 10);
   ("pathways", 8); ("transfers", 10)]%string.

(** The number of arguments each callback of [Importer.Import] passes
    to its batch's [Add] ([OnAgency] .. [OnTransfer]). *)
Definition callback_arity (tableName : string) : Z :=
  match tableName with
  | "agency" => 8 | "stops" => 10 | "routes" => 9 | "calendar" => 12
  | "calendar_dates" => 5 | "shapes" => 7 | "trips" => 10 | "stop_times" => 11
  | "levels" => 5 | "pathways" => 8 | "transfers" => 10
  | _ => 0
  end%string.

(** The numbers of the [$n] placeholders of a query, in order. *)
Inductive scan_state := Outside | AfterDollar | InNum (n : Z).

Fixpoint scan (st : scan_state) (s : string) : list Z :=
  match s with
  | EmptyString => match st with InNum n => [n] | _ => [] end
  | String c s' =>
      let next := if Ascii.eqb c "$"%char then scan AfterDollar s' else scan Outside s' in
      match st with
      | Outside => next
      | AfterDollar => if Go.isDigit c then scan (InNum (Go.digitVal c)) s' else next
      | InNum n =>
          if Go.isDigit c then scan (InNum (n * 10 + Go.digitVal c)) s' else n :: next
      end
  end.

Definition placeholders (q : string) : list Z := scan Outside q.

(** The arguments of all the [INSERT]s of a log, in execution order. *)
Definition flushed {value} (tx : txlog value) : list value := List.concat (map snd tx).

(** A logged [INSERT] of a full batch of rows [pend] of [b0]'s table,
    each satisfying [Q]. *)
Definition full_batch {value} (Q : list value -> Prop) (b0 : batchInserter value)
    (e : string * list value) : Prop :=
  exists pend, Forall Q pend /\ Z.of_nat (length pend) = batchSize b0 /\
    e = (buildInsertQuery (set_buffer b0 (List.concat pend) (batchSize b0)), List.concat pend).

Definition nodollar : ascii -> bool := fun c => negb (Ascii.eqb c "$"%char).

(** What may follow a number: the end, or a non-digit. *)
Definition good_next (r : string) : Prop :=
  match r with EmptyString => True | String c _ => Go.isDigit c = false end.

(** A piece of a query and the placeholder numbers it contributes. *)
Definition piece (t : string) (ns : list Z) : Prop :=
  forall r, good_next r -> scan Outside (t ++ r) = ns ++ scan Outside r.

End Importer.

(* ===================================================================== *)
(** ** GTFS parser (internal/gtfs-static/parser)                          *)
(* ===================================================================== *)

Module Parser.
Import Static.

(** Go's [isLeap] (with [%] truncating, as [Z.rem]). *)
Definition isLeap (year : Z) : bool :=
  (Z.rem year 4 =? 0) && (negb (Z.rem year 100 =? 0) || (Z.rem year 400 =? 0)).

(** Go's [daysBefore] table and [daysIn(month, year)]. *)
Definition daysBefore : list Z := [0; 31; 59; 90; 120; 151; 181; 212; 243; 273; 304; 334; 365].

Definition daysIn (month year : Z) : Z :=
  if (month =? 2) && isLeap year then 29
  else nth (Z.to_nat month) daysBefore 0 - nth (Z.to_nat (month - 1)) daysBefore 0.

(** [time.Parse("20060102", value)] (Go 1.23): [2006] takes four
    characters, the first a digit, through Go's [atoi]; [01] and [02]
    each two digits ([getnum(value, true)]), the month within 1..12;
    no text may follow; then the day is checked against [daysIn].
    Result: year, month, day. *)
Definition time_Parse_date (value : string) : option (Z * Z * Z) :=
  match value with
  | EmptyString => None
  | String c0 _ =>
    if Nat.ltb (String.length value) 4 || negb (Go.isDigit c0) then None else
    let p := String.substring 0 4 value in
    let rest := String.substring 4 (String.length value - 4) value in
    match Go.parse_digits p with
    | None => None
    | Some year =>
      match GTFSTime.getnum rest true with
      | None => None
      | Some (month, r1) =>
        if (month <=? 0) || (12 <? month) then None else
        match GTFSTime.getnum r1 true with
        | None => None
        | Some (day, r2) =>
            if negb (String.eqb r2 "") then None
            else if (day <? 1) || (daysIn month year <? day) then None
            else Some (year, month, day)
        end
      end
    end
  end.

(** [models.Calendar] / [models.CalendarDate], dates as year, month, day. *)
Record Calendar := mkCalendar {
  ServiceID : string; Monday : Z; Tuesday : Z; Wednesday : Z; Thursday : Z;
  Friday : Z; Saturday : Z; Sunday : Z; StartDate : Z * Z * Z; EndDate : Z * Z * Z
}.

Record CalendarDate := mkCalendarDate {
  cd_ServiceID : string; Date : Z * Z * Z; ExceptionType : Z
}.

(** [Parser.parseCalendar] *)
Definition parseCalendar (record : csv_record) (headerMap : header_map) : res Calendar :=
  match time_Parse_date (getString record headerMap "start_date") with
  | None => Err "parsing start_date"
  | Some startDate =>
    match time_Parse_date (getString record headerMap "end_date") with
    | None => Err "parsing end_date"
    | Some endDate =>
        Ok (mkCalendar (getString record headerMap "service_id")
              (getInt record headerMap "monday" 0) (getInt record headerMap "tuesday" 0)
              (getInt record headerMap "wednesday" 0) (getInt record headerMap "thursday" 0)
              (getInt record headerMap "friday" 0) (getInt record headerMap "saturday" 0)
              (getInt record headerMap "sunday" 0) startDate endDate)
    end
  end.

(** [Parser.parseCalendarDate] *)
Definition parseCalendarDate (record : csv_record) (headerMap : header_map) : res CalendarDate :=
  match time_Parse_date (getString record headerMap "date") with
  | None => Err "parsing date"
  | Some date =>
      Ok (mkCalendarDate (getString record headerMap "service_id") date
            (getInt record headerMap "exception_type" 0))
  end.

(** The header loop of [Parser.parseFile]:
    [headerMap[strings.TrimSpace(h)] = i]. *)
Fixpoint header_loop (i : nat) (header : csv_record) (m : header_map) : header_map :=
  match header with
  | [] => m
  | h :: hs => header_loop (S i) hs (<[Go.TrimSpace h := i]> m)
  end.

Definition build_header (header : csv_record) : header_map := header_loop 0 header ∅.

(** An entry of the archive: its name, whether [file.Open] succeeds, the
    records [csv.Reader] returns (header first), and the error that ends
    the reading instead of [io.EOF], if any. *)
Record zfile := mkZFile {
  zname : string; zopen_ok : bool; zrecords : list csv_record; zread_err : option string
}.

(** The file names [parseFile]'s [switch] dispatches. *)
Definition dispatched : list string :=
  ["agency.txt"; "stops.txt"; "routes.txt"; "trips.txt"; "stop_times.txt";
   "calendar.txt"; "calendar_dates.txt"; "shapes.txt"; "levels.txt"; "pathways.txt";
   "transfers.txt"]%string.

(** Whether the record reaches the callback: only [calendar.txt] and
    [calendar_dates.txt] records can fail to parse ([continue]). *)
Definition record_parses (name : string) (record : csv_record) (headerMap : header_map) : bool :=
  if String.eqb name "calendar.txt" then
    match parseCalendar record headerMap with Ok _ => true | Err _ => false end
  else if String.eqb name "calendar_dates.txt" then
    match parseCalendarDate record headerMap with Ok _ => true | Err _ => false end
  else true.

Section ParseFile.
(** [callback_set name]: the callback of that file's case is not [nil];
    [call name record headerMap]: what that callback returns for the
    entity parsed from [record]; [OnFileComplete] as in [ParseCallbacks]. *)
Variable callback_set : string -> bool.
Variable call : string -> csv_record -> header_map -> res unit.
Variable OnFileComplete : option (string -> res unit).

(** The record loop: the records handed to a callback, and how it ends. *)
Fixpoint records_loop (name : string) (headerMap : header_map) (recs : list csv_record)
  : list csv_record * res unit :=
  match recs with
  | [] => ([], Ok tt)
  | r :: rs =>
      if existsb (String.eqb name) dispatched && callback_set name then
        if negb (record_parses name r headerMap) then records_loop name headerMap rs
        else match call name r headerMap with
             | Ok _ => let '(ds, res) := records_loop name headerMap rs in (r :: ds, res)
             | Err e => ([r], Err e)
             end
      else records_loop name headerMap rs
  end.

(** [Parser.parseFile] *)
Definition parseFile (f : zfile) : list csv_record * res unit :=
  if negb (zopen_ok f) then ([], Err "opening file") else
  match zrecords f with
  | [] => ([], Err "reading header")
  | header :: recs =>
      let headerMap := build_header header in
      let '(ds, r) := records_loop (zname f) headerMap recs in
      match r with
      | Err e => (ds, Err e)
      | Ok _ =>
          match zread_err f with
          | Some e => (ds, Err ("reading record: " ++ e)%string)
          | None =>
              match OnFileComplete with
              | Some g => match g (zname f) with
                          | Err e => (ds, Err ("file complete callback: " ++ e)%string)
                          | Ok _ => (ds, Ok tt)
                          end
              | None => (ds, Ok tt)
              end
          end
      end
  end.
End ParseFile.

(** [parseStandardGTFS]'s [parseOrder]. *)
Definition parseOrder : list string :=
  ["agency.txt"; "levels.txt"; "stops.txt"; "routes.txt"; "calendar.txt";
   "calendar_dates.txt"; "shapes.txt"; "trips.txt"; "stop_times.txt"; "pathways.txt";
   "transfers.txt"]%string.

(** [fileMap[file.Name] = file] over [reader.File]. *)
Definition fileMap (files : list zfile) : gmap string zfile :=
  fold_left (fun m f => <[zname f := f]> m) files ∅.

Section Standard.
(** [parse_file f]: the outcome of [p.parseFile(file, callbacks)];
    [ctx_done i]: [ctx.Done()] is closed at the check before the
    [i]-th file found. *)
Variable parse_file : zfile -> res unit.
Variable ctx_done : nat -> bool.

(** The loop over [parseOrder]: the files handed to [parseFile], and how
    it ends. *)
Fixpoint order_loop (i : nat) (order : list string) (fm : gmap string zfile)
  : list zfile * res unit :=
  match order with
  | [] => ([], Ok tt)
  | fileName :: rest =>
      match fm !! fileName with
      | None => order_loop i rest fm               (* logged, skipped *)
      | Some file =>
          if ctx_done i then ([], Err "context canceled") else
          match parse_file file with
          | Err e => ([file], Err ("parsing " ++ fileName ++ ": " ++ e)%string)
          | Ok _ => let '(fs, r) := order_loop (S i) rest fm in (file :: fs, r)
          end
      end
  end.

(** [Parser.parseStandardGTFS] *)
Definition parseStandardGTFS (files : list zfile) : list zfile * res unit :=
  order_loop 0 parseOrder (fileMap files).
End Standard.

(** The last entry of the archive with a given name. *)
Definition last_named (files : list zfile) (n : string) : option zfile :=
  last (List.filter (fun f => String.eqb (zname f) n) files).

(** Eight-character [YYYYMMDD] text of a date with [0 <= year <= 9999]
    and two-digit month and day. *)
Definition yyyymmdd (year month day : Z) : string :=
  String (GoFmt.digit_char (year / 1000)) (String (GoFmt.digit_char (year / 100 mod 10))
  (String (GoFmt.digit_char (year / 10 mod 10)) (String (GoFmt.digit_char (year mod 10))
  (String (GoFmt.digit_char (month / 10)) (String (GoFmt.digit_char (month mod 10))
  (String (GoFmt.digit_char (day / 10)) (String (GoFmt.digit_char (day mod 10)) EmptyString))))))).

End Parser.

(* ===================================================================== *)
(** ** Auxiliary notions used by the statements of the proofs below      *)
(* ===================================================================== *)
Module Auxiliary.

(** The invariant of a [batchInserter] between calls: its configuration
    is that of the inserter [b0] it was created as, its buffer holds whole
    rows satisfying [Q], and fewer rows than [batchSize]. *)
Definition binv {V : Type} (Q : list V -> Prop) (b0 b : Importer.batchInserter V) : Prop :=
  b = Importer.set_buffer b0 (Importer.values b) (Importer.valueCount b) /\
  (exists pend, Importer.values b = List.concat pend /\
                Importer.valueCount b = Z.of_nat (length pend) /\ Forall Q pend) /\
  Importer.valueCount b < Importer.batchSize b0.

(** A byte that [unicode.IsSpace] rejects. *)
Definition nonspace (c : ascii) : bool := negb (Go.isSpace c).

(** A [YYYYMMDD] string naming a real calendar day. *)
Definition valid_date (s : string) : Prop :=
  exists y m d, s = Parser.yyyymmdd y m d /\ 0 <= y <= 9999 /\ 1 <= m <= 12 /\
                1 <= d <= Parser.daysIn m y.

(** Two decimal digits, and the [HH:MM:SS] clock string. *)
Definition two_digits (d : Z) : string :=
  String (GoFmt.digit_char (d / 10)) (String (GoFmt.digit_char (d mod 10)) EmptyString).

Definition hhmmss (h m s : Z) : string :=
  (two_digits h ++ ":" ++ two_digits m ++ ":" ++ two_digits s)%string.

(** An entity row of version [vid] in one of the tables [pre]. *)
Definition hit_in (pre : list string) (vid : nat) (e : string * nat) : bool :=
  existsb (String.eqb (fst e)) pre && Nat.eqb (snd e) vid.

End Auxiliary.

(* ##################################################################### *)
(** * Theorems                                                            *)
(* ##################################################################### *)

Module VersionStoreFacts.
Import VersionStore.

Lemma set_active_id b v : version_id (set_active b v) = version_id v.
Proof. reflexivity. Qed.

Lemma set_active_flag b v : is_active (set_active b v) = b.
Proof. reflexivity. Qed.

Lemma set_active_same v : set_active (is_active v) v = v.
Proof. destruct v; reflexivity. Qed.

Lemma filter_id_le_1 (vs : list version) (id : nat) :
  NoDup (map version_id vs) ->
  (length (List.filter (fun v => Nat.eqb (version_id v) id) vs) <= 1)%nat.
Proof.
  induction vs as [|v vs IH]; simpl; intros Hnd; [lia|].
  apply NoDup_cons in Hnd as [Hnin Hnd].
  destruct (Nat.eqb_spec (version_id v) id) as [Heq|Hne]; simpl.
  - assert (List.filter (fun w => Nat.eqb (version_id w) id) vs = []) as ->.
    { destruct (List.filter (fun w => Nat.eqb (version_id w) id) vs) as [|w ws] eqn:E;
        [reflexivity|].
      exfalso. assert (Hw : In w (List.filter (fun w => Nat.eqb (version_id w) id) vs))
        by (rewrite E; left; reflexivity).
      apply filter_In in Hw as [Hw Hid]. apply Nat.eqb_eq in Hid.
      apply Hnin. rewrite Heq, <- Hid. apply list_elem_of_In, in_map, Hw. }
    simpl. lia.
  - apply IH, Hnd.
Qed.

(** Deactivate-all followed by activate-by-id flags exactly the rows
    with the target id. *)
Lemma activate_after_deactivate (vs : list version) (id : nat) :
  map (fun v => if Nat.eqb (version_id v) id then set_active true v else v)
      (map (fun v => if is_active v then set_active false v else v) vs)
  = map (fun v => set_active (Nat.eqb (version_id v) id) v) vs.
Proof.
  rewrite map_map. apply map_ext. intros v.
  destruct v as [i n c u a su d]; unfold set_active; simpl.
  destruct a; simpl; destruct (Nat.eqb i id); reflexivity.
Qed.

Lemma filter_active_flagged (vs : list version) (id : nat) :
  List.filter is_active (map (fun v => set_active (Nat.eqb (version_id v) id) v) vs)
  = map (set_active true) (List.filter (fun v => Nat.eqb (version_id v) id) vs).
Proof.
  induction vs as [|v vs IH]; simpl; [reflexivity|].
  destruct (Nat.eqb (version_id v) id); simpl; rewrite IH; reflexivity.
Qed.

Lemma map_set_active_ids (f : version -> bool) (vs : list version) :
  map version_id (map (fun v => set_active (f v) v) vs) = map version_id vs.
Proof. rewrite map_map. reflexivity. Qed.

Lemma filter_id_deactivate (vs : list version) (id : nat) :
  List.filter (fun v => Nat.eqb (version_id v) id)
     (map (fun v => if is_active v then set_active false v else v) vs)
  = map (fun v => if is_active v then set_active false v else v)
        (List.filter (fun v => Nat.eqb (version_id v) id) vs).
Proof.
  induction vs as [|v vs IH]; simpl; [reflexivity|].
  destruct (is_active v) eqn:Ha; simpl; destruct (Nat.eqb (version_id v) id);
    simpl; rewrite ?Ha, IH; reflexivity.
Qed.

(** What a run of [ActivateVersion] can produce: an error with the
    store untouched, or success with every row flagged by id. *)
Lemma ActivateVersion_cases fails id s :
  (exists e, ActivateVersion fails id s = (Err e, s)) \/
  (ActivateVersion fails id s =
     (Ok tt, mkVStore (map (fun v => set_active (Nat.eqb (version_id v) id) v)
                            (versions s)) (next_version_id s) (now s)) /\
   List.filter (fun v => Nat.eqb (version_id v) id) (versions s) <> []).
Proof.
  unfold ActivateVersion, with_tx, tx_bind, tx_stmt, tx_fail, tx_ret,
    deactivate_all, activate_where_id; cbn [versions next_version_id now].
  destruct (fails O); [left; eauto|].
  destruct (fails 1%nat); [left; eauto|].
  destruct (fails 2%nat); [left; eauto|].
  cbn [versions next_version_id now]. rewrite filter_id_deactivate, length_map.
  destruct (List.filter (fun v => Nat.eqb (version_id v) id) (versions s))
    as [|w ws] eqn:E0; simpl; [left; eauto|].
  destruct (fails 3%nat); [left; eauto|].
  right. rewrite activate_after_deactivate. split; [reflexivity|].
  discriminate.
Qed.


Lemma CreateNewVersion_cases fmt fails name url lm s :
  (exists e, CreateNewVersion fmt fails name url lm s = (Err e, s)) \/
  CreateNewVersion fmt fails name url lm s =
    (Ok (next_version_id s),
     mkVStore (map (fun v => if is_active v then set_active false v else v) (versions s)
               ++ [mkVersion (next_version_id s) name (now s) lm false url
                     ("GTFS data imported from " ++ url ++ " at " ++ fmt lm)%string])
              (S (next_version_id s)) (now s)).
Proof.
  unfold CreateNewVersion, with_tx, tx_bind, tx_stmt, tx_ret,
    deactivate_all, insert_version.
  destruct (fails O); [left; eauto|].
  destruct (fails 1%nat); [left; eauto|].
  destruct (fails 2%nat); [left; eauto|].
  destruct (fails 3%nat); [left; eauto|].
  right. reflexivity.
Qed.

Lemma filter_active_deactivated (vs : list version) :
  List.filter is_active (map (fun v => if is_active v then set_active false v else v) vs) = [].
Proof.
  induction vs as [|v vs IH]; simpl; [reflexivity|].
  destruct (is_active v) eqn:Ha; simpl; rewrite ?Ha; exact IH.
Qed.

Lemma store_ok_after_activate (s : vstore) (id : nat) :
  store_ok s ->
  store_ok (mkVStore (map (fun v => set_active (Nat.eqb (version_id v) id) v)
                          (versions s)) (next_version_id s) (now s)).
Proof.
  intros (Hnd & Hlt & Hone). repeat split; cbn [versions next_version_id].
  - rewrite map_set_active_ids. exact Hnd.
  - apply Forall_map. eapply Forall_impl; [exact Hlt|]. intros v Hv. exact Hv.
  - unfold active_count; cbn [versions].
    rewrite filter_active_flagged, length_map. apply filter_id_le_1, Hnd.
Qed.

Lemma store_ok_after_create (s : vstore) name url lm d :
  store_ok s ->
  store_ok (mkVStore (map (fun v => if is_active v then set_active false v else v) (versions s)
               ++ [mkVersion (next_version_id s) name (now s) lm false url d])
              (S (next_version_id s)) (now s)).
Proof.
  intros (Hnd & Hlt & Hone). repeat split; cbn [versions next_version_id].
  - rewrite map_app, map_map. simpl.
    replace (map (fun x => version_id (if is_active x then set_active false x else x)) (versions s))
      with (map version_id (versions s))
      by (apply map_ext; intros v; destruct (is_active v); reflexivity).
    apply NoDup_app. split; [exact Hnd|]. split; [|apply NoDup_singleton].
    intros x Hx Hy. apply list_elem_of_singleton in Hy. subst x.
    apply list_elem_of_In, in_map_iff in Hx as (v & Hv & Hin).
    rewrite Forall_forall in Hlt. apply list_elem_of_In in Hin. specialize (Hlt v Hin). lia.
  - apply Forall_app. split.
    + apply Forall_map. eapply Forall_impl; [exact Hlt|].
      intros v Hv. cbv beta in Hv |- *. destruct (is_active v); unfold set_active; simpl; lia.
    + constructor; [simpl; lia | constructor].
  - unfold active_count; cbn [versions].
    rewrite List.filter_app, filter_active_deactivated. simpl. lia.
Qed.

End VersionStoreFacts.

Module VersionStoreClaims.
Import VersionStore VersionStoreFacts.

(** C1 (code_bug): on a store whose version 1 is active,
    [CreateNewVersion] commits a new inactive row with
    [updated_at = last_modified] but also clears the flag of version 1;
    when the import that follows fails, no version is active at all.
    The sibling SQL function [create_new_version] keeps version 1
    active. *)
Theorem CreateNewVersion_clears_previous_active :
  let s0 := mkVStore [mkVersion 1 "gtfs_old" 100 100 true "u" "d"] 2 200 in
  let fmt := fun _ : Z => ""%string in
  let '(r, s1) := CreateNewVersion fmt (fun _ => false) "gtfs_new" "u" 150 s0 in
  r = Ok 2%nat /\
  List.filter (fun v => Nat.eqb (version_id v) 2) (versions s1)
    = [mkVersion 2 "gtfs_new" 200 150 false "u" "GTFS data imported from u at "] /\
  map is_active (versions s0) = [true] /\
  map is_active (versions s1) = [false; false] /\
  GetActiveVersion false s1 = Ok None /\
  map is_active (versions (snd (create_new_version_sql "gtfs_new" "u" "" s0)))
    = [true; false].
Proof. vm_compute. repeat split. Qed.

(** C2: every [VersionChecker] write keeps the storage invariant (at
    most one active row, unique ids); [ActivateVersion] on a missing id
    fails and leaves the store unchanged, any failing run is rolled
    back, and a successful run flags exactly the target row, which is
    then the unique active version. *)
Theorem ActivateVersion_unique_active (fmt : Z -> string) (fails : nat -> bool)
    (id : nat) (name url : string) (lm : Z) (s : vstore) :
  store_ok s ->
  store_ok (snd (CreateNewVersion fmt fails name url lm s)) /\
  store_ok (snd (ActivateVersion fails id s)) /\
  (forall e s', ActivateVersion fails id s = (Err e, s') -> s' = s) /\
  ((forall v, In v (versions s) -> version_id v <> id) ->
     exists e, ActivateVersion fails id s = (Err e, s)) /\
  (forall s', ActivateVersion fails id s = (Ok tt, s') ->
     versions s' = map (fun v => set_active (Nat.eqb (version_id v) id) v) (versions s) /\
     exists v, List.filter is_active (versions s') = [v] /\ version_id v = id).
Proof.
  intros Hok. split; [|split; [|split; [|split]]].
  - destruct (CreateNewVersion_cases fmt fails name url lm s) as [[e ->] | ->];
      simpl; [exact Hok | apply store_ok_after_create, Hok].
  - destruct (ActivateVersion_cases fails id s) as [[e ->] | [-> _]];
      simpl; [exact Hok | apply store_ok_after_activate, Hok].
  - intros e s' H.
    destruct (ActivateVersion_cases fails id s) as [[e' He] | [He _]];
      rewrite He in H; inversion H; reflexivity.
  - intros Hnone.
    destruct (ActivateVersion_cases fails id s) as [[e He] | [_ Hne]]; [eauto|].
    exfalso. apply Hne.
    destruct (List.filter _ (versions s)) as [|w ws] eqn:E; [reflexivity|].
    assert (Hw : In w (List.filter (fun v => Nat.eqb (version_id v) id) (versions s)))
      by (rewrite E; left; reflexivity).
    apply filter_In in Hw as [Hin Hid]. apply Nat.eqb_eq in Hid.
    exfalso. exact (Hnone w Hin Hid).
  - intros s' H.
    destruct (ActivateVersion_cases fails id s) as [[e He] | [He Hne]];
      rewrite He in H; inversion H; subst s'; clear H.
    split; [reflexivity|]. cbn [versions].
    rewrite filter_active_flagged.
    destruct Hok as (Hnd & _ & _).
    pose proof (filter_id_le_1 (versions s) id Hnd) as Hle.
    destruct (List.filter _ (versions s)) as [|w [|w' ws]] eqn:E;
      [contradiction | | simpl in Hle; lia].
    exists (set_active true w). split; [reflexivity|].
    assert (Hw : In w (List.filter (fun v => Nat.eqb (version_id v) id) (versions s)))
      by (rewrite E; left; reflexivity).
    apply filter_In in Hw as [_ Hid]. apply Nat.eqb_eq in Hid. exact Hid.
Qed.

(** Witness: store with version 1 active and version 2 inactive;
    activating version 2 leaves it the unique active row. *)
Lemma ActivateVersion_unique_active_witness :
  let s := mkVStore [mkVersion 1 "a" 0 0 true "u" "d";
                     mkVersion 2 "b" 1 1 false "u" "d"] 3 5 in
  store_ok s /\
  exists v, List.filter is_active (versions (snd (ActivateVersion (fun _ => false) 2 s)))
              = [v] /\ version_id v = 2%nat.
Proof.
  intros s.
  assert (Hok : store_ok s).
  { unfold store_ok, active_count; simpl. split; [|split].
    - repeat constructor; set_solver.
    - repeat constructor; simpl; lia.
    - simpl. lia. }
  split; [exact Hok|].
  destruct (ActivateVersion_unique_active (fun _ => ""%string) (fun _ => false) 2
              "n" "u" 0 s Hok) as (_ & _ & _ & _ & Hsucc).
  apply (Hsucc (snd (ActivateVersion (fun _ => false) 2 s))).
  vm_compute. reflexivity.
Defined.

End VersionStoreClaims.

Module RealtimeFacts.
Import Realtime.

Section Seq.
Context {SEQ : Sequences}.

Lemma grows_refl own s : grows own s s.
Proof. exists []. rewrite app_nil_r. split; [reflexivity | constructor]. Qed.

Lemma grows_trans own s1 s2 s3 : grows own s1 s2 -> grows own s2 s3 -> grows own s1 s3.
Proof.
  intros (e1 & H1 & F1) (e2 & H2 & F2). exists (e1 ++ e2).
  rewrite H2, H1, app_assoc. split; [reflexivity|]. apply Forall_app; split; assumption.
Qed.

Lemma only_adds_ret own {A} (a : A) : only_adds own (tx_ret a).
Proof. intros ? ? t ? ? t' H. inversion H; subst. apply grows_refl. Qed.

Lemma only_adds_fail own {A} e : only_adds own (A:=A) (tx_fail e).
Proof. intros ? ? ? ? ? ? H. discriminate H. Qed.

Lemma only_adds_bind own {A B} (m : txm rttx A) (k : A -> txm rttx B) :
  only_adds own m -> (forall a, only_adds own (k a)) -> only_adds own (tx_bind m k).
Proof.
  intros Hm Hk fails n t b n' t' H. unfold tx_bind in H.
  destruct (m fails n t) as [[[a n1] t1]|e] eqn:E; [|discriminate H].
  eapply grows_trans; [eapply Hm; exact E | eapply Hk; exact H].
Qed.

Lemma only_adds_stmt own {A} what (f : rtstore -> A * rtstore) :
  (forall s, grows own s (snd (f s))) -> only_adds own (rt_stmt what f).
Proof.
  intros Hf fails n t a n' t' H. unfold rt_stmt in H.
  destruct (fails n || tx_aborted t); [discriminate H|].
  specialize (Hf (tx_tables t)). destruct (f (tx_tables t)) as [a0 s0].
  inversion H; subst. exact Hf.
Qed.

Lemma only_adds_probe own : only_adds own rt_probe.
Proof.
  intros fails n t a n' t' H. unfold rt_probe in H.
  destruct (fails n); inversion H; subst; apply grows_refl.
Qed.

Lemma grows_insert_row own tb parent ent s :
  grows own s (snd (insert_row tb parent ent own s)).
Proof.
  eexists [_]. split; [reflexivity|]. constructor; [reflexivity | constructor].
Qed.

Lemma grows_insert_rows own tb buf s : grows own s (insert_rows tb own buf s).
Proof.
  revert s; induction buf as [|[pa en] buf IH]; intros s; simpl; [apply grows_refl|].
  eapply grows_trans; [apply grows_insert_row | apply IH].
Qed.

Lemma only_adds_copy_add own {X} (keep : X -> bool) xs : only_adds own (copy_add keep xs).
Proof.
  induction xs as [|x xs IH]; simpl; [apply only_adds_ret|].
  destruct (keep x); [|exact IH].
  apply only_adds_bind; [|intros; exact IH].
  apply only_adds_stmt. intros; apply grows_refl.
Qed.

Lemma only_adds_copy_flush own tb buf : only_adds own (copy_flush tb own buf).
Proof. apply only_adds_stmt. intros s. apply grows_insert_rows. Qed.

Lemma only_adds_repeat_insert own k tb parent : only_adds own (repeat_insert k tb parent own).
Proof.
  induction k as [|k IH]; simpl; [apply only_adds_ret|].
  apply only_adds_bind; [|intros; exact IH].
  apply only_adds_stmt. intros s. apply grows_insert_row.
Qed.

Lemma only_adds_alert_children own m ents : only_adds own (alert_children own m ents).
Proof.
  induction ents as [|e es IH]; simpl; [apply only_adds_ret|].
  destruct (alert e) as [a|], (m !! entity_id e) as [aid|]; try exact IH.
  repeat (apply only_adds_bind; [apply only_adds_repeat_insert|intros]). exact IH.
Qed.

Local Ltac adds :=
  repeat (apply only_adds_bind; intros);
  first [ apply only_adds_probe | apply only_adds_copy_add | apply only_adds_copy_flush
        | apply only_adds_alert_children | apply only_adds_ret
        | apply only_adds_stmt; intros; apply grows_refl ].

Lemma only_adds_vehicle own fm ents : only_adds own (processVehiclePositionsBulk own fm ents).
Proof.
  unfold processVehiclePositionsBulk.
  apply only_adds_bind; [adds|intros].
  apply only_adds_bind; [adds|intros].
  apply only_adds_bind; [adds|intros]. adds.
Qed.

Lemma only_adds_trip own fm ents : only_adds own (processTripUpdatesBulk own fm ents).
Proof.
  unfold processTripUpdatesBulk.
  do 5 (apply only_adds_bind; [adds|intros]). adds.
Qed.

Lemma only_adds_alerts own fm ents : only_adds own (processServiceAlertsBulk own fm ents).
Proof.
  unfold processServiceAlertsBulk.
  do 4 (apply only_adds_bind; [adds|intros]). adds.
Qed.


Lemma processFeedMessage_effect fails own r ents p :
  match processFeedMessage fails own r ents p with
  | (Err _, p') => store p' = store p
  | (Ok _, p') => grows own (store p) (store p')
  end.
Proof.
  unfold processFeedMessage.
  destruct (sourceMapping p !! ep_source r) as [sid|]; [|reflexivity].
  destruct (getOrCreateVersion p) as [[vid|e] p1] eqn:Hg.
  2:{ unfold getOrCreateVersion in Hg.
      destruct (versionMapping p); [discriminate|].
      destruct (db_active_version p); inversion Hg; reflexivity. }
  assert (Hs : store p1 = store p).
  { unfold getOrCreateVersion in Hg.
    destruct (versionMapping p); [inversion Hg; reflexivity|].
    destruct (db_active_version p); inversion Hg; reflexivity. }
  set (body := (do! rt_probe in do! rt_probe in do! rt_probe in
               let! feedMessageID :=
                 rt_stmt "failed to insert feed message"
                   (insert_row FeedMessages 0 ""%string own) in
               if String.eqb (ep_feed_type r) "vehicle_positions" then
                 processVehiclePositionsBulk own feedMessageID ents
               else if String.eqb (ep_feed_type r) "trip_updates" then
                 processTripUpdatesBulk own feedMessageID ents
               else if String.eqb (ep_feed_type r) "service_alerts" then
                 processServiceAlertsBulk own feedMessageID ents
               else tx_fail "unknown feed type")).
  assert (Hb : only_adds own body).
  { unfold body.
    do 3 (apply only_adds_bind; [apply only_adds_probe|intros]).
    apply only_adds_bind; [apply only_adds_stmt; intros; apply grows_insert_row|intros fm].
    destruct (String.eqb _ "vehicle_positions"); [apply only_adds_vehicle|].
    destruct (String.eqb _ "trip_updates"); [apply only_adds_trip|].
    destruct (String.eqb _ "service_alerts"); [apply only_adds_alerts|].
    apply only_adds_fail. }
  fold body. unfold rt_with_tx.
  destruct (fails O); simpl; [exact Hs|].
  destruct (body fails 1%nat (mkTx (store p1) false)) as [[[a n] t]|e] eqn:E; simpl;
    [|exact Hs].
  destruct (fails n || tx_aborted t); simpl; [exact Hs|].
  rewrite <- Hs. exact (Hb _ _ _ _ _ _ E).
Qed.

Lemma handleResult_effect fails own r p :
  let '(o, p1) := handleResult fails own r p in
  grows own (store p) (store p1) /\ (forall e, o = Failed e -> store p1 = store p).
Proof.
  unfold handleResult.
  destruct (fetch_error r); [split; [apply grows_refl|discriminate]|].
  destruct (message r) as [ents|]; [|split; [apply grows_refl|discriminate]].
  pose proof (processFeedMessage_effect fails own r ents p) as He.
  destruct (processFeedMessage fails own r ents p) as [[u|e] p'].
  - split; [exact He|discriminate].
  - split; [rewrite He; apply grows_refl|intros; exact He].
Qed.

Lemma processFeedResults_grows fails_for k results p :
  let '(os, p') := processFeedResults fails_for k results p in
  length os = length results /\
  exists extra, rows (store p') = rows (store p) ++ extra /\
                Forall (fun r => (k <= owner r)%nat) extra.
Proof.
  revert k p. induction results as [|r rs IH]; intros k p; simpl.
  - split; [reflexivity|]. exists []. rewrite app_nil_r. split; [reflexivity|constructor].
  - pose proof (handleResult_effect (fails_for k) k r p) as Hstep.
    destruct (handleResult (fails_for k) k r p) as [o p1] eqn:Ho.
    destruct Hstep as ((e1 & H1 & F1) & _).
    specialize (IH (S k) p1).
    destruct (processFeedResults fails_for (S k) rs p1) as [os p2].
    destruct IH as [Hlen (e2 & H2 & F2)].
    split; [simpl; f_equal; exact Hlen|].
    exists (e1 ++ e2). rewrite H2, H1, app_assoc. split; [reflexivity|].
    apply Forall_app. split.
    + eapply Forall_impl; [exact F1|]. intros x Hx. cbv beta in Hx |- *. lia.
    + eapply Forall_impl; [exact F2|]. intros x Hx. cbv beta in Hx |- *. lia.
Qed.

End Seq.

End RealtimeFacts.

Module RealtimeClaims.
Import Realtime RealtimeFacts.

Section Seq.
Context {SEQ : Sequences}.

(** C3: a feed message whose processing fails at any step (header
    insert, bulk copies, requeries, child inserts, commit, or any
    earlier check) leaves the store exactly as it was; over a whole
    drain, every result gets an outcome (the loop goes on), and no row
    written on behalf of a failed result remains in the final store. *)
Theorem processFeedResults_failed_message_rolled_back
    (fails_for : nat -> nat -> bool) (k : nat) (results : list FeedResult)
    (p : processor) :
  Forall (fun r => (owner r < k)%nat) (rows (store p)) ->
  (forall fails own r ents q e q',
     processFeedMessage fails own r ents q = (Err e, q') -> store q' = store q) /\
  let '(os, p') := processFeedResults fails_for k results p in
  length os = length results /\
  (forall i e, nth_error os i = Some (Failed e) ->
     Forall (fun r => owner r <> (k + i)%nat) (rows (store p'))).
Proof.
  intros Hfresh. split.
  { intros fails own r ents q e q' H.
    pose proof (processFeedMessage_effect fails own r ents q) as He.
    rewrite H in He. exact He. }
  revert k p Hfresh. induction results as [|r rs IH]; intros k p Hfresh; simpl.
  - split; [reflexivity|]. intros i e H. destruct i; discriminate H.
  - pose proof (handleResult_effect (fails_for k) k r p) as Hstep.
    destruct (handleResult (fails_for k) k r p) as [o p1] eqn:Ho.
    destruct Hstep as ((e1 & H1 & F1) & Hfail).
    assert (Hfresh1 : Forall (fun x => (owner x < S k)%nat) (rows (store p1))).
    { rewrite H1. apply Forall_app. split.
      - eapply Forall_impl; [exact Hfresh|]. intros x Hx. cbv beta in *. lia.
      - eapply Forall_impl; [exact F1|]. intros x Hx. cbv beta in *. lia. }
    pose proof (processFeedResults_grows fails_for (S k) rs p1) as Hg.
    specialize (IH (S k) p1 Hfresh1).
    destruct (processFeedResults fails_for (S k) rs p1) as [os p2].
    destruct IH as [Hlen IH]. destruct Hg as [_ (e2 & H2 & F2)].
    split; [simpl; f_equal; exact Hlen|].
    intros [|i] e Hi; simpl in Hi.
    + inversion Hi; subst o. rewrite (Hfail e eq_refl) in H2.
      rewrite H2. apply Forall_app. split.
      * eapply Forall_impl; [exact Hfresh|]. intros x Hx. cbv beta in *. lia.
      * eapply Forall_impl; [exact F2|]. intros x Hx. cbv beta in *. lia.
    + replace (k + S i)%nat with (S k + i)%nat by lia. exact (IH i e Hi).
Qed.

End Seq.

Import SampleSequences.

(** The theorem at two vehicle-position results on an empty store; the
    first fails at its bulk copy (statement 8), the second commits. *)
Lemma processFeedResults_failed_message_rolled_back_witness :
  Forall (fun r => (owner r < 0)%nat) (rows (store sample_proc)) /\
  fst (processFeedResults (fun k n => Nat.eqb k 0 && Nat.eqb n 8) 0
         sample_results sample_proc) = [Failed "failed to execute copy"; Processed] /\
  Forall (fun r => owner r <> 0%nat)
    (rows (store (snd (processFeedResults (fun k n => Nat.eqb k 0 && Nat.eqb n 8) 0
                         sample_results sample_proc)))).
Proof.
  assert (H0 : Forall (fun r => (owner r < 0)%nat) (rows (store sample_proc)))
    by constructor.
  split; [exact H0|]. split; [vm_compute; reflexivity|].
  destruct (processFeedResults_failed_message_rolled_back
              (fun k n => Nat.eqb k 0 && Nat.eqb n 8) 0 sample_results sample_proc H0)
    as [_ Hd].
  destruct (processFeedResults (fun k n => Nat.eqb k 0 && Nat.eqb n 8) 0
              sample_results sample_proc) as [os p'] eqn:E.
  destruct Hd as [_ Hd]. simpl.
  apply (Hd 0%nat "failed to execute copy"%string).
  vm_compute in E. inversion E. reflexivity.
Defined.

End RealtimeClaims.

Module StaticClaims.
Import Static.

Section StopCoordinates.
Variable float64 : Type.
Variable float_zero : float64.
Variable float_ne : float64 -> float64 -> bool.
Variable ParseFloat : string -> option float64.

Lemma stored_getFloat_null (Hz : float_ne float_zero float_zero = false)
    (record : csv_record) (headerMap : header_map) (field : string) :
  let x := getFloat float64 ParseFloat record headerMap field float_zero in
  (stored float64 (mkNullFloat64 float64 x (float_ne x float_zero)) = None <->
   (getString record headerMap field = ""%string \/
    ParseFloat (getString record headerMap field) = None \/
    exists v, ParseFloat (getString record headerMap field) = Some v /\
              float_ne v float_zero = false)) /\
  (forall v, stored float64 (mkNullFloat64 float64 x (float_ne x float_zero)) = Some v ->
             float_ne v float_zero = true).
Proof.
  unfold getFloat, stored; simpl.
  destruct (String.eqb_spec (getString record headerMap field) "") as [He|Hne].
  - rewrite Hz. split; [split; [left; exact He | reflexivity] | discriminate].
  - destruct (ParseFloat (getString record headerMap field)) as [v|] eqn:Hp.
    + destruct (float_ne v float_zero) eqn:Hv.
      * split; [split; [discriminate|] | intros w Hw; inversion Hw; subst; exact Hv].
        intros [H|[H|(w & Hw & Hw')]]; [contradiction | discriminate |].
        inversion Hw; subst. congruence.
      * split; [split; [intros _; right; right; eauto | reflexivity] | discriminate].
    + rewrite Hz. split; [split; [intros _; right; left; reflexivity | reflexivity]
                         | discriminate].
Qed.
End StopCoordinates.

(** C10: with Go's [0 != 0] false, the latitude (resp. longitude) that
    [OnStop] inserts is NULL exactly when the CSV field is missing or
    blank, fails to parse, or parses to zero; a non-NULL stored
    coordinate is never zero. *)
Theorem OnStop_zero_coordinate_is_null (float64 : Type) (float_zero : float64)
    (float_ne : float64 -> float64 -> bool) (ParseFloat : string -> option float64)
    (Hz : float_ne float_zero float_zero = false)
    (record : csv_record) (headerMap : header_map) (sourceID : Z) (versionID : nat) :
  let row := OnStop float64 float_zero float_ne sourceID versionID
               (parseStop float64 float_zero ParseFloat record headerMap) in
  (stored float64 (col_stop_lat float64 row) = None <->
   (getString record headerMap "stop_lat" = ""%string \/
    ParseFloat (getString record headerMap "stop_lat") = None \/
    exists v, ParseFloat (getString record headerMap "stop_lat") = Some v /\
              float_ne v float_zero = false)) /\
  (forall v, stored float64 (col_stop_lat float64 row) = Some v -> float_ne v float_zero = true) /\
  (stored float64 (col_stop_lon float64 row) = None <->
   (getString record headerMap "stop_lon" = ""%string \/
    ParseFloat (getString record headerMap "stop_lon") = None \/
    exists v, ParseFloat (getString record headerMap "stop_lon") = Some v /\
              float_ne v float_zero = false)) /\
  (forall v, stored float64 (col_stop_lon float64 row) = Some v -> float_ne v float_zero = true).
Proof.
  intros row.
  destruct (stored_getFloat_null float64 float_zero float_ne ParseFloat Hz
              record headerMap "stop_lat") as [Hlat1 Hlat2].
  destruct (stored_getFloat_null float64 float_zero float_ne ParseFloat Hz
              record headerMap "stop_lon") as [Hlon1 Hlon2].
  split; [exact Hlat1|]. split; [exact Hlat2|]. split; [exact Hlon1|exact Hlon2].
Qed.

(** Witness: integer coordinates stand in for [float64]; a stop at
    latitude "0" and one with no [stop_lat] column are both stored with
    a NULL latitude. *)
Lemma OnStop_zero_coordinate_is_null_witness :
  let ne := fun a b : Z => negb (Z.eqb a b) in
  let hm : header_map := <["stop_id" := 0%nat]> (<["stop_lat" := 1%nat]>
                           (<["stop_lon" := 2%nat]> ∅)) in
  ne 0 0 = false /\
  stored Z (col_stop_lat Z (OnStop Z 0 ne 1 7 (parseStop Z 0 Go.Atoi ["s1"; "0"; "144"] hm)))
    = None /\
  stored Z (col_stop_lat Z (OnStop Z 0 ne 1 7 (parseStop Z 0 Go.Atoi ["s1"] hm))) = None.
Proof.
  intros ne hm.
  assert (Hz : ne 0 0 = false) by reflexivity.
  split; [exact Hz|].
  destruct (OnStop_zero_coordinate_is_null Z 0 ne Go.Atoi Hz ["s1"; "0"; "144"] hm 1 7)
    as [[_ H1] _].
  destruct (OnStop_zero_coordinate_is_null Z 0 ne Go.Atoi Hz ["s1"] hm 1 7)
    as [[_ H2] _].
  split; [apply H1 | apply H2].
  - right; right. exists 0. split; [vm_compute; reflexivity | reflexivity].
  - left. vm_compute. reflexivity.
Defined.

End StaticClaims.

Module ArchiveClaims.
Import Static.

Lemma substring_all (s : string) : String.substring 0 (String.length s) s = s.
Proof. induction s as [|c s IH]; simpl; [reflexivity|]. rewrite IH. reflexivity. Qed.

Lemma substring_split (k : nat) (s : string) :
  (k <= String.length s)%nat ->
  (String.substring 0 k s ++ String.substring k (String.length s - k) s)%string = s.
Proof.
  revert s. induction k as [|k IH]; intros s Hk; simpl.
  - rewrite Nat.sub_0_r, substring_all. destruct s; reflexivity.
  - destruct s as [|c s]; simpl in *; [lia|].
    exact (f_equal (String c) (IH s ltac:(lia))).
Qed.

(** A matching entry name is its digit group followed by
    [/google_transit.zip]. *)
Lemma nested_zip_match_shape (name d : string) :
  nested_zip_match name = Some d ->
  name = (d ++ "/google_transit.zip")%string /\ exists v, Go.parse_digits d = Some v.
Proof.
  unfold nested_zip_match, Go.HasSuffix.
  set (suf := "/google_transit.zip"%string).
  set (n := String.length name). set (m := String.length suf).
  destruct (Nat.leb m n && String.eqb (String.substring (n - m) m name) suf && Nat.ltb m n)
    eqn:Hc; [|discriminate].
  apply andb_prop in Hc as [Hc Hlt]. apply andb_prop in Hc as [Hle Heq].
  apply Nat.leb_le in Hle. apply String.eqb_eq in Heq.
  destruct (Go.parse_digits _) as [v|] eqn:Hd; [|discriminate].
  intros H. inversion H; subst d. split; [|eauto].
  pose proof (substring_split (n - m) name ltac:(unfold n; lia)) as E.
  replace (String.length name - (n - m))%nat with m in E by (unfold n; lia).
  rewrite Heq in E. exact (eq_sym E).
Qed.

Lemma substring_prefix (d t : string) :
  String.substring 0 (String.length d) (d ++ t) = d.
Proof. induction d as [|c d IH]; simpl; [destruct t; reflexivity|]. f_equal. exact IH. Qed.

Lemma string_length_app (d t : string) :
  String.length (d ++ t) = (String.length d + String.length t)%nat.
Proof. induction d as [|c d IH]; simpl; [reflexivity|]. f_equal. exact IH. Qed.

Lemma substring_after (d t : string) (n : nat) :
  String.substring (String.length d) n (d ++ t) = String.substring 0 n t.
Proof. induction d as [|c d IH]; cbn; [reflexivity|]. exact IH. Qed.

Lemma digits_value_str_all (a v : Z) (d : string) :
  Go.digits_value a d = Some v -> GoFmt.str_all Go.isDigit d = true.
Proof.
  revert a; induction d as [|c d IH]; intros a; cbn; [reflexivity|].
  destruct (Go.isDigit c); [apply IH|discriminate].
Qed.

Lemma str_all_digits_value (a : Z) (d : string) :
  GoFmt.str_all Go.isDigit d = true -> exists v, Go.digits_value a d = Some v.
Proof.
  revert a; induction d as [|c d IH]; intros a; cbn; [eauto|].
  destruct (Go.isDigit c); [apply IH|discriminate].
Qed.

(** The pattern [^(\d+)/google_transit\.zip$]: a name matches with
    group [d] exactly when it is [d], one or more ASCII digits,
    followed by [/google_transit.zip]. *)
Lemma nested_zip_match_iff (name d : string) :
  nested_zip_match name = Some d <->
  name = (d ++ "/google_transit.zip")%string /\ d <> ""%string /\
  GoFmt.str_all Go.isDigit d = true.
Proof.
  split.
  - intros H. destruct (nested_zip_match_shape _ _ H) as [Hn [v Hv]].
    split; [exact Hn|]. split.
    + intros ->. discriminate Hv.
    + destruct d as [|c d]; [discriminate Hv|]. exact (digits_value_str_all _ _ _ Hv).
  - intros (-> & Hne & Hall). unfold nested_zip_match, Go.HasSuffix.
    rewrite string_length_app.
    replace (String.length d + String.length "/google_transit.zip" -
             String.length "/google_transit.zip")%nat with (String.length d) by lia.
    rewrite substring_after, substring_all, String.eqb_refl, substring_prefix.
    assert (Hlt : (0 < String.length d)%nat) by (destruct d; [congruence|cbn; lia]).
    replace (Nat.leb _ _) with true by (symmetry; apply Nat.leb_le; lia).
    replace (Nat.ltb _ _) with true by (symmetry; apply Nat.ltb_lt; lia).
    cbn [andb].
    destruct (str_all_digits_value 0 d Hall) as [v Hv].
    destruct d as [|c d]; [congruence|]. cbn [Go.parse_digits]. rewrite Hv. reflexivity.
Qed.

Lemma find_some_iff {X} (p : X -> bool) (l : list X) (x : X) :
  List.find p l = Some x <->
  exists pre post, l = pre ++ x :: post /\ p x = true /\ Forall (fun y => p y = false) pre.
Proof.
  split.
  - induction l as [|a l IH]; cbn; [discriminate|].
    destruct (p a) eqn:Ha.
    + intros [= <-]. exists [], l. split; [reflexivity|]. split; [exact Ha|constructor].
    + intros H. destruct (IH H) as (pre & post & -> & Hx & Hpre).
      exists (a :: pre), post. split; [reflexivity|]. split; [exact Hx|constructor; assumption].
  - intros (pre & post & -> & Hx & Hpre). induction Hpre as [|a pre Ha _ IH]; cbn.
    + rewrite Hx. reflexivity.
    + rewrite Ha. exact IH.
Qed.

Lemma find_none_iff {X} (p : X -> bool) (l : list X) :
  List.find p l = None <-> Forall (fun y => p y = false) l.
Proof.
  split.
  - induction l as [|a l IH]; cbn; [constructor|].
    destruct (p a) eqn:Ha; [discriminate|]. intros H. constructor; [exact Ha|exact (IH H)].
  - induction 1 as [|a l Ha _ IH]; cbn; [reflexivity|]. rewrite Ha. exact IH.
Qed.

Lemma nested_sources_app (l1 l2 : list zipEntry) :
  nested_sources (l1 ++ l2) = nested_sources l1 ++ nested_sources l2.
Proof. unfold nested_sources. apply flat_map_app. Qed.

Lemma nested_sources_in (files : list zipEntry) (id : Z) (e : zipEntry) :
  In (id, e) (nested_sources files) <->
  In e files /\ entry_is_dir e = false /\
  exists d, entry_name e = (d ++ "/google_transit.zip")%string /\ d <> ""%string /\
    GoFmt.str_all Go.isDigit d = true /\ Go.Atoi d = Some id.
Proof.
  unfold nested_sources. rewrite in_flat_map. split.
  - intros (f & Hin & Hx).
    destruct (entry_is_dir f) eqn:Hdir; [contradiction|].
    destruct (nested_zip_match (entry_name f)) as [d|] eqn:Hm; [|contradiction].
    destruct (Go.Atoi d) as [v|] eqn:Ha; [|contradiction].
    destruct Hx as [Hx|[]]. inversion Hx; subst.
    split; [exact Hin|]. split; [exact Hdir|].
    apply nested_zip_match_iff in Hm as (Hn & Hne & Hall).
    exists d. auto.
  - intros (Hin & Hdir & d & Hn & Hne & Hall & Ha). exists e. split; [exact Hin|].
    rewrite Hdir. rewrite (proj2 (nested_zip_match_iff _ d) (conj Hn (conj Hne Hall))), Ha.
    left. reflexivity.
Qed.

Lemma nested_sources_cons (f : zipEntry) (fs : list zipEntry) :
  nested_sources (f :: fs) =
  (if entry_is_dir f then [] else
   match nested_zip_match (entry_name f) with
   | None => []
   | Some d => match Go.Atoi d with Some id => [(id, f)] | None => [] end
   end) ++ nested_sources fs.
Proof. reflexivity. Qed.

Lemma nested_sources_single (f : zipEntry) : (length (nested_sources [f]) <= 1)%nat.
Proof.
  unfold nested_sources. cbn. rewrite app_nil_r.
  destruct (entry_is_dir f); [cbn; lia|].
  destruct (nested_zip_match (entry_name f)) as [d|]; [|cbn; lia].
  destruct (Go.Atoi d); cbn; lia.
Qed.

(** The loop imports [nested_sources] in order, each into [versionID],
    until the first error. *)
Lemma import_sources_outcome (versionID : nat) (import_err : Z -> zipEntry -> option string)
    (files : list zipEntry) :
  let '(events, r) := import_sources versionID import_err files in
  (Forall (fun x => import_err (fst x) (snd x) = None) (nested_sources files) /\
   events = map (fun x => Imported versionID (fst x) (snd x)) (nested_sources files) /\
   r = Ok tt) \/
  (exists pre x post e, nested_sources files = pre ++ x :: post /\
     Forall (fun x => import_err (fst x) (snd x) = None) pre /\
     import_err (fst x) (snd x) = Some e /\
     events = map (fun x => Imported versionID (fst x) (snd x)) pre /\ r = Err e).
Proof.
  induction files as [|f fs IH]; cbn [import_sources].
  - left. split; [constructor|]. split; reflexivity.
  - rewrite nested_sources_cons.
    destruct (entry_is_dir f); cbn [app]; [exact IH|].
    destruct (nested_zip_match (entry_name f)) as [d|]; cbn [app]; [|exact IH].
    destruct (Go.Atoi d) as [id|]; cbn [app]; [|exact IH].
    destruct (import_err id f) as [e|] eqn:Hie.
    + right. exists [], (id, f), (nested_sources fs), e.
      split; [reflexivity|]. split; [constructor|]. split; [exact Hie|]. split; reflexivity.
    + destruct (import_sources versionID import_err fs) as [evs r].
      destruct IH as [(Hall & -> & ->)|(pre & x & post & e & Hns & Hpre & Hx & -> & ->)].
      * left. split; [constructor; assumption|]. split; reflexivity.
      * right. exists ((id, f) :: pre), x, post, e. cbn [app].
        split; [rewrite Hns; reflexivity|]. split; [constructor; assumption|].
        split; [exact Hx|]. split; reflexivity.
Qed.

(** C4 (counterexample): in a master archive whose only nested entry is
    [1/google_transit.zip], [Parser.ParseZip] parses the outer archive
    as flat and never opens the inner one, although the entry is a
    digit-prefixed inner archive (source 1). *)
Lemma ParseZip_skips_source_1 :
  let files := [mkEntry "1/google_transit.zip" false] in
  ParseZip_target files = ParseOuterFlat /\
  nested_sources files = [(1, mkEntry "1/google_transit.zip" false)].
Proof. vm_compute. split; reflexivity. Qed.

(** C4 (amended): [Parser.ParseZip] parses at most one nested archive:
    the first entry whose name ends in [/google_transit.zip] and starts
    with [2/]; without one it parses the outer archive as flat; it
    passes no source id.  The walk over the [<digits>/google_transit.zip]
    entries is in the scheduler's [checkAndUpdate]: the sources it
    visits are exactly the non-directory entries named [d] ++
    [/google_transit.zip] with [d] one or more ASCII digits that
    [strconv.Atoi] accepts (a digit prefix that overflows [int] is
    skipped), in archive order, each with source id = [Atoi d]; it
    imports them one after the other into the one version created
    before the loop, and either all imports succeed or the loop stops
    at the first failing one (extraction or import) with its error. *)
Theorem ParseZip_fixed_folder_scheduler_all_sources (files : list zipEntry) (versionID : nat)
    (import_err : Z -> zipEntry -> option string) :
  (forall f, ParseZip_target files = ParseNested f <->
     exists pre post, files = pre ++ f :: post /\
       Go.HasSuffix (entry_name f) "/google_transit.zip" && Go.HasPrefix (entry_name f) "2/"
       = true /\
       Forall (fun g => Go.HasSuffix (entry_name g) "/google_transit.zip"
                        && Go.HasPrefix (entry_name g) "2/" = false) pre) /\
  (ParseZip_target files = ParseOuterFlat <->
     Forall (fun g => Go.HasSuffix (entry_name g) "/google_transit.zip"
                      && Go.HasPrefix (entry_name g) "2/" = false) files) /\
  (forall id e, In (id, e) (nested_sources files) <->
     In e files /\ entry_is_dir e = false /\
     exists d, entry_name e = (d ++ "/google_transit.zip")%string /\ d <> ""%string /\
       GoFmt.str_all Go.isDigit d = true /\ Go.Atoi d = Some id) /\
  (forall l1 l2, nested_sources (l1 ++ l2) = nested_sources l1 ++ nested_sources l2) /\
  (forall f, (length (nested_sources [f]) <= 1)%nat) /\
  let '(events, r) := import_sources versionID import_err files in
  (Forall (fun x => import_err (fst x) (snd x) = None) (nested_sources files) /\
   events = map (fun x => Imported versionID (fst x) (snd x)) (nested_sources files) /\
   r = Ok tt) \/
  (exists pre x post e, nested_sources files = pre ++ x :: post /\
     Forall (fun x => import_err (fst x) (snd x) = None) pre /\
     import_err (fst x) (snd x) = Some e /\
     events = map (fun x => Imported versionID (fst x) (snd x)) pre /\ r = Err e).
Proof.
  split; [|split; [|split; [|split; [|split]]]].
  - intros f.
    pose proof (find_some_iff (fun g => Go.HasSuffix (entry_name g) "/google_transit.zip"
                                        && Go.HasPrefix (entry_name g) "2/") files f) as Hf.
    cbv beta in Hf. rewrite <- Hf. unfold ParseZip_target.
    destruct (List.find _ files); split; congruence.
  - pose proof (find_none_iff (fun g => Go.HasSuffix (entry_name g) "/google_transit.zip"
                                        && Go.HasPrefix (entry_name g) "2/") files) as Hf.
    cbv beta in Hf. rewrite <- Hf. unfold ParseZip_target.
    destruct (List.find _ files); split; congruence.
  - apply nested_sources_in.
  - apply nested_sources_app.
  - apply nested_sources_single.
  - apply import_sources_outcome.
Qed.

End ArchiveClaims.

Module TimeClaims.
Import GTFSTime.

(** The static path accepts no clock with an hour of 24 or more. *)
Lemma time_Parse_clock_hour_lt_24 (t : string) (h m sec : Z) :
  time_Parse_clock t = Some (h, m, sec) -> h < 24.
Proof.
  unfold time_Parse_clock.
  destruct (getnum t false) as [[hour r1]|]; [|discriminate].
  destruct (expect _ r1) as [r2|]; [|discriminate].
  destruct (getnum r2 true) as [[min r3]|]; [|discriminate].
  destruct (expect _ r3) as [r4|]; [|discriminate].
  destruct (getnum r4 true) as [[s5 r5]|]; [|discriminate].
  destruct (negb _); [discriminate|].
  destruct (24 <=? hour) eqn:Hh; [discriminate|]. simpl.
  destruct (_ || _); [discriminate|].
  intros H; inversion H; subst. apply Z.leb_gt in Hh. exact Hh.
Qed.

(** C6 (code_bug): ["25:30:00"] becomes 91800 seconds on the realtime
    path, but the static stop-times path cannot parse any hour of 24 or
    more ([time.Parse] rejects it), so its [arrival_time] /
    [departure_time] is stored as NULL instead. *)
Theorem parseGTFSTime_static_rejects_hour_25 :
  parseGTFSTime_rt "25:30:00" = Ok (Some 91800) /\
  (exists e, parseGTFSTime_static "25:30:00" = Err e) /\
  OnStopTime_time "25:30:00" = None /\
  (forall t h m sec, OnStopTime_time t = Some (h, m, sec) -> h < 24).
Proof.
  split; [vm_compute; reflexivity|].
  split; [eexists; vm_compute; reflexivity|].
  split; [vm_compute; reflexivity|].
  intros t h m sec. unfold OnStopTime_time, parseGTFSTime_static.
  destruct (String.eqb t ""); [discriminate|].
  destruct (negb _); [discriminate|].
  destruct (time_Parse_clock t) as [[[h' m'] s']|] eqn:Ht; [|discriminate].
  intros H; inversion H; subst. exact (time_Parse_clock_hour_lt_24 _ _ _ _ Ht).
Qed.

End TimeClaims.

Module ConsumerClaims.
Import Consumer.

(** C5 (counterexample): [fetchFeed] takes a rate-limiter token before
    it looks at the cache.  A fresh cache entry (age 10 s, expiration
    30 s) is not served when no token is buffered and none is refilled
    within 5 s: the call fails with a rate-limit error; and with one
    token buffered, serving the fresh cache still spends it. *)
Lemma fetchFeed_fresh_cache_spends_token :
  fetchFeed "metro_trains" (mkEnv false false false 0 DoError)
    (mkConsumer 0 fresh_cache 110 30)
  = (mkFeedResult None (Some "rate limit exceeded"), no_effects,
     mkConsumer 0 fresh_cache 110 30) /\
  fetchFeed "metro_trains" (mkEnv false false false 0 DoError)
    (mkConsumer 1 fresh_cache 110 30)
  = (mkFeedResult (Some "msg_1") None, no_effects,
     mkConsumer 0 fresh_cache 110 30).
Proof. split; vm_compute; reflexivity. Qed.

(** C5 (amended): for an endpoint whose cache entry is younger than
    [CacheExpiration], [fetchFeed] still starts with the rate-limit
    [select]: when the token case is taken (a token is buffered or
    refilled within 5 s, and neither [ctx] nor the stop channel is
    closed, it is the only ready case), the cached message is returned
    with no HTTP request and one token spent; when no token is buffered
    and none arrives within 5 s (and neither [ctx] nor the stop channel
    is closed), the call fails with "rate limit exceeded" and the fresh
    cache is not served. *)
Theorem fetchFeed_fresh_cache_takes_token (name : string) (w : env) (c : consumer)
    (e : cacheEntry) :
  cache c !! name = Some e -> clock c - ce_timestamp e < CacheExpiration c ->
  (chosen c w = TokenCase ->
     fetchFeed name w c =
       (mkFeedResult (Some (ce_feedMessage e)) None, no_effects,
        mkConsumer (tokens c - 1) (cache c) (clock c) (CacheExpiration c))) /\
  (((0 < tokens c)%nat \/ refill_within_5s w = true) -> ctx_done w = false ->
     stopped w = false -> chosen c w = TokenCase) /\
  (tokens c = 0%nat -> refill_within_5s w = false -> ctx_done w = false ->
     stopped w = false ->
     fetchFeed name w c = (mkFeedResult None (Some "rate limit exceeded"), no_effects, c)).
Proof.
  intros He Hfresh. split; [|split].
  - intros Hch. unfold fetchFeed. rewrite Hch. cbn [tokens cache clock CacheExpiration].
    rewrite He. apply Z.ltb_lt in Hfresh. rewrite Hfresh. reflexivity.
  - intros Hready Hc Hs. unfold chosen, ready_cases. rewrite Hc, Hs.
    assert (Ht : Nat.ltb 0 (tokens c) || refill_within_5s w = true).
    { destruct Hready as [Hp|Hr]; [apply Nat.ltb_lt in Hp; rewrite Hp; reflexivity|].
      rewrite Hr, orb_true_r. reflexivity. }
    assert (Ha : Nat.eqb (tokens c) 0 && negb (refill_within_5s w) = false).
    { destruct Hready as [Hp|Hr]; [|rewrite Hr, andb_false_r; reflexivity].
      replace (Nat.eqb (tokens c) 0) with false by (symmetry; apply Nat.eqb_neq; lia).
      reflexivity. }
    rewrite Ht, Ha. cbn [app length]. rewrite Nat.mod_1_r. reflexivity.
  - intros H0 Hr Hc Hs. unfold fetchFeed.
    replace (chosen c w) with AfterCase; [reflexivity|].
    unfold chosen, ready_cases. rewrite H0, Hr, Hc, Hs. reflexivity.
Qed.

(** The theorem at the endpoint [metro_trains] with a cache entry 10 s
    old (expiration 30 s) and one token buffered. *)
Lemma fetchFeed_fresh_cache_takes_token_witness :
  fresh_cache !! "metro_trains" = Some (mkCacheEntry "msg_1" 100 "") /\
  fetchFeed "metro_trains" (mkEnv false false false 0 DoError) (mkConsumer 1 fresh_cache 110 30)
  = (mkFeedResult (Some "msg_1") None, no_effects, mkConsumer 0 fresh_cache 110 30).
Proof.
  assert (He : cache (mkConsumer 1 fresh_cache 110 30) !! "metro_trains"
               = Some (mkCacheEntry "msg_1" 100 "")) by reflexivity.
  assert (Hf : clock (mkConsumer 1 fresh_cache 110 30) - ce_timestamp (mkCacheEntry "msg_1" 100 "")
               < CacheExpiration (mkConsumer 1 fresh_cache 110 30)) by (cbn; lia).
  split; [exact He|].
  destruct (fetchFeed_fresh_cache_takes_token "metro_trains" (mkEnv false false false 0 DoError)
              (mkConsumer 1 fresh_cache 110 30) _ He Hf) as (H1 & H2 & _).
  exact (H1 (H2 (or_introl (Nat.lt_0_1)) eq_refl eq_refl)).
Defined.

(** The order [fetchFeed] follows: it first waits for a token: if none is
    buffered and none arrives within 5 s (and neither [ctx] nor the
    stop channel is closed) it fails with "rate limit exceeded" without
    reading the cache; every path that passes the wait takes one token;
    after the token, a cache entry younger than [CacheExpiration] is
    returned with no HTTP request and no other change; an HTTP request
    is only sent after a token was taken, and a call that does not take
    a token changes nothing. *)
Theorem fetchFeed_token_then_cache (name : string) (w : env) (c : consumer)
    (r : FeedResult) (eff : effects) (c' : consumer) :
  fetchFeed name w c = (r, eff, c') ->
  (tokens c = 0%nat -> refill_within_5s w = false -> ctx_done w = false ->
     stopped w = false ->
     r = mkFeedResult None (Some "rate limit exceeded") /\ eff = no_effects /\ c' = c) /\
  (chosen c w <> TokenCase -> Message r = None /\ eff = no_effects /\ c' = c) /\
  (chosen c w = TokenCase -> tokens c' = (tokens c - 1)%nat) /\
  (http_sent eff = true -> chosen c w = TokenCase) /\
  (forall e, chosen c w = TokenCase -> cache c !! name = Some e ->
     clock c - ce_timestamp e < CacheExpiration c ->
     r = mkFeedResult (Some (ce_feedMessage e)) None /\ eff = no_effects /\
     c' = mkConsumer (tokens c - 1) (cache c) (clock c) (CacheExpiration c)).
Proof.
  unfold fetchFeed. intros H.
  assert (Hafter : tokens c = 0%nat -> refill_within_5s w = false -> ctx_done w = false ->
                   stopped w = false -> chosen c w = AfterCase).
  { intros H0 Hr Hc Hs. unfold chosen, ready_cases. rewrite H0, Hr, Hc, Hs. reflexivity. }
  destruct (chosen c w) eqn:Hch.
  - cbn [tokens cache clock CacheExpiration] in H.
    split; [intros H0 Hr Hc Hs; discriminate (Hafter H0 Hr Hc Hs)|].
    split; [intros Hn; congruence|].
    assert (Htok : forall o, match http w with
        | DoError => (mkFeedResult None (Some "failed to fetch feed"), mkEffects true o,
                      mkConsumer (tokens c - 1) (cache c) (clock c) (CacheExpiration c))
        | Response status etag body =>
          match (if status =? 304 then cache c !! name else None) with
          | Some e => (mkFeedResult (Some (ce_feedMessage e)) None, mkEffects true o,
                       mkConsumer (tokens c - 1) (cache c) (clock c) (CacheExpiration c))
          | None =>
            if negb (status =? 200) then (mkFeedResult None (Some "HTTP error"), mkEffects true o,
              mkConsumer (tokens c - 1) (cache c) (clock c) (CacheExpiration c)) else
            match body with
            | None => (mkFeedResult None (Some "failed to unmarshal protobuf"), mkEffects true o,
                       mkConsumer (tokens c - 1) (cache c) (clock c) (CacheExpiration c))
            | Some m => (mkFeedResult (Some m) None, mkEffects true o,
                mkConsumer (tokens c - 1) (<[name := mkCacheEntry m (clock c) etag]> (cache c))
                  (clock c) (CacheExpiration c))
            end
          end
        end = (r, eff, c') -> tokens c' = (tokens c - 1)%nat).
    { intros o Ho. destruct (http w) as [|st et b]; [inversion Ho; reflexivity|].
      destruct (st =? 304); [destruct (cache c !! name); [inversion Ho; reflexivity|]|].
      - destruct (negb (st =? 200)); [inversion Ho; reflexivity|].
        destruct b; inversion Ho; reflexivity.
      - destruct (negb (st =? 200)); [inversion Ho; reflexivity|].
        destruct b; inversion Ho; reflexivity. }
    destruct (cache c !! name) as [e|] eqn:Hl.
    + destruct (clock c - ce_timestamp e <? CacheExpiration c) eqn:Hf.
      * inversion H; subst.
        split; [intros; reflexivity|]. split; [discriminate|].
        intros e' _ He' _. inversion He'; subst. auto.
      * apply Z.ltb_ge in Hf.
        split; [intros _; exact (Htok _ H)|]. split; [intros _; reflexivity|].
        intros e' _ He' Hlt. inversion He'; subst. lia.
    + split; [intros _; exact (Htok _ H)|]. split; [intros _; reflexivity|].
      intros e' _ He'. discriminate.
  - inversion H; subst.
    split; [intros H0 Hr Hc Hs; discriminate (Hafter H0 Hr Hc Hs)|].
    split; [auto|]. split; [discriminate|]. split; [discriminate|]. intros; discriminate.
  - inversion H; subst.
    split; [intros H0 Hr Hc Hs; discriminate (Hafter H0 Hr Hc Hs)|].
    split; [auto|]. split; [discriminate|]. split; [discriminate|]. intros; discriminate.
  - inversion H; subst.
    split; [auto|]. split; [auto|]. split; [discriminate|]. split; [discriminate|].
    intros; discriminate.
Qed.

(** The theorem at a consumer with an empty bucket and a fresh cache. *)
Lemma fetchFeed_token_then_cache_witness :
  Error (fst (fst (fetchFeed "metro_trains" (mkEnv false false false 0 DoError)
                     (mkConsumer 0 fresh_cache 110 30))))
  = Some "rate limit exceeded".
Proof.
  destruct (fetchFeed "metro_trains" (mkEnv false false false 0 DoError)
              (mkConsumer 0 fresh_cache 110 30)) as [[r eff] c'] eqn:H.
  destruct (fetchFeed_token_then_cache _ _ _ _ _ _ H) as [H1 _].
  destruct (H1 eq_refl eq_refl eq_refl eq_refl) as [Hr _].
  rewrite Hr. reflexivity.
Defined.

End ConsumerClaims.

Module CleanupFacts.
Import GTFSCleanup.

Lemma insert_desc_perm (v : gversion) (l : list gversion) :
  Permutation (insert_desc v l) (v :: l).
Proof.
  induction l as [|x l IH]; simpl; [reflexivity|].
  destruct (gv_created_at x <? gv_created_at v); [reflexivity|].
  rewrite IH. apply perm_swap.
Qed.

Lemma sort_desc_perm (l : list gversion) : Permutation (sort_desc l) l.
Proof.
  induction l as [|x l IH]; simpl; [reflexivity|].
  rewrite insert_desc_perm, IH. reflexivity.
Qed.

Lemma insert_desc_hd (x v : gversion) (l : list gversion) :
  HdRel ge_created x l -> ge_created x v -> HdRel ge_created x (insert_desc v l).
Proof.
  destruct l as [|y l]; simpl; intros H1 H2; [constructor; exact H2|].
  destruct (gv_created_at y <? gv_created_at v); constructor; [exact H2|].
  inversion H1; assumption.
Qed.

Lemma insert_desc_sorted (v : gversion) (l : list gversion) :
  Sorted ge_created l -> Sorted ge_created (insert_desc v l).
Proof.
  induction l as [|x l IH]; simpl; intros Hs; [repeat constructor|].
  destruct (gv_created_at x <? gv_created_at v) eqn:Hlt.
  - apply Z.ltb_lt in Hlt. constructor; [exact Hs|]. constructor. unfold ge_created; lia.
  - apply Z.ltb_ge in Hlt. inversion Hs; subst.
    constructor; [apply IH; assumption|].
    apply insert_desc_hd; [assumption|]. unfold ge_created; lia.
Qed.

Lemma sort_desc_sorted (l : list gversion) : Sorted ge_created (sort_desc l).
Proof.
  induction l as [|x l IH]; simpl; [constructor|]. apply insert_desc_sorted, IH.
Qed.

Lemma ge_created_trans : Transitive ge_created.
Proof. unfold ge_created. intros a b c H1 H2. lia. Qed.

Lemma strongly_sorted_app (l1 l2 : list gversion) :
  StronglySorted ge_created (l1 ++ l2) ->
  forall x y, In x l1 -> In y l2 -> ge_created x y.
Proof.
  induction l1 as [|a l1 IH]; simpl; intros H x y Hx Hy; [contradiction|].
  inversion H as [|? ? Hs Hall]; subst.
  destruct Hx as [<-|Hx].
  - rewrite Forall_forall in Hall. apply Hall. apply list_elem_of_In, in_or_app. right; exact Hy.
  - exact (IH Hs x y Hx Hy).
Qed.

Lemma sorted_drop (k : nat) (l : list gversion) :
  Sorted ge_created l -> Sorted ge_created (drop k l).
Proof.
  revert l. induction k as [|k IH]; intros l H; simpl; [exact H|].
  destruct l as [|x l]; [constructor|]. apply IH. inversion H; assumption.
Qed.

Lemma delete_each_ids (fails : nat -> string -> bool) (vs : list gversion) (tot : Z) (s : gdb) :
  map VersionID (fst (fst (delete_each fails vs tot s))) = map (fun v => Some (gv_id v)) vs.
Proof.
  revert tot s. induction vs as [|v vs IH]; intros tot s; simpl; [reflexivity|].
  destruct (deleteGTFSVersion fails (gv_id v) s) as [[n [e|]] s1].
  - specialize (IH tot s1). destruct (delete_each fails vs tot s1) as [[rs t] s2].
    simpl in *. rewrite IH. reflexivity.
  - specialize (IH (tot + n) s1). destruct (delete_each fails vs (tot + n) s1) as [[rs t] s2].
    simpl in *. rewrite IH. reflexivity.
Qed.

Lemma delete_each_all_some (fails : nat -> string -> bool) (vs : list gversion) (tot : Z) (s : gdb) :
  Forall (fun r => has_id r = true) (fst (fst (delete_each fails vs tot s))).
Proof.
  revert tot s. induction vs as [|v vs IH]; intros tot s; simpl; [constructor|].
  destruct (deleteGTFSVersion fails (gv_id v) s) as [[n [e|]] s1].
  - specialize (IH tot s1). destruct (delete_each fails vs tot s1) as [[rs t] s2].
    simpl in *. constructor; [reflexivity|exact IH].
  - specialize (IH (tot + n) s1). destruct (delete_each fails vs (tot + n) s1) as [[rs t] s2].
    simpl in *. constructor; [reflexivity|exact IH].
Qed.

Lemma shrinks_trans (a b c : gdb) : shrinks a b -> shrinks b c -> shrinks a c.
Proof. unfold shrinks. intros [H1 H2] [H3 H4]. split; auto. Qed.

Lemma delete_tables_shrinks (fails : nat -> string -> bool) (vid : nat) (ts : list string)
    (tot : Z) (s : gdb) :
  shrinks s (snd (delete_tables fails vid ts tot s)).
Proof.
  revert tot s. induction ts as [|t ts IH]; intros tot s; simpl.
  - destruct (fails vid "versions"); simpl; split; auto.
    intros v Hv. apply filter_In in Hv. tauto.
  - destruct (fails vid t); [split; auto|].
    eapply shrinks_trans; [|apply IH]. simpl. split; [auto|].
    intros e He. apply filter_In in He. tauto.
Qed.

Lemma delete_tables_success (fails : nat -> string -> bool) (vid : nat) (ts : list string)
    (tot n : Z) (s s' : gdb) :
  delete_tables fails vid ts tot s = (n, None, s') ->
  (forall v, In v (gversions s') -> gv_id v <> vid) /\
  (forall e, In e (gentities s') -> In (fst e) ts -> snd e <> vid).
Proof.
  revert tot s. induction ts as [|t ts IH]; intros tot s; simpl.
  - destruct (fails vid "versions"); intros H; inversion H; subst; simpl.
    split; [|intros _ _ []].
    intros v Hv. apply filter_In in Hv as [_ Hv]. apply negb_true_iff, Nat.eqb_neq in Hv. exact Hv.
  - destruct (fails vid t); [discriminate|].
    intros H. pose proof (delete_tables_shrinks fails vid ts (tot + Z.of_nat (length
      (List.filter (fun e => String.eqb (fst e) t && Nat.eqb (snd e) vid) (gentities s))))
      (mkGDB (gversions s) (List.filter (fun e => negb (String.eqb (fst e) t && Nat.eqb (snd e) vid))
         (gentities s)))) as [_ Hsh].
    rewrite H in Hsh. simpl in Hsh.
    destruct (IH _ _ H) as [Hv He]. split; [exact Hv|].
    intros e Hin [Ht|Ht].
    + apply Hsh in Hin. apply filter_In in Hin as [_ Hin].
      subst t. rewrite String.eqb_refl in Hin. simpl in Hin.
      apply negb_true_iff, Nat.eqb_neq in Hin. exact Hin.
    + exact (He e Hin Ht).
Qed.

Lemma delete_each_shrinks (fails : nat -> string -> bool) (vs : list gversion) (tot : Z) (s : gdb) :
  shrinks s (snd (delete_each fails vs tot s)).
Proof.
  revert tot s. induction vs as [|v vs IH]; intros tot s; simpl; [split; auto|].
  pose proof (delete_tables_shrinks fails (gv_id v) tables 0 s) as Hd.
  unfold deleteGTFSVersion. destruct (delete_tables fails (gv_id v) tables 0 s) as [[n [e|]] s1].
  - specialize (IH tot s1). destruct (delete_each fails vs tot s1) as [[rs t] s2].
    exact (shrinks_trans _ _ _ Hd IH).
  - specialize (IH (tot + n) s1). destruct (delete_each fails vs (tot + n) s1) as [[rs t] s2].
    exact (shrinks_trans _ _ _ Hd IH).
Qed.

Lemma delete_each_success (fails : nat -> string -> bool) (vs : list gversion) (tot : Z) (s : gdb) :
  forall r id, In r (fst (fst (delete_each fails vs tot s))) ->
  CleanupStatus r = "SUCCESS" -> VersionID r = Some id ->
  (forall v, In v (gversions (snd (delete_each fails vs tot s))) -> gv_id v <> id) /\
  (forall e, In e (gentities (snd (delete_each fails vs tot s))) -> In (fst e) tables ->
     snd e <> id).
Proof.
  revert tot s. induction vs as [|v vs IH]; intros tot s r id; simpl; [contradiction|].
  unfold deleteGTFSVersion.
  destruct (delete_tables fails (gv_id v) tables 0 s) as [[n [e|]] s1] eqn:Hd.
  - specialize (IH tot s1 r id). destruct (delete_each fails vs tot s1) as [[rs t] s2].
    simpl in *. intros [<-|Hr]; [simpl; discriminate|]. exact (IH Hr).
  - specialize (IH (tot + n) s1 r id).
    pose proof (delete_each_shrinks fails vs (tot + n) s1) as [Hs1 Hs2].
    destruct (delete_each fails vs (tot + n) s1) as [[rs t] s2].
    simpl in IH |- *. intros [Hr0|Hr]; [|exact (IH Hr)]. subst r.
    intros _ Hid. simpl in Hid. inversion Hid; subst id.
    destruct (delete_tables_success _ _ _ _ _ _ _ Hd) as [Hv He].
    split; [intros x Hx; exact (Hv x (Hs1 x Hx))|].
    intros x Hx Ht. exact (He x (Hs2 x Hx) Ht).
Qed.

End CleanupFacts.

Module CleanupClaims.
Import GTFSCleanup CleanupFacts.

(** C7 (counterexample): with three inactive versions created at 10, 20
    and 30 and [keepInactiveVersions = 1], the cleanup keeps version 3
    and deletes version 2 before version 1: newest first, not oldest
    first. *)
Lemma CleanupOldGTFSVersions_deletes_newest_first :
  fst (CleanupOldGTFSVersions (fun _ _ => false) None 1 three_inactive)
  = Ok [mkVCR (Some 2%nat) "v2" 1 "SUCCESS"; mkVCR (Some 1%nat) "v1" 1 "SUCCESS";
        mkVCR None "CLEANUP_SUMMARY" 2 "COMPLETED"] /\
  gversions (snd (CleanupOldGTFSVersions (fun _ _ => false) None 1 three_inactive))
  = [mkGVersion 3 "v3" 30 false].
Proof. split; vm_compute; reflexivity. Qed.

End CleanupClaims.

Module ImportLockClaims.
Import ImportLock.

Lemma reach_nolock_no_writer (s : sys) : reach false s -> writer s = false.
Proof.
  induction 1 as [|s s' Hr IH Hs]; [reflexivity|].
  inversion Hs; subst; simpl in *; congruence.
Qed.

(** C8 (code_bug): with the program as written (the import never calls
    [LockForImport]), the import never holds the write side, and there
    is a run in which a cleanup task is running its deletes while the
    import is between its bulk insert and its activation.  Even with
    the import taking the lock, the cleanup's check releases the read
    side before it mutates, so the import can lock and start while the
    deletes run. *)
Theorem import_and_cleanup_overlap :
  (forall s, reach false s -> writer s = false) /\
  reach false overlap /\ imp overlap = IImporting /\ cln overlap = CMutating /\
  reach true (mkSys IImporting CMutating true 0 true).
Proof.
  split; [exact reach_nolock_no_writer|].
  split; [|split; [reflexivity|split; [reflexivity|]]].
  - (* cleanup checks the flag, then the import starts *)
    eapply (reach_step false (mkSys IIdle CMutating false 0 false));
      [|apply import_start_nolock; reflexivity].
    eapply (reach_step false (mkSys IIdle CChecking false 1 false));
      [|apply (cleanup_check false IIdle false 0 false)].
    eapply reach_step; [apply reach_init|apply cleanup_rlock].
  - eapply (reach_step true (mkSys IIdle CMutating false 0 false));
      [|apply import_start_lock; reflexivity].
    eapply (reach_step true (mkSys IIdle CChecking false 1 false));
      [|apply (cleanup_check true IIdle false 0 false)].
    eapply reach_step; [apply reach_init|apply cleanup_rlock].
Qed.

End ImportLockClaims.

Module RetentionClaims.
Import Realtime Retention.

Lemma existsb_ext_in {X} (f g : X -> bool) (l : list X) :
  (forall x, In x l -> f x = g x) -> existsb f l = existsb g l.
Proof.
  induction l as [|x l IH]; simpl; intros H; [reflexivity|].
  rewrite (H x (or_introl eq_refl)), IH; auto.
Qed.

(** Rows at most one reference deep are settled after two rounds. *)
Lemma doomed_parent_stable (cutoff : Z) (rs : list rrow) (t pt : table) (p : rrow) :
  parent_table t = Some pt -> r_tbl p = pt ->
  doomed 2 cutoff rs p = doomed 3 cutoff rs p.
Proof.
  intros Ht Hp.
  assert (Hhdr : forall h, is_key FeedMessages (r_parent p) h && doomed 1 cutoff rs h
                         = is_key FeedMessages (r_parent p) h && doomed 2 cutoff rs h).
  { intros h. unfold is_key. destruct (decide (r_tbl h = FeedMessages)) as [Hh|]; [|reflexivity].
    simpl. rewrite Hh. reflexivity. }
  destruct p as [tp ip kp ra]; simpl in Hp, Hhdr |- *. subst tp.
  destruct t; simpl in Ht; inversion Ht; subst pt; simpl;
    try reflexivity; apply existsb_ext_in; intros h _; apply Hhdr.
Qed.

Lemma doomed_S (f : nat) (cutoff : Z) (rs : list rrow) (r : rrow) :
  doomed (S f) cutoff rs r =
  match parent_table (r_tbl r) with
  | None => received_at r <? cutoff
  | Some pt => existsb (fun p => is_key pt (r_parent r) p && doomed f cutoff rs p) rs
  end.
Proof. reflexivity. Qed.

Lemma fk_ok_spec (rs : list rrow) :
  fk_ok rs = true <->
  forall c, In c rs -> forall pt, parent_table (r_tbl c) = Some pt ->
    exists p, In p rs /\ is_key pt (r_parent c) p = true.
Proof.
  unfold fk_ok. rewrite forallb_forall. split.
  - intros H c Hc pt Hpt. specialize (H c Hc). rewrite Hpt in H.
    apply existsb_exists in H. exact H.
  - intros H c Hc. destruct (parent_table (r_tbl c)) as [pt|] eqn:Hpt; [|reflexivity].
    apply existsb_exists. exact (H c Hc pt Hpt).
Qed.

Lemma is_key_true (pt : table) (k : nat) (p : rrow) :
  is_key pt k p = true <-> r_tbl p = pt /\ r_id p = k.
Proof.
  unfold is_key. destruct (decide (r_tbl p = pt)); simpl.
  - rewrite Nat.eqb_eq. tauto.
  - split; [discriminate|tauto].
Qed.

(** C9: after a successful run of [performCleanup] at time [now] (the
    window is fixed at 15 minutes, 900 s), no [feed_messages] row with
    [received_at < now - 900] remains; every [feed_messages] row with
    [received_at >= now - 900] is still there unchanged; only rows are
    removed; a row whose referenced row was removed is removed too; and
    if every reference pointed at a present row before, it still does
    after (no orphans). *)
Theorem performCleanup_removes_old_messages (now : Z) (rs : list rrow)
    (Hfk : fk_ok rs = true) :
  let rs' := performCleanup false now rs in
  retention_window = 900 /\
  (forall r, In r rs' -> r_tbl r = FeedMessages -> now - retention_window <= received_at r) /\
  (forall r, In r rs -> r_tbl r = FeedMessages -> now - retention_window <= received_at r ->
     In r rs') /\
  (forall r, In r rs' -> In r rs) /\
  (forall c p, In c rs -> In p rs -> parent_table (r_tbl c) = Some (r_tbl p) ->
     r_id p = r_parent c -> ~ In p rs' -> ~ In c rs') /\
  fk_ok rs' = true.
Proof.
  cbv zeta. unfold performCleanup.
  set (cutoff := now - retention_window).
  split; [reflexivity|].
  split; [|split; [|split; [|split]]].
  - intros r Hr Ht. apply filter_In in Hr as [_ Hr].
    destruct r as [t i k ra]; simpl in *; subst t. simpl in Hr.
    apply negb_true_iff, Z.ltb_ge in Hr. exact Hr.
  - intros r Hr Ht Hge. apply filter_In. split; [exact Hr|].
    destruct r as [t i k ra]; simpl in *; subst t. simpl.
    apply negb_true_iff, Z.ltb_ge. exact Hge.
  - intros r Hr. apply filter_In in Hr. tauto.
  - intros c p Hc Hp Hpt Hk Hp' Hc'. apply Hp'. apply filter_In in Hc' as [_ Hc'].
    apply filter_In. split; [exact Hp|]. apply negb_true_iff.
    destruct (doomed 3 cutoff rs p) eqn:Hd; [|reflexivity]. exfalso.
    rewrite <- (doomed_parent_stable cutoff rs (r_tbl c) (r_tbl p) p Hpt eq_refl) in Hd.
    apply negb_true_iff in Hc'. rewrite doomed_S, Hpt in Hc'.
    assert (Hx : existsb (fun q => is_key (r_tbl p) (r_parent c) q && doomed 2 cutoff rs q) rs = true).
    { apply existsb_exists. exists p. split; [exact Hp|].
      rewrite Hd, andb_true_r. apply is_key_true. split; [reflexivity|exact Hk]. }
    rewrite Hx in Hc'. discriminate.
  - apply fk_ok_spec. intros c Hc pt Hpt.
    apply filter_In in Hc as [Hc Hnd]. apply negb_true_iff in Hnd.
    rewrite doomed_S, Hpt in Hnd.
    destruct (proj1 (fk_ok_spec rs) Hfk c Hc pt Hpt) as (p & Hp & Hkey).
    exists p. split; [|exact Hkey]. apply filter_In. split; [exact Hp|].
    apply negb_true_iff. pose proof (proj1 (is_key_true _ _ _) Hkey) as [Htp _].
    rewrite <- (doomed_parent_stable cutoff rs (r_tbl c) pt p Hpt Htp).
    destruct (doomed 2 cutoff rs p) eqn:Hd; [|reflexivity]. exfalso.
    assert (Hx : existsb (fun q => is_key pt (r_parent c) q && doomed 2 cutoff rs q) rs = true).
    { apply existsb_exists. exists p. split; [exact Hp|]. rewrite Hkey, Hd. reflexivity. }
    rewrite Hx in Hnd. discriminate.
Qed.

(** The theorem at a store with an old message (received at 100) and a
    recent one (received at 1000), each with a two-level subtree,
    cleaned at [now = 1200]. *)
Lemma performCleanup_removes_old_messages_witness :
  fk_ok sample_rows = true /\
  performCleanup false 1200 sample_rows
  = [mkRRow FeedMessages 4 0 1000; mkRRow Alerts 5 4 0; mkRRow AlertTranslations 6 5 0] /\
  fk_ok (performCleanup false 1200 sample_rows) = true.
Proof.
  assert (Hfk : fk_ok sample_rows = true) by (vm_compute; reflexivity).
  split; [exact Hfk|]. split; [vm_compute; reflexivity|].
  destruct (performCleanup_removes_old_messages 1200 sample_rows Hfk) as (_ & _ & _ & _ & _ & H).
  exact H.
Defined.

End RetentionClaims.

Module GoFmtFacts.
Import GoFmt.

Local Arguments String.append : simpl nomatch.

Lemma string_app_assoc (a b c : string) : (a ++ b ++ c)%string = ((a ++ b) ++ c)%string.
Proof. induction a as [|x a IH]; simpl; [reflexivity|]. rewrite IH. reflexivity. Qed.


Lemma digit_char_ok (d : Z) : 0 <= d < 10 ->
  Go.isDigit (digit_char d) = true /\ Go.digitVal (digit_char d) = d.
Proof.
  intros H. assert (d = 0 \/ d = 1 \/ d = 2 \/ d = 3 \/ d = 4 \/ d = 5 \/ d = 6
    \/ d = 7 \/ d = 8 \/ d = 9) as Hd by lia.
  repeat destruct Hd as [->|Hd]; try (subst d); split; reflexivity.
Qed.

Lemma digits_value_app (a : Z) (s1 s2 : string) :
  Go.digits_value a (s1 ++ s2) =
  match Go.digits_value a s1 with Some v => Go.digits_value v s2 | None => None end.
Proof.
  revert a; induction s1 as [|c s1 IH]; intros a; simpl; [reflexivity|].
  destruct (Go.isDigit c); [apply IH|reflexivity].
Qed.

Lemma digits_value_all (a v : Z) (s : string) :
  Go.digits_value a s = Some v -> str_all Go.isDigit s = true.
Proof.
  revert a; induction s as [|c s IH]; intros a; simpl; [reflexivity|].
  destruct (Go.isDigit c) eqn:E; [|discriminate]. simpl. apply IH.
Qed.

Lemma udigits_app (f : nat) (n : Z) (acc : string) :
  udigits f n acc = (udigits f n "" ++ acc)%string.
Proof.
  revert n acc; induction f as [|f IH]; intros n acc; simpl; [reflexivity|].
  destruct (n <? 10); [reflexivity|].
  rewrite (IH (n / 10) (String _ acc)), (IH (n / 10) (String _ "")).
  rewrite <- string_app_assoc. reflexivity.
Qed.

Lemma udigits_S (f : nat) (n : Z) (acc : string) :
  udigits (S f) n acc =
  if n <? 10 then String (digit_char (n mod 10)) acc
  else udigits f (n / 10) (String (digit_char (n mod 10)) acc).
Proof. reflexivity. Qed.

Lemma udigits_value (f : nat) (n : Z) :
  0 <= n < 10 ^ Z.of_nat (S f) ->
  Go.digits_value 0 (udigits (S f) n "") = Some n /\
  exists d rest, udigits (S f) n "" = String d rest /\ Go.isDigit d = true.
Proof.
  revert n; induction f as [|f IH]; intros n Hn.
  - change (10 ^ Z.of_nat 1) with 10 in Hn. cbn [udigits].
    assert ((n <? 10) = true) as -> by (apply Z.ltb_lt; lia).
    destruct (digit_char_ok (n mod 10)) as [D V]; [apply Z.mod_pos_bound; lia|].
    rewrite Z.mod_small in D, V by lia. rewrite Z.mod_small by lia.
    cbn [Go.digits_value]. rewrite D, V. split; [reflexivity|eauto].
  - rewrite udigits_S.
    destruct (digit_char_ok (n mod 10)) as [D V]; [apply Z.mod_pos_bound; lia|].
    destruct (n <? 10) eqn:Hlt.
    + apply Z.ltb_lt in Hlt. rewrite Z.mod_small in D, V by lia.
      rewrite Z.mod_small by lia.
      cbn [Go.digits_value]. rewrite D, V. split; [reflexivity|eauto].
    + apply Z.ltb_ge in Hlt.
      assert (0 <= n / 10 < 10 ^ Z.of_nat (S f)) as Hq.
      { rewrite Nat2Z.inj_succ, Z.pow_succ_r in Hn by lia. split.
        - apply Z.div_pos; lia.
        - apply Z.div_lt_upper_bound; lia. }
      destruct (IH (n / 10) Hq) as [IHv [d [rest [IHs IHd]]]].
      rewrite udigits_app. split.
      * rewrite digits_value_app. rewrite IHv.
        cbn [Go.digits_value]. rewrite D, V.
        f_equal. pose proof (Z.div_mod n 10). lia.
      * rewrite IHs. cbn [String.append]. eauto.
Qed.

Lemma utoa_value (n : Z) : 0 <= n ->
  Go.digits_value 0 (utoa n) = Some n /\
  exists d rest, utoa n = String d rest /\ Go.isDigit d = true.
Proof.
  intros Hn. apply udigits_value. split; [lia|].
  destruct (Z.eq_dec n 0) as [->|Hn0]; [simpl; lia|].
  pose proof (Z.log2_spec n ltac:(lia)) as [_ Hs].
  rewrite Nat2Z.inj_succ, Z2Nat.id by (apply Z.log2_nonneg).
  eapply Z.lt_le_trans; [exact Hs|]. apply Z.pow_le_mono_l. split; [lia|].
  lia.
Qed.

Lemma Atoi_Itoa (n : Z) : - 2^63 <= n < 2^63 -> Go.Atoi (Itoa n) = Some n.
Proof.
  intros Hr. unfold Itoa. destruct (n <? 0) eqn:Hneg.
  - apply Z.ltb_lt in Hneg.
    destruct (utoa_value (- n) ltac:(lia)) as [Hv [d [rest [Hs Hd]]]].
    unfold Go.Atoi. simpl. rewrite Hs in *. unfold Go.parse_digits. rewrite Hv.
    rewrite Z.opp_involutive.
    replace ((- 2 ^ 63 <=? n) && (n <? 2 ^ 63)) with true
      by (symmetry; apply andb_true_iff; split; [apply Z.leb_le|apply Z.ltb_lt]; lia).
    reflexivity.
  - apply Z.ltb_ge in Hneg.
    destruct (utoa_value n Hneg) as [Hv [d [rest [Hs Hd]]]].
    unfold Go.Atoi. rewrite Hs in *. unfold Go.parse_digits at 3. rewrite Hv.
    replace ((- 2 ^ 63 <=? n) && (n <? 2 ^ 63)) with true
      by (symmetry; apply andb_true_iff; split; [apply Z.leb_le|apply Z.ltb_lt]; lia).
    assert (Ascii.eqb d "-"%char = false) as ->.
    { destruct (Ascii.eqb d "-"%char) eqn:E; [|reflexivity].
      apply Ascii.eqb_eq in E. subst d. discriminate Hd. }
    assert (Ascii.eqb d "+"%char = false) as ->.
    { destruct (Ascii.eqb d "+"%char) eqn:E; [|reflexivity].
      apply Ascii.eqb_eq in E. subst d. discriminate Hd. }
    reflexivity.
Qed.

End GoFmtFacts.

Module TimeFacts.
Import GoFmt GoFmtFacts.
Local Arguments String.append : simpl nomatch.

Lemma Split_app_sep (a r : string) :
  str_all (fun c => negb (Ascii.eqb c ":"%char)) a = true ->
  Go.Split (a ++ String ":"%char r) ":"%char = a :: Go.Split r ":"%char.
Proof.
  induction a as [|c a IH]; intros H; [reflexivity|].
  simpl in H. apply andb_true_iff in H as [Hc Ha].
  cbn [String.append Go.Split]. rewrite IH by exact Ha.
  apply negb_true_iff in Hc. rewrite Hc. reflexivity.
Qed.

Lemma Split_nosep (a : string) :
  str_all (fun c => negb (Ascii.eqb c ":"%char)) a = true ->
  Go.Split a ":"%char = [a].
Proof.
  induction a as [|c a IH]; intros H; [reflexivity|].
  simpl in H. apply andb_true_iff in H as [Hc Ha].
  cbn [Go.Split]. rewrite IH by exact Ha.
  apply negb_true_iff in Hc. rewrite Hc. reflexivity.
Qed.

Lemma str_all_digits_nocolon (s : string) :
  str_all Go.isDigit s = true -> str_all (fun c => negb (Ascii.eqb c ":"%char)) s = true.
Proof.
  induction s as [|c s IH]; simpl; [reflexivity|].
  intros H. apply andb_true_iff in H as [Hc Hs]. rewrite IH by exact Hs.
  destruct (Ascii.eqb c ":"%char) eqn:E; [|reflexivity].
  apply Ascii.eqb_eq in E. subst c. discriminate Hc.
Qed.

Lemma Itoa_nocolon (n : Z) :
  str_all (fun c => negb (Ascii.eqb c ":"%char)) (Itoa n) = true.
Proof.
  unfold Itoa. destruct (n <? 0) eqn:Hn.
  - apply Z.ltb_lt in Hn. destruct (utoa_value (- n) ltac:(lia)) as [Hv _].
    cbn [str_all]. apply str_all_digits_nocolon, (digits_value_all _ _ _ Hv).
  - apply Z.ltb_ge in Hn. destruct (utoa_value n Hn) as [Hv _].
    apply str_all_digits_nocolon, (digits_value_all _ _ _ Hv).
Qed.

Lemma wrap_shift (b x : Z) : 0 < b -> exists k, Go.wrap b x = x + k * 2 ^ b.
Proof.
  intros Hb. unfold Go.wrap. rewrite Z.mod_eq by (apply Z.pow_nonzero; lia).
  destruct (_ >=? _).
  - exists (- (x / 2 ^ b) - 1). lia.
  - exists (- (x / 2 ^ b)). lia.
Qed.

Lemma int32_shift64 (x k : Z) : Go.int32 (x + k * 2 ^ 64) = Go.int32 x.
Proof.
  unfold Go.int32, Go.wrap.
  replace (x + k * 2 ^ 64) with (x + (k * 2 ^ 32) * 2 ^ (32 - 1 + 1)) by lia.
  change (2 ^ (32 - 1 + 1)) with (2 ^ 32). rewrite Z_mod_plus_full. reflexivity.
Qed.

Lemma int32_int64 (x : Z) : Go.int32 (Go.int64 x) = Go.int32 x.
Proof.
  destruct (wrap_shift 64 x ltac:(lia)) as [k Hk]. unfold Go.int64. rewrite Hk.
  apply int32_shift64.
Qed.

Lemma int64_plus (x y : Z) : exists k, Go.int64 x + y = x + y + k * 2 ^ 64.
Proof.
  destruct (wrap_shift 64 x ltac:(lia)) as [k Hk]. exists k. unfold Go.int64. lia.
Qed.

Lemma colon_app (r : string) : (":" ++ r)%string = String ":"%char r.
Proof. reflexivity. Qed.

(** X2: For integers h, m and s in the int64 range, the realtime parseGTFSTime of the text h:m:s (each number written in decimal) returns h*3600 + m*60 + s wrapped to int32. No field is range-checked. *)
Theorem parseGTFSTime_rt_fields (h m s : Z) :
  - 2^63 <= h < 2^63 -> - 2^63 <= m < 2^63 -> - 2^63 <= s < 2^63 ->
  GTFSTime.parseGTFSTime_rt (Itoa h ++ ":" ++ Itoa m ++ ":" ++ Itoa s)%string
  = Ok (Some (Go.int32 (h * 3600 + m * 60 + s))).
Proof.
  intros Hh Hm Hs. unfold GTFSTime.parseGTFSTime_rt.
  assert (String.eqb (Itoa h ++ ":" ++ Itoa m ++ ":" ++ Itoa s)%string "" = false) as ->.
  { destruct (Itoa h); reflexivity. }
  rewrite !colon_app.
  rewrite Split_app_sep by apply Itoa_nocolon.
  rewrite Split_app_sep by apply Itoa_nocolon.
  rewrite Split_nosep by apply Itoa_nocolon.
  rewrite !Atoi_Itoa by assumption. f_equal. f_equal.
  rewrite int32_int64.
  destruct (int64_plus (Go.int64 (h * 3600) + Go.int64 (m * 60)) s) as [k1 ->].
  rewrite int32_shift64.
  destruct (int64_plus (h * 3600) (Go.int64 (m * 60))) as [k2 ->].
  destruct (wrap_shift 64 (m * 60) ltac:(lia)) as [k3 Hk3].
  unfold Go.int64 at 1. rewrite Hk3.
  replace (h * 3600 + (m * 60 + k3 * 2 ^ 64) + k2 * 2 ^ 64 + s)
    with (h * 3600 + m * 60 + s + (k2 + k3) * 2 ^ 64) by lia.
  apply int32_shift64.
Qed.

End TimeFacts.

Module ImporterFacts.
Import GoFmt GoFmtFacts Importer.
Local Arguments String.append : simpl nomatch.

Lemma str_all_app (f : ascii -> bool) (a b : string) :
  str_all f (a ++ b) = str_all f a && str_all f b.
Proof.
  induction a as [|c a IH]; [reflexivity|]. cbn [String.append str_all].
  rewrite IH. apply andb_assoc.
Qed.

Lemma str_all_concat (f : ascii -> bool) (sep : string) (l : list string) :
  str_all f sep = true -> Forall (fun s => str_all f s = true) l ->
  str_all f (String.concat sep l) = true.
Proof.
  intros Hs Hl. induction Hl as [|x l Hx Hl IH]; [reflexivity|].
  destruct l as [|y l]; [exact Hx|].
  change (String.concat sep (x :: y :: l)) with (x ++ sep ++ String.concat sep (y :: l))%string.
  rewrite !str_all_app, Hx, Hs, IH. reflexivity.
Qed.


Lemma scan_nodollar (s r : string) :
  str_all nodollar s = true -> scan Outside (s ++ r) = scan Outside r.
Proof.
  induction s as [|c s IH]; intros H; [reflexivity|].
  cbn [str_all] in H. apply andb_true_iff in H as [Hc Hs].
  cbn [String.append scan]. unfold nodollar in Hc. apply negb_true_iff in Hc.
  rewrite Hc. apply IH, Hs.
Qed.


Lemma scan_innum (a v : Z) (ds r : string) :
  Go.digits_value a ds = Some v -> good_next r ->
  scan (InNum a) (ds ++ r) = v :: scan Outside r.
Proof.
  revert a; induction ds as [|c ds IH]; intros a Hv Hr.
  - cbn in Hv. injection Hv as <-. destruct r as [|c r]; [reflexivity|].
    cbn [good_next] in Hr. cbn [String.append scan]. rewrite Hr. reflexivity.
  - cbn [Go.digits_value] in Hv. destruct (Go.isDigit c) eqn:Hc; [|discriminate].
    cbn [String.append scan]. rewrite Hc. apply IH; assumption.
Qed.


Lemma piece_placeholder (x : Z) : 0 <= x -> piece ("$" ++ Itoa x) [x].
Proof.
  intros Hx r Hr. unfold Itoa. assert ((x <? 0) = false) as -> by (apply Z.ltb_ge; lia).
  destruct (utoa_value x Hx) as [Hv [d [rest [Hs Hd]]]]. rewrite Hs in *.
  change (("$" ++ String d rest) ++ r)%string with (String "$"%char (String d (rest ++ r))).
  cbn [scan]. rewrite Hd. cbn [Ascii.eqb].
  cbn [Go.digits_value] in Hv. rewrite Hd in Hv.
  apply scan_innum; assumption.
Qed.

Lemma piece_concat (sep : string) (ts : list string) (nss : list (list Z)) :
  str_all nodollar sep = true -> good_next sep -> sep <> EmptyString ->
  Forall2 piece ts nss -> piece (String.concat sep ts) (List.concat nss).
Proof.
  intros Hsep Hg Hne H. induction H as [|t ns ts nss Ht Hts IH].
  - intros r _. reflexivity.
  - destruct ts as [|t' ts].
    + inversion Hts; subst. cbn [String.concat List.concat]. rewrite app_nil_r. exact Ht.
    + intros r Hr.
      change (String.concat sep (t :: t' :: ts)) with (t ++ sep ++ String.concat sep (t' :: ts))%string.
      rewrite <- !string_app_assoc.
      assert (good_next (sep ++ String.concat sep (t' :: ts) ++ r)%string) as Hg'.
      { destruct sep; [congruence|exact Hg]. }
      rewrite (Ht _ Hg'), scan_nodollar by exact Hsep.
      cbn [List.concat]. rewrite <- app_assoc. f_equal. apply IH, Hr.
Qed.

Lemma piece_paren (t : string) (ns : list Z) :
  piece t ns -> piece ("(" ++ t ++ ")") ns.
Proof.
  intros Ht r Hr.
  change (("(" ++ t ++ ")") ++ r)%string with (String "("%char ((t ++ ")") ++ r)).
  cbn [scan Ascii.eqb]. rewrite <- string_app_assoc. rewrite (Ht (")" ++ r)%string eq_refl). reflexivity.
Qed.

Lemma map_seqZ_shift (a m n : Z) : map (fun j => a + j) (seqZ m n) = seqZ (a + m) n.
Proof.
  rewrite <- fmap_add_seqZ. generalize (seqZ m n). intros l. induction l as [|x l IH]; [reflexivity|].
  cbn [map]. rewrite IH. reflexivity.
Qed.

Lemma placeholder_rows (vc fc : Z) : 0 <= vc -> 0 <= fc ->
  List.concat (map (fun i => map (fun j => i * fc + j + 1) (seqZ 0 fc)) (seqZ 0 vc))
  = seqZ 1 (vc * fc).
Proof.
  intros Hvc Hfc. rewrite <- (Z2Nat.id vc Hvc). induction (Z.to_nat vc) as [|k IH].
  - reflexivity.
  - rewrite seqZ_S, map_app, concat_app, IH. cbn [map List.concat]. rewrite app_nil_r.
    replace (Z.of_nat (S k) * fc) with (Z.of_nat k * fc + fc) by lia.
    rewrite seqZ_app by lia. f_equal.
    replace (1 + Z.of_nat k * fc) with ((0 + Z.of_nat k) * fc + 1 + 0) by lia.
    rewrite <- (map_seqZ_shift ((0 + Z.of_nat k) * fc + 1) 0 fc).
    apply map_ext. intros j. lia.
Qed.

End ImporterFacts.

Module ImporterClaims.
Import GoFmt GoFmtFacts Importer ImporterFacts.
Local Arguments String.append : simpl nomatch.

Lemma Forall2_piece_map {X} (f : X -> string) (g : X -> list Z) (l : list X) :
  (forall x, In x l -> piece (f x) (g x)) -> Forall2 piece (map f l) (map g l).
Proof.
  induction l as [|x l IH]; intros H; constructor.
  - apply H. left. reflexivity.
  - apply IH. intros y Hy. apply H. right. exact Hy.
Qed.

Lemma concat_singletons {X} (l : list X) : List.concat (map (fun x => [x]) l) = l.
Proof. induction l as [|x l IH]; [reflexivity|]. cbn. rewrite IH. reflexivity. Qed.

Lemma In_seqZ (a m n : Z) : In a (seqZ m n) -> m <= a < m + n.
Proof. intros H. apply elem_of_seqZ, list_elem_of_In, H. Qed.

Lemma piece_placeholders (l : list Z) : (forall x, In x l -> 0 <= x) ->
  piece (String.concat ", " (map (fun x => "$" ++ Itoa x)%string l)) l.
Proof.
  intros H.
  pose proof (piece_concat ", " _ _ eq_refl eq_refl ltac:(discriminate)
    (Forall2_piece_map (fun x : Z => String.append "$" (Itoa x)) (fun x => [x]) l
       (fun x Hx => piece_placeholder x (H x Hx)))) as P.
  rewrite concat_singletons in P. exact P.
Qed.

(** [buildInsertQuery] numbers its placeholders [$1] .. [$(valueCount *
    fieldCount)], each once, in order (table and column names contain no [$]). *)
Lemma buildInsertQuery_placeholders_seq {V} (b : batchInserter V) :
  str_all nodollar (tableName b) = true ->
  Forall (fun c => str_all nodollar c = true) (columns b) ->
  0 <= valueCount b -> 0 <= fieldCount b ->
  placeholders (buildInsertQuery b) = seqZ 1 (valueCount b * fieldCount b).
Proof.
  intros Ht Hc Hvc Hfc. unfold placeholders, buildInsertQuery.
  rewrite scan_nodollar by reflexivity.
  rewrite scan_nodollar by exact Ht.
  rewrite scan_nodollar by reflexivity.
  rewrite scan_nodollar by (apply str_all_concat; [reflexivity|exact Hc]).
  rewrite scan_nodollar by reflexivity.
  rewrite <- placeholder_rows by assumption.
  lazymatch goal with
  | |- scan Outside (String.concat ", " (map ?T ?l) ++ ?r)%string = _ =>
      assert (HP : piece (String.concat ", " (map T l))
        (List.concat (map (fun i => map (fun j => i * fieldCount b + j + 1)
                                       (seqZ 0 (fieldCount b))) l)))
  end.
  { apply piece_concat; [reflexivity|reflexivity|discriminate|].
    apply Forall2_piece_map. intros i Hi. apply In_seqZ in Hi. apply piece_paren.
    rewrite <- (map_map (fun j => i * fieldCount b + j + 1) (fun x => "$" ++ Itoa x)%string).
    apply piece_placeholders. intros x Hx. apply in_map_iff in Hx as [j [<- Hj]].
    apply In_seqZ in Hj. nia. }
  rewrite (HP " ON CONFLICT DO NOTHING"%string eq_refl). rewrite app_nil_r. reflexivity.
Qed.

(** X3: If the table and column names contain no '$' and valueCount and fieldCount are non-negative, the placeholders of buildInsertQuery are exactly $1 .. $(valueCount*fieldCount). Each appears once, in increasing order. *)
Theorem buildInsertQuery_placeholders {V} (b : batchInserter V) :
  str_all nodollar (tableName b) = true ->
  Forall (fun c => str_all nodollar c = true) (columns b) ->
  0 <= valueCount b -> 0 <= fieldCount b ->
  placeholders (buildInsertQuery b) = seqZ 1 (valueCount b * fieldCount b).
Proof. apply buildInsertQuery_placeholders_seq. Qed.

End ImporterClaims.

Module BatchFacts.
Import Importer.
Section Inv.
Context {V : Type} (exec_ok : string -> list V -> bool) (Q : list V -> Prop).
Context (b0 : batchInserter V).

Local Abbreviation binv := (Auxiliary.binv Q b0).

Lemma set_buffer_buffer (b : batchInserter V) vs vc vs' vc' :
  set_buffer (set_buffer b vs vc) vs' vc' = set_buffer b vs' vc'.
Proof. reflexivity. Qed.

Lemma flushed_app (t1 t2 : txlog V) : flushed (t1 ++ t2) = flushed t1 ++ flushed t2.
Proof. unfold flushed. rewrite map_app, concat_app. reflexivity. Qed.

Lemma Add_step (b : batchInserter V) (vs : list V) tx b' tx' :
  0 < batchSize b0 -> binv b -> Q vs -> Add exec_ok b vs tx = (Ok tt, b', tx') ->
  binv b' /\ exists new, tx' = tx ++ new /\ Forall (full_batch Q b0) new /\
    flushed new ++ values b' = values b ++ vs /\
    valueCount b' + batchSize b0 * Z.of_nat (length new) = valueCount b + 1.
Proof.
  intros Hbs [Hb [[pend [Hv [Hc HQ]]] Hlt]] Hvs HA.
  unfold Add, Flush in HA. cbn [batchSize valueCount values set_buffer] in HA.
  rewrite Hb in HA. cbn [batchSize valueCount values set_buffer] in HA.
  destruct (batchSize b0 <=? valueCount b + 1) eqn:Hfull.
  - apply Z.leb_le in Hfull.
    assert ((valueCount b + 1 =? 0) = false) as Hz by (apply Z.eqb_neq; lia).
    rewrite Hz in HA.
    destruct (exec_ok _ _) eqn:Hex; [|discriminate]. injection HA as <- <-.
    split.
    + split; [reflexivity|]. split; [exists []; split; [reflexivity|split; [reflexivity|constructor]]|]. cbn. lia.
    + eexists. split; [reflexivity|]. split.
      * constructor; [|constructor]. exists (pend ++ [vs]). split.
        { apply Forall_app; split; [exact HQ|constructor; [exact Hvs|constructor]]. }
        split.
        { rewrite length_app. cbn. lia. }
        { rewrite concat_app. cbn. rewrite app_nil_r, <- Hv.
          replace (batchSize b0) with (valueCount b + 1) by lia. reflexivity. }
      * split; [unfold flushed; cbn; rewrite !app_nil_r; reflexivity|]. cbn. lia.
  - apply Z.leb_gt in Hfull. injection HA as <- <-. split.
    + split; [reflexivity|]. split; [|cbn; lia].
      exists (pend ++ [vs]). cbn. rewrite concat_app, length_app. cbn.
      rewrite app_nil_r, Hv. split; [reflexivity|]. split; [lia|].
      apply Forall_app; split; [exact HQ|constructor; [exact Hvs|constructor]].
    + exists []. rewrite app_nil_r. split; [reflexivity|]. split; [constructor|].
      split; [reflexivity|]. cbn. lia.
Qed.

Lemma add_all_inv (rows : list (list V)) (b : batchInserter V) tx b' tx' :
  0 < batchSize b0 -> binv b -> Forall Q rows ->
  add_all exec_ok b rows tx = (Ok tt, b', tx') ->
  binv b' /\ exists new, tx' = tx ++ new /\ Forall (full_batch Q b0) new /\
    flushed new ++ values b' = values b ++ List.concat rows /\
    valueCount b' + batchSize b0 * Z.of_nat (length new) = valueCount b + Z.of_nat (length rows).
Proof.
  intros Hbs. revert b tx. induction rows as [|r rows IH]; intros b tx Hb HQ H.
  - cbn in H. injection H as <- <-. split; [exact Hb|]. exists [].
    rewrite !app_nil_r. split; [reflexivity|]. split; [constructor|]. split; [reflexivity|].
    cbn. lia.
  - inversion HQ as [|? ? Hr Hrows]; subst. cbn [add_all] in H.
    destruct (Add exec_ok b r tx) as [[[[]|e] b1] tx1] eqn:HA; [|discriminate].
    destruct (Add_step b r tx b1 tx1 Hbs Hb Hr HA) as [Hb1 [n1 [-> [Hn1 [Hf1 Hc1]]]]].
    destruct (IH b1 (tx ++ n1) Hb1 Hrows H) as [Hb' [n2 [-> [Hn2 [Hf2 Hc2]]]]].
    split; [exact Hb'|]. exists (n1 ++ n2). split; [symmetry; apply app_assoc|].
    split; [apply Forall_app; split; assumption|]. split.
    + rewrite flushed_app, <- app_assoc, Hf2, app_assoc, Hf1. cbn. rewrite <- app_assoc. reflexivity.
    + rewrite length_app. cbn [length]. lia.
Qed.
End Inv.
End BatchFacts.

Module BatchClaims.
Import Auxiliary GoFmt Importer ImporterFacts ImporterClaims BatchFacts.

Lemma length_concat_uniform {V} (a : Z) (pend : list (list V)) :
  Forall (fun r => Z.of_nat (length r) = a) pend ->
  Z.of_nat (length (List.concat pend)) = Z.of_nat (length pend) * a.
Proof.
  induction 1 as [|r pend Hr _ IH]; [reflexivity|].
  cbn [List.concat length]. rewrite length_app. lia.
Qed.

(** X4: Suppose n rows are added to a new batchInserter and every Add succeeds. Then exactly n/1000 INSERT statements have run, n mod 1000 rows are buffered, and the executed values followed by the buffer are all the rows in order. A successful Flush afterwards has executed every row exactly once and leaves an empty buffer. *)
Theorem batch_rows_exactly_once {V} (exec_ok : string -> list V -> bool)
    (t : string) (fc : Z) (rows : list (list V)) b' tx' r b'' tx'' :
  add_all exec_ok (newBatchInserter t fc) rows [] = (Ok tt, b', tx') ->
  Flush exec_ok b' tx' = (r, b'', tx'') ->
  Z.of_nat (length tx') = Z.of_nat (length rows) / 1000 /\
  valueCount b' = Z.of_nat (length rows) mod 1000 /\
  flushed tx' ++ values b' = List.concat rows /\
  (r = Ok tt -> flushed tx'' = List.concat rows /\ values b'' = [] /\ valueCount b'' = 0).
Proof.
  intros HA HF.
  assert (Hb0 : binv (fun _ => True) (newBatchInserter (value := V) t fc) (newBatchInserter t fc)).
  { split; [reflexivity|]. split; [|cbn; lia]. exists []. split; [reflexivity|].
    split; [reflexivity|constructor]. }
  destruct (add_all_inv exec_ok (fun _ => True) (newBatchInserter t fc) rows _ [] b' tx'
              ltac:(cbn; lia) Hb0 (Forall_true _ _ (fun _ => I)) HA)
    as [[Hb' [[pend [Hv [Hc _]]] Hlt]] [new [Htx [_ [Hf Hcount]]]]].
  cbn [app] in Htx. subst tx'. cbn [values valueCount batchSize newBatchInserter] in *.
  rewrite app_nil_l in Hf.
  assert (Hq : Z.of_nat (length new) = Z.of_nat (length rows) / 1000).
  { apply (Z.div_unique _ _ _ (valueCount b')); lia. }
  assert (Hm : valueCount b' = Z.of_nat (length rows) mod 1000).
  { apply (Z.mod_unique _ _ (Z.of_nat (length new))); lia. }
  split; [exact Hq|]. split; [exact Hm|]. split; [exact Hf|].
  intros ->. unfold Flush in HF.
  destruct (valueCount b' =? 0) eqn:Hz.
  - injection HF as <- <-. apply Z.eqb_eq in Hz.
    destruct pend; [|cbn in Hc; lia]. cbn in Hv.
    rewrite Hv, app_nil_r in Hf. rewrite Hv. auto.
  - destruct (exec_ok _ _); [|discriminate]. injection HF as <- <-.
    rewrite flushed_app. unfold flushed at 2. cbn. rewrite app_nil_r. auto.
Qed.

(** X5: For a table Import writes, with rows of its callback's arity, every executed batch statement has placeholders $1 .. $(1000*fieldCount) and 1000*arity bound values. The column list has the arity's length. The fieldCount given to newBatchInserter differs from the arity exactly for agency, stops, routes, calendar, shapes, trips and stop_times. *)
Theorem Import_batch_statements {V} (exec_ok : string -> list V -> bool)
    (t : string) (fc : Z) (rows : list (list V)) b' tx' :
  In (t, fc) import_batches ->
  Forall (fun r => Z.of_nat (length r) = callback_arity t) rows ->
  add_all exec_ok (newBatchInserter t fc) rows [] = (Ok tt, b', tx') ->
  Z.of_nat (length (getColumnsForTable t)) = callback_arity t /\
  Forall (fun e => placeholders (fst e) = seqZ 1 (1000 * fc) /\
                   Z.of_nat (length (snd e)) = 1000 * callback_arity t) tx' /\
  placeholders (buildInsertQuery b') = seqZ 1 (valueCount b' * fc) /\
  Z.of_nat (length (values b')) = valueCount b' * callback_arity t /\
  (fc <> callback_arity t <->
   t ∈ ["agency"; "stops"; "routes"; "calendar"; "shapes"; "trips"; "stop_times"]%string).
Proof.
  intros Hin Hrows HA.
  assert (Hk : str_all nodollar t = true /\
               Forall (fun c => str_all nodollar c = true) (getColumnsForTable t) /\
               0 <= fc /\ Z.of_nat (length (getColumnsForTable t)) = callback_arity t /\
               (fc <> callback_arity t <->
                t ∈ ["agency"; "stops"; "routes"; "calendar"; "shapes"; "trips"; "stop_times"]%string)).
  { cbn in Hin. repeat destruct Hin as [Hin|Hin]; try contradiction;
      injection Hin as <- <-;
      (split; [reflexivity|]); (split; [repeat constructor|]); (split; [lia|]);
      (split; [reflexivity|]);
      cbn [callback_arity];
      split; intros H;
      first [ lia | (exfalso; lia)
            | solve [apply list_elem_of_In; cbn; repeat first [left; reflexivity | right]]
            | (apply list_elem_of_In in H; cbn in H; repeat destruct H as [H|H];
               try discriminate; contradiction) ]. }
  destruct Hk as (Ht & Hcols & Hfc & Harity & Hdiff).
  set (b0 := newBatchInserter (value := V) t fc).
  assert (Hb0 : binv (fun r => Z.of_nat (length r) = callback_arity t) b0 b0).
  { split; [reflexivity|]. split; [|cbn; lia]. exists []. split; [reflexivity|].
    split; [reflexivity|constructor]. }
  destruct (add_all_inv exec_ok _ b0 rows b0 [] b' tx' ltac:(cbn; lia) Hb0 Hrows HA)
    as [[Hb' [[pend [Hv [Hc Hpend]]] Hlt]] [new [Htx [Hnew _]]]].
  cbn [app] in Htx. subst tx'.
  split; [exact Harity|]. split; [|split; [|split; [|exact Hdiff]]].
  - eapply Forall_impl; [exact Hnew|]. intros e (p & Hp & Hlen & ->). cbn [fst snd].
    split.
    + rewrite buildInsertQuery_placeholders_seq; cbn; try assumption; try lia. reflexivity.
    + rewrite (length_concat_uniform _ _ Hp), Hlen. cbn. lia.
  - rewrite Hb'. rewrite buildInsertQuery_placeholders_seq; cbn; try assumption; try lia.
    reflexivity.
  - rewrite Hv, (length_concat_uniform _ _ Hpend), Hc. reflexivity.
Qed.

End BatchClaims.

Module Witnesses.
Import GoFmt Importer BatchClaims ImporterClaims TimeFacts.

Lemma parseGTFSTime_rt_fields_witness :
  GTFSTime.parseGTFSTime_rt (Itoa 25 ++ ":" ++ Itoa (-30) ++ ":" ++ Itoa 75)%string
  = Ok (Some (Go.int32 (25 * 3600 + -30 * 60 + 75))).
Proof. apply parseGTFSTime_rt_fields; lia. Defined.

Lemma buildInsertQuery_placeholders_witness :
  placeholders (buildInsertQuery (mkBatch "stops" (getColumnsForTable "stops") ([] : list Z) 2 1000 8))
  = seqZ 1 (2 * 8).
Proof.
  apply (buildInsertQuery_placeholders (mkBatch "stops" (getColumnsForTable "stops") ([] : list Z) 2 1000 8));
    cbn; [reflexivity|repeat constructor|lia|lia].
Defined.

Lemma batch_rows_exactly_once_witness :
  exists b' tx' b'' tx'',
  add_all (fun _ _ => true) (newBatchInserter "levels" 5) [[1; 2]; [3]; [4; 5]] [] = (Ok tt, b', tx') /\
  Flush (fun _ _ => true) b' tx' = (Ok tt, b'', tx'') /\
  Z.of_nat (length tx') = 3 / 1000 /\ valueCount b' = 3 mod 1000 /\
  flushed tx' ++ values b' = [1; 2; 3; 4; 5] /\
  (Ok tt = Ok tt -> flushed tx'' = [1; 2; 3; 4; 5] /\ values b'' = [] /\ valueCount b'' = 0).
Proof.
  do 4 eexists. split; [reflexivity|]. split; [reflexivity|].
  exact (batch_rows_exactly_once (fun _ _ => true) "levels" 5 [[1; 2]; [3]; [4; 5]] _ _ _ _ _
           eq_refl eq_refl).
Defined.

Lemma Import_batch_statements_witness :
  exists b' tx',
  add_all (fun _ _ => true) (newBatchInserter "agency" 6) [[1; 2; 3; 4; 5; 6; 7; 8]] [] = (Ok tt, b', tx') /\
  Z.of_nat (length (getColumnsForTable "agency")) = callback_arity "agency" /\
  Forall (fun e => placeholders (fst e) = seqZ 1 (1000 * 6) /\
                   Z.of_nat (length (snd e)) = 1000 * callback_arity "agency") tx' /\
  placeholders (buildInsertQuery b') = seqZ 1 (valueCount b' * 6) /\
  Z.of_nat (length (values b')) = valueCount b' * callback_arity "agency" /\
  (6 <> callback_arity "agency" <->
   "agency"%string ∈ ["agency"; "stops"; "routes"; "calendar"; "shapes"; "trips"; "stop_times"]%string).
Proof.
  do 2 eexists. split; [reflexivity|].
  apply (Import_batch_statements (fun _ _ => true) "agency" 6 [[1; 2; 3; 4; 5; 6; 7; 8]]).
  - left. reflexivity.
  - repeat constructor.
  - reflexivity.
Defined.

End Witnesses.

Module DateFacts.
Import GoFmt GoFmtFacts Parser.
Local Arguments String.append : simpl nomatch.

Lemma isDigit_digitVal (c : ascii) : Go.isDigit c = true ->
  0 <= Go.digitVal c <= 9 /\ digit_char (Go.digitVal c) = c.
Proof.
  unfold Go.isDigit, Go.digitVal, digit_char. intros H.
  apply andb_true_iff in H as [H1 H2]. apply Nat.leb_le in H1, H2.
  split; [lia|].
  replace (48 + Z.to_nat (Z.of_nat (nat_of_ascii c) - 48))%nat with (nat_of_ascii c) by lia.
  apply ascii_nat_embedding.
Qed.

Lemma substring_whole (s : string) : String.substring 0 (String.length s) s = s.
Proof. induction s as [|c s IH]; [reflexivity|]. cbn. rewrite IH. reflexivity. Qed.

Lemma getnum_fixed (s : string) (v : Z) (r : string) :
  GTFSTime.getnum s true = Some (v, r) ->
  exists a b, s = String a (String b r) /\ Go.isDigit a = true /\ Go.isDigit b = true /\
              v = Go.digitVal a * 10 + Go.digitVal b.
Proof.
  unfold GTFSTime.getnum. destruct s as [|a [|b s]]; [discriminate| |].
  - destruct (negb (Go.isDigit a)); discriminate.
  - destruct (Go.isDigit a) eqn:Ha; [|discriminate]. cbn.
    destruct (Go.isDigit b) eqn:Hb; [|discriminate]. intros H. injection H as <- <-.
    exists a, b. auto.
Qed.

Lemma digit_char_ok' (d : Z) : 0 <= d < 10 -> Go.isDigit (digit_char d) = true.
Proof. intros H. apply (digit_char_ok d H). Qed.

Lemma digit_val' (d : Z) : 0 <= d < 10 -> Go.digitVal (digit_char d) = d.
Proof. intros H. apply (digit_char_ok d H). Qed.

Theorem time_Parse_date_spec (value : string) (year month day : Z) :
  time_Parse_date value = Some (year, month, day) <->
  value = yyyymmdd year month day /\ 0 <= year <= 9999 /\
  1 <= month <= 12 /\ 1 <= day <= daysIn month year.
Proof.
  split.
  - unfold time_Parse_date. destruct value as [|c0 v]; [discriminate|].
    destruct (Nat.ltb _ 4 || negb (Go.isDigit c0)) eqn:E; [discriminate|].
    apply orb_false_iff in E as [El Ec]. apply negb_false_iff in Ec.
    destruct v as [|c1 [|c2 [|c3 rest]]]; try discriminate.
    cbn [String.substring String.length Nat.sub].
    replace (String.substring 0 0 rest) with ""%string by (destruct rest; reflexivity).
    rewrite Nat.sub_0_r, substring_whole.
    unfold Go.parse_digits. cbn [Go.digits_value]. rewrite Ec.
    destruct (Go.isDigit c1) eqn:E1; [|discriminate].
    destruct (Go.isDigit c2) eqn:E2; [|discriminate].
    destruct (Go.isDigit c3) eqn:E3; [|discriminate].
    destruct (GTFSTime.getnum rest true) as [[mo r1]|] eqn:Hm; [|discriminate].
    destruct ((mo <=? 0) || (12 <? mo)) eqn:Hmr; [discriminate|].
    destruct (GTFSTime.getnum r1 true) as [[dy r2]|] eqn:Hd; [|discriminate].
    destruct (negb (String.eqb r2 "")) eqn:Hr2; [discriminate|].
    destruct ((dy <? 1) || (daysIn mo _ <? dy)) eqn:Hdr; [discriminate|].
    intros H. injection H as <- <- <-.
    apply negb_false_iff, String.eqb_eq in Hr2. subst r2.
    apply orb_false_iff in Hmr as [Hm1 Hm2]. apply Z.leb_gt in Hm1. apply Z.ltb_ge in Hm2.
    apply orb_false_iff in Hdr as [Hd1 Hd2]. apply Z.ltb_ge in Hd1, Hd2.
    destruct (getnum_fixed _ _ _ Hm) as (a & b & -> & Ha & Hb & ->).
    destruct (getnum_fixed _ _ _ Hd) as (e & f & -> & He & Hf & ->).
    destruct (isDigit_digitVal _ Ec) as [B0 D0]. destruct (isDigit_digitVal _ E1) as [B1 D1].
    destruct (isDigit_digitVal _ E2) as [B2 D2]. destruct (isDigit_digitVal _ E3) as [B3 D3].
    destruct (isDigit_digitVal _ Ha) as [Ba Da]. destruct (isDigit_digitVal _ Hb) as [Bb Db].
    destruct (isDigit_digitVal _ He) as [Be De]. destruct (isDigit_digitVal _ Hf) as [Bf Df].
    split; [|split; [lia|split; lia]].
    unfold yyyymmdd.
    remember (Go.digitVal c0) as v0. remember (Go.digitVal c1) as v1.
    remember (Go.digitVal c2) as v2. remember (Go.digitVal c3) as v3.
    remember (Go.digitVal a) as va. remember (Go.digitVal b) as vb.
    remember (Go.digitVal e) as ve. remember (Go.digitVal f) as vf.
    assert (Y1 : (((0 * 10 + v0) * 10 + v1) * 10 + v2) * 10 + v3 = 1000 * v0 + 100 * v1 + 10 * v2 + v3) by lia.
    rewrite Y1.
    assert (Q1 : (1000 * v0 + 100 * v1 + 10 * v2 + v3) / 1000 = v0) by (Z.div_mod_to_equations; lia).
    assert (Q2 : (1000 * v0 + 100 * v1 + 10 * v2 + v3) / 100 mod 10 = v1) by (Z.div_mod_to_equations; lia).
    assert (Q3 : (1000 * v0 + 100 * v1 + 10 * v2 + v3) / 10 mod 10 = v2) by (Z.div_mod_to_equations; lia).
    assert (Q4 : (1000 * v0 + 100 * v1 + 10 * v2 + v3) mod 10 = v3) by (Z.div_mod_to_equations; lia).
    assert (Q5 : (va * 10 + vb) / 10 = va) by (Z.div_mod_to_equations; lia).
    assert (Q6 : (va * 10 + vb) mod 10 = vb) by (Z.div_mod_to_equations; lia).
    assert (Q7 : (ve * 10 + vf) / 10 = ve) by (Z.div_mod_to_equations; lia).
    assert (Q8 : (ve * 10 + vf) mod 10 = vf) by (Z.div_mod_to_equations; lia).
    rewrite Q1, Q2, Q3, Q4, Q5, Q6, Q7, Q8. subst. rewrite D0, D1, D2, D3, Da, Db, De, Df.
    reflexivity.
  - intros (-> & Hy & Hm & Hd). unfold yyyymmdd, time_Parse_date.
    assert (B : forall k, 0 <= k < 10 -> Go.isDigit (digit_char k) = true /\ Go.digitVal (digit_char k) = k)
      by exact digit_char_ok.
    destruct (B (year / 1000) ltac:(Z.div_mod_to_equations; lia)) as [I0 V0].
    destruct (B (year / 100 mod 10) ltac:(Z.div_mod_to_equations; lia)) as [I1 V1].
    destruct (B (year / 10 mod 10) ltac:(Z.div_mod_to_equations; lia)) as [I2 V2].
    destruct (B (year mod 10) ltac:(Z.div_mod_to_equations; lia)) as [I3 V3].
    destruct (B (month / 10) ltac:(Z.div_mod_to_equations; lia)) as [I4 V4].
    destruct (B (month mod 10) ltac:(Z.div_mod_to_equations; lia)) as [I5 V5].
    assert (Hd' : 1 <= day <= 31).
    { assert (daysIn month year <= 31); [|lia].
      assert (month = 1 \/ month = 2 \/ month = 3 \/ month = 4 \/ month = 5 \/ month = 6 \/
              month = 7 \/ month = 8 \/ month = 9 \/ month = 10 \/ month = 11 \/ month = 12)
        as Hmc by lia.
      apply Z.leb_le.
      repeat destruct Hmc as [Hmc|Hmc]; subst month; unfold daysIn; destruct (isLeap year); vm_compute; reflexivity. }
    destruct (B (day / 10) ltac:(Z.div_mod_to_equations; lia)) as [I6 V6].
    destruct (B (day mod 10) ltac:(Z.div_mod_to_equations; lia)) as [I7 V7].
    cbn [String.length Nat.ltb Nat.leb orb negb String.substring Nat.sub].
    rewrite I0. cbn [negb orb].
    unfold Go.parse_digits. cbn [Go.digits_value]. rewrite I0, I1, I2, I3, V0, V1, V2, V3.
    unfold GTFSTime.getnum. rewrite I4, I5. cbn [negb]. rewrite I6, I7. cbn [negb].
    rewrite V4, V5, V6, V7.
    assert (E1 : (((0 * 10 + year / 1000) * 10 + year / 100 mod 10) * 10 + year / 10 mod 10) * 10
                 + year mod 10 = year) by (Z.div_mod_to_equations; lia).
    assert (E2 : month / 10 * 10 + month mod 10 = month) by (Z.div_mod_to_equations; lia).
    assert (E3 : day / 10 * 10 + day mod 10 = day) by (Z.div_mod_to_equations; lia).
    rewrite E1, E2, E3.
    assert (((month <=? 0) || (12 <? month)) = false) as -> by (apply orb_false_iff; split; [apply Z.leb_gt|apply Z.ltb_ge]; lia).
    assert (((day <? 1) || (daysIn month year <? day)) = false) as -> by (apply orb_false_iff; split; apply Z.ltb_ge; lia).
    reflexivity.
Qed.
End DateFacts.

Module ParserFacts.
Import Static Parser.
Local Arguments String.append : simpl nomatch.

Lemma fileMap_snoc (files : list zfile) (f : zfile) :
  fileMap (files ++ [f]) = <[zname f := f]> (fileMap files).
Proof. unfold fileMap. rewrite fold_left_app. reflexivity. Qed.

Lemma fileMap_lookup (files : list zfile) (n : string) :
  fileMap files !! n = last_named files n.
Proof.
  unfold last_named. induction files as [|f files IH] using rev_ind.
  - apply fin_maps.lookup_empty.
  - rewrite fileMap_snoc, List.filter_app, last_app. cbn [List.filter].
    destruct (String.eqb (zname f) n) eqn:E.
    + apply String.eqb_eq in E. subst n. apply fin_maps.lookup_insert_eq.
    + apply String.eqb_neq in E. rewrite fin_maps.lookup_insert_ne by exact E. exact IH.
Qed.

Lemma last_named_name (files : list zfile) (n : string) (f : zfile) :
  last_named files n = Some f -> zname f = n.
Proof.
  unfold last_named. intros H. apply last_Some in H as [l' Hl].
  assert (Hin : In f (List.filter (fun f => String.eqb (zname f) n) files))
    by (rewrite Hl; apply in_or_app; right; left; reflexivity).
  apply filter_In in Hin as [_ Hin]. apply String.eqb_eq, Hin.
Qed.

Lemma omap_cons {A B} (g : A -> option B) (x : A) (l : list A) :
  omap g (x :: l) = match g x with Some y => y :: omap g l | None => omap g l end.
Proof. reflexivity. Qed.

Lemma order_loop_spec (pf : zfile -> res unit) (files : list zfile) (order : list string)
    (i : nat) (trace : list zfile) (r : res unit) :
  order_loop pf (fun _ => false) i order (fileMap files) = (trace, r) ->
  let fs := omap (last_named files) order in
  (r = Ok tt /\ trace = fs /\ Forall (fun f => pf f = Ok tt) fs) \/
  (exists pre f post e, fs = pre ++ f :: post /\ trace = pre ++ [f] /\
     Forall (fun f => pf f = Ok tt) pre /\ pf f = Err e /\
     r = Err ("parsing " ++ zname f ++ ": " ++ e)%string).
Proof.
  revert i trace r. induction order as [|n order IH]; intros i trace r H; cbn zeta.
  - cbn in H. injection H as <- <-. left. auto.
  - cbn [order_loop] in H. rewrite omap_cons. rewrite fileMap_lookup in H.
    destruct (last_named files n) as [f|] eqn:Hf.
    + pose proof (last_named_name _ _ _ Hf) as Hn.
      destruct (pf f) as [[]|e] eqn:Hpf.
      * destruct (order_loop pf (fun _ => false) (S i) order (fileMap files)) as [fs' r'] eqn:Hl.
        injection H as <- <-.
        destruct (IH _ _ _ Hl) as [(-> & -> & Hall) | (pre & g & post & e & Hfs & -> & Hpre & Hg & ->)].
        -- left. split; [reflexivity|]. split; [reflexivity|]. constructor; assumption.
        -- right. exists (f :: pre), g, post, e. rewrite Hfs. cbn.
           split; [reflexivity|]. split; [reflexivity|]. split; [constructor; assumption|].
           split; auto.
      * injection H as <- <-. right. exists [], f, (omap (last_named files) order), e.
        cbn. rewrite Hn. auto.
    + exact (IH _ _ _ H).
Qed.

(** X12: Without cancellation, parseStandardGTFS parses the files in its fixed order, skipping missing names and taking the last archive entry of each name. It stops at the first file that fails, with the error parsing <name>: <err>, and parses no later file. *)
Theorem parseStandardGTFS_order (pf : zfile -> res unit) (files : list zfile)
    (trace : list zfile) (r : res unit) :
  parseStandardGTFS pf (fun _ => false) files = (trace, r) ->
  let fs := omap (last_named files) parseOrder in
  (r = Ok tt /\ trace = fs /\ Forall (fun f => pf f = Ok tt) fs) \/
  (exists pre f post e, fs = pre ++ f :: post /\ trace = pre ++ [f] /\
     Forall (fun f => pf f = Ok tt) pre /\ pf f = Err e /\
     r = Err ("parsing " ++ zname f ++ ": " ++ e)%string).
Proof. apply order_loop_spec. Qed.

Lemma records_loop_spec (cs : string -> bool) (call : string -> csv_record -> header_map -> res unit)
    (name : string) (hm : header_map) (recs : list csv_record) (ds : list csv_record) (r : res unit) :
  records_loop cs call name hm recs = (ds, r) ->
  let eligible := if existsb (String.eqb name) dispatched && cs name
                  then List.filter (fun x => record_parses name x hm) recs else [] in
  (r = Ok tt /\ ds = eligible /\ Forall (fun x => call name x hm = Ok tt) eligible) \/
  (exists pre x post e, eligible = pre ++ x :: post /\ ds = pre ++ [x] /\
     Forall (fun x => call name x hm = Ok tt) pre /\ call name x hm = Err e /\ r = Err e).
Proof.
  revert ds r. induction recs as [|x recs IH]; intros ds r H; cbn zeta.
  - cbn in H. injection H as <- <-. left. destruct (_ && _); auto.
  - cbn [records_loop] in H. destruct (existsb (String.eqb name) dispatched && cs name) eqn:Hd.
    + cbn [List.filter]. destruct (record_parses name x hm) eqn:Hp; cbn [negb] in H.
      * destruct (call name x hm) as [[]|e] eqn:Hc.
        -- destruct (records_loop cs call name hm recs) as [ds' r'] eqn:Hl.
           injection H as <- <-. specialize (IH _ _ eq_refl). cbn zeta in IH. try rewrite Hd in IH.
           destruct IH as [(-> & -> & Hall) | (pre & y & post & e & Hfs & -> & Hpre & Hy & ->)].
           ++ left. split; [reflexivity|]. split; [reflexivity|]. constructor; assumption.
           ++ right. exists (x :: pre), y, post, e. rewrite Hfs. cbn.
              split; [reflexivity|]. split; [reflexivity|]. split; [constructor; assumption|].
              split; auto.
        -- injection H as <- <-. right. exists [], x, (List.filter (fun x => record_parses name x hm) recs), e.
           cbn. auto.
      * specialize (IH _ _ H). cbn zeta in IH. try rewrite Hd in IH. exact IH.
    + specialize (IH _ _ H). cbn zeta in IH. try rewrite Hd in IH. exact IH.
Qed.

End ParserFacts.

Module HeaderFacts.
Import Auxiliary GoFmt GoFmtFacts Static Parser.
Local Arguments String.append : simpl nomatch.

Lemma header_loop_app (l1 l2 : csv_record) (i : nat) (m : header_map) :
  header_loop i (l1 ++ l2) m = header_loop (i + length l1) l2 (header_loop i l1 m).
Proof.
  revert i m. induction l1 as [|h l1 IH]; intros i m; cbn.
  - rewrite Nat.add_0_r. reflexivity.
  - rewrite IH. f_equal. lia.
Qed.

Lemma header_loop_notin (l : csv_record) (i : nat) (m : header_map) (k : string) :
  Forall (fun h => Go.TrimSpace h <> k) l -> header_loop i l m !! k = m !! k.
Proof.
  revert i m. induction l as [|h l IH]; intros i m Hl; [reflexivity|].
  inversion Hl as [|? ? Hh Hl']; subst. cbn. rewrite IH by exact Hl'.
  apply fin_maps.lookup_insert_ne. exact Hh.
Qed.

Lemma build_header_last (pre post : csv_record) (h k : string) :
  Go.TrimSpace h = k -> Forall (fun h' => Go.TrimSpace h' <> k) post ->
  build_header (pre ++ h :: post) !! k = Some (length pre).
Proof.
  intros Hh Hp. unfold build_header. rewrite header_loop_app. cbn [header_loop].
  rewrite header_loop_notin by exact Hp. rewrite Hh. apply fin_maps.lookup_insert_eq.
Qed.

(** [strings.TrimSpace] on padded input. *)
Lemma trim_left_spaces (sp u : string) :
  str_all Go.isSpace sp = true -> Go.trim_left (sp ++ u) = Go.trim_left u.
Proof.
  induction sp as [|c sp IH]; intros H; [reflexivity|].
  cbn [str_all] in H. apply andb_true_iff in H as [Hc Hs].
  cbn [String.append Go.trim_left]. rewrite Hc. apply IH, Hs.
Qed.

Lemma trim_left_nonspace (t : string) :
  str_all nonspace t = true -> Go.trim_left t = t.
Proof.
  destruct t as [|c t]; intros H; [reflexivity|].
  cbn [str_all] in H. apply andb_true_iff in H as [Hc _]. unfold nonspace in Hc.
  apply negb_true_iff in Hc. cbn. rewrite Hc. reflexivity.
Qed.

Lemma rev_string_acc (s acc : string) :
  Go.rev_string s acc = (Go.rev_string s "" ++ acc)%string.
Proof.
  revert acc. induction s as [|c s IH]; intros acc; [reflexivity|].
  cbn [Go.rev_string]. rewrite (IH (String c acc)), (IH (String c "")).
  rewrite <- string_app_assoc. reflexivity.
Qed.

Lemma string_app_empty (s : string) : (s ++ "")%string = s.
Proof. induction s as [|c s IH]; [reflexivity|]. cbn. rewrite IH. reflexivity. Qed.

Lemma rev_string_app (a b : string) :
  Go.rev_string (a ++ b) "" = (Go.rev_string b "" ++ Go.rev_string a "")%string.
Proof.
  revert b. induction a as [|c a IH]; intros b.
  - cbn. symmetry. apply string_app_empty.
  - cbn [String.append Go.rev_string]. rewrite rev_string_acc, IH.
    rewrite (rev_string_acc a (String c "")). rewrite string_app_assoc. reflexivity.
Qed.

Lemma str_all_rev (f : ascii -> bool) (s : string) :
  str_all f (Go.rev_string s "") = str_all f s.
Proof.
  induction s as [|c s IH]; [reflexivity|].
  cbn [Go.rev_string str_all]. rewrite rev_string_acc, ImporterFacts.str_all_app, IH.
  cbn. rewrite andb_true_r. apply andb_comm.
Qed.

Lemma rev_rev (s : string) : Go.rev_string (Go.rev_string s "") "" = s.
Proof.
  induction s as [|c s IH]; [reflexivity|].
  cbn [Go.rev_string]. rewrite (rev_string_acc s (String c "")), rev_string_app, IH. reflexivity.
Qed.

Lemma trim_left_start (t u : string) :
  t <> ""%string -> str_all nonspace t = true -> Go.trim_left (t ++ u) = (t ++ u)%string.
Proof.
  destruct t as [|c t]; intros Hne H; [congruence|].
  cbn [str_all] in H. apply andb_true_iff in H as [Hc _]. unfold nonspace in Hc.
  apply negb_true_iff in Hc. cbn. rewrite Hc. reflexivity.
Qed.

Lemma TrimSpace_padded (sp1 t sp2 : string) :
  str_all Go.isSpace sp1 = true -> str_all Go.isSpace sp2 = true ->
  str_all nonspace t = true ->
  Go.TrimSpace (sp1 ++ t ++ sp2) = t.
Proof.
  intros H1 H2 Ht. unfold Go.TrimSpace. rewrite trim_left_spaces by exact H1.
  destruct (String.eqb_spec t "") as [->|Hne].
  - cbn [String.append]. rewrite <- (string_app_empty sp2), trim_left_spaces by exact H2. reflexivity.
  - rewrite trim_left_start by assumption. rewrite rev_string_app.
    rewrite trim_left_spaces by (rewrite str_all_rev; exact H2).
    rewrite trim_left_nonspace by (rewrite str_all_rev; exact Ht).
    apply rev_rev.
Qed.

Lemma digits_nonspace (s : string) :
  str_all Go.isDigit s = true -> str_all nonspace s = true.
Proof.
  induction s as [|c s IH]; simpl; [reflexivity|].
  intros H. apply andb_true_iff in H as [Hc Hs]. rewrite IH by exact Hs.
  unfold nonspace, Go.isSpace, Go.isDigit in *.
  apply andb_true_iff in Hc as [Ha Hb]. apply Nat.leb_le in Ha, Hb.
  destruct (Nat.eqb_spec (Ascii.nat_of_ascii c) 32); [lia|].
  destruct (Nat.leb_spec 9 (Ascii.nat_of_ascii c)); destruct (Nat.leb_spec (Ascii.nat_of_ascii c) 13);
    cbn; try reflexivity; lia.
Qed.

Lemma Itoa_nonspace (n : Z) : str_all nonspace (Itoa n) = true.
Proof.
  unfold Itoa. destruct (n <? 0) eqn:Hn.
  - apply Z.ltb_lt in Hn. destruct (utoa_value (- n) ltac:(lia)) as [Hv _].
    cbn [str_all]. apply digits_nonspace, (digits_value_all _ _ _ Hv).
  - apply Z.ltb_ge in Hn. destruct (utoa_value n Hn) as [Hv _].
    apply digits_nonspace, (digits_value_all _ _ _ Hv).
Qed.

Lemma Itoa_nonempty (n : Z) : - 2^63 <= n < 2^63 -> Itoa n <> ""%string.
Proof.
  intros Hr He. pose proof (Atoi_Itoa n Hr) as Ha. rewrite He in Ha. discriminate Ha.
Qed.

End HeaderFacts.

Module HeaderClaims.
Import Auxiliary GoFmt GoFmtFacts Static Parser HeaderFacts.
Local Arguments String.append : simpl nomatch.

(** X7: When several header columns trim to the same name, getString reads the last of them. It returns that cell trimmed, or  when the record is shorter. *)
Theorem getString_last_column (pre post record : csv_record) (h k : string) :
  Go.TrimSpace h = k -> Forall (fun h' => Go.TrimSpace h' <> k) post ->
  getString record (build_header (pre ++ h :: post)) k =
  match record !! length pre with Some v => Go.TrimSpace v | None => ""%string end.
Proof.
  intros Hh Hp. unfold getString. rewrite (build_header_last pre post h k Hh Hp). reflexivity.
Qed.

(** X8: getString returns the empty string for a field that no header column names, whatever the record holds. *)
Theorem getString_missing_column (header record : csv_record) (k : string) :
  Forall (fun h => Go.TrimSpace h <> k) header ->
  getString record (build_header header) k = ""%string.
Proof.
  intros Hh. unfold getString, build_header. rewrite header_loop_notin by exact Hh.
  reflexivity.
Qed.

(** X9: getInt returns v when the field's cell is an int64 v in decimal, possibly surrounded by whitespace. The default is then ignored. *)
Theorem getInt_padded (record : csv_record) (hm : header_map) (field : string) (j : nat)
    (sp1 sp2 : string) (v d : Z) :
  hm !! field = Some j -> record !! j = Some (sp1 ++ Itoa v ++ sp2)%string ->
  str_all Go.isSpace sp1 = true -> str_all Go.isSpace sp2 = true ->
  - 2^63 <= v < 2^63 ->
  getInt record hm field d = v.
Proof.
  intros Hf Hj H1 H2 Hr. unfold getInt, getString. rewrite Hf, Hj.
  rewrite TrimSpace_padded by (assumption || apply Itoa_nonspace).
  destruct (String.eqb_spec (Itoa v) "") as [He|_]; [exfalso; exact (Itoa_nonempty v Hr He)|].
  rewrite Atoi_Itoa by exact Hr. reflexivity.
Qed.

Lemma time_Parse_date_some (s : string) :
  (exists x, time_Parse_date s = Some x) <-> valid_date s.
Proof.
  split.
  - intros [[[y m] d] H]. apply DateFacts.time_Parse_date_spec in H. exists y, m, d. exact H.
  - intros (y & m & d & H). exists (y, m, d). apply DateFacts.time_Parse_date_spec. exact H.
Qed.

(** X6: A calendar.txt record reaches its callback iff its start_date and end_date fields are valid YYYYMMDD calendar days. A calendar_dates.txt record reaches it iff its date field is one. In every other case parseFile skips the record. *)
Theorem record_parses_dates (record : csv_record) (hm : header_map) :
  (record_parses "calendar.txt" record hm = true <->
     valid_date (getString record hm "start_date") /\ valid_date (getString record hm "end_date")) /\
  (record_parses "calendar_dates.txt" record hm = true <->
     valid_date (getString record hm "date")).
Proof.
  split.
  - unfold record_parses. cbn [String.eqb Ascii.eqb Bool.eqb]. unfold parseCalendar.
    rewrite <- !time_Parse_date_some.
    destruct (time_Parse_date (getString record hm "start_date")) as [x|];
    [destruct (time_Parse_date (getString record hm "end_date")) as [y|]|].
    + split; [intros _; split; eexists; reflexivity|reflexivity].
    + split; [discriminate|]. intros [_ [? H]]. discriminate H.
    + split; [discriminate|]. intros [[? H] _]. discriminate H.
  - unfold record_parses. cbn [String.eqb Ascii.eqb Bool.eqb]. unfold parseCalendarDate.
    rewrite <- !time_Parse_date_some.
    destruct (time_Parse_date (getString record hm "date")) as [x|].
    + split; [intros _; eexists; reflexivity|reflexivity].
    + split; [discriminate|]. intros [? H]. discriminate H.
Qed.

End HeaderClaims.

Module ParseFileClaims.
Import Static Parser.
Local Arguments String.append : simpl nomatch.

(** X10: When parseFile succeeds, the file opened, the CSV reader raised no error and the first record was the header. The records handed to callbacks are exactly the data records of a dispatched file with a non-nil callback that parse, in order, and all callbacks succeeded. OnFileComplete, if set, succeeded for the file. *)
Theorem parseFile_ok (cs : string -> bool) (call : string -> csv_record -> header_map -> res unit)
    (oc : option (string -> res unit)) (f : zfile) (ds : list csv_record) :
  parseFile cs call oc f = (ds, Ok tt) ->
  zopen_ok f = true /\ zread_err f = None /\
  exists header recs, zrecords f = header :: recs /\
    let hm := build_header header in
    ds = (if existsb (String.eqb (zname f)) dispatched && cs (zname f)
          then List.filter (fun x => record_parses (zname f) x hm) recs else []) /\
    Forall (fun x => call (zname f) x hm = Ok tt) ds /\
    (forall g, oc = Some g -> g (zname f) = Ok tt).
Proof.
  unfold parseFile. destruct (zopen_ok f); [|discriminate]. cbn [negb].
  destruct (zrecords f) as [|header recs]; [discriminate|].
  destruct (records_loop cs call (zname f) (build_header header) recs) as [ds' r] eqn:Hl.
  destruct r as [[]|e]; [|discriminate].
  destruct (zread_err f) as [e|]; [discriminate|].
  intros H. assert (ds' = ds /\ forall g, oc = Some g -> g (zname f) = Ok tt) as [<- Hoc].
  { destruct oc as [g|].
    - destruct (g (zname f)) as [[]|e] eqn:Hg; [|discriminate].
      injection H as <-. split; [reflexivity|]. intros g' [= <-]. exact Hg.
    - injection H as <-. split; [reflexivity|]. discriminate. }
  split; [reflexivity|]. split; [reflexivity|]. exists header, recs. split; [reflexivity|].
  cbn zeta. destruct (ParserFacts.records_loop_spec _ _ _ _ _ _ _ Hl)
    as [(_ & -> & Hall) | (pre & x & post & e & _ & _ & _ & _ & He)]; [|discriminate He].
  split; [reflexivity|]. split; [exact Hall|exact Hoc].
Qed.

(** X11: Once a file is open and has a header, parseFile either hands every eligible record to its callback with success, or stops at the first callback error: the earlier records succeeded, no later record is handed over, and that error is the result. *)
Theorem parseFile_stops_at_error (cs : string -> bool)
    (call : string -> csv_record -> header_map -> res unit)
    (oc : option (string -> res unit)) (f : zfile) (header : csv_record) (recs : list csv_record)
    (ds : list csv_record) (r : res unit) :
  zopen_ok f = true -> zrecords f = header :: recs -> parseFile cs call oc f = (ds, r) ->
  let hm := build_header header in
  let eligible := if existsb (String.eqb (zname f)) dispatched && cs (zname f)
                  then List.filter (fun x => record_parses (zname f) x hm) recs else [] in
  (ds = eligible /\ Forall (fun x => call (zname f) x hm = Ok tt) eligible) \/
  (exists pre x post e, eligible = pre ++ x :: post /\ ds = pre ++ [x] /\
     Forall (fun x => call (zname f) x hm = Ok tt) pre /\ call (zname f) x hm = Err e /\
     r = Err e).
Proof.
  intros Ho Hr. unfold parseFile. rewrite Ho, Hr. cbn [negb].
  destruct (records_loop cs call (zname f) (build_header header) recs) as [ds' r'] eqn:Hl.
  intros H. cbn zeta.
  assert (ds' = ds /\ (r' = Ok tt \/ r' = r)) as [<- Hr'].
  { destruct r' as [[]|e].
    - destruct (zread_err f); [injection H as <- _; auto|].
      destruct oc as [g|]; [destruct (g (zname f)) as [[]|?]|]; injection H as <- _; auto.
    - injection H as <- <-. auto. }
  destruct (ParserFacts.records_loop_spec _ _ _ _ _ _ _ Hl)
    as [(_ & -> & Hall) | (pre & x & post & e & Hfs & -> & Hpre & Hx & ->)].
  - left. auto.
  - right. exists pre, x, post, e. repeat split; try assumption.
    destruct Hr' as [Hr'|Hr']; [discriminate Hr'|]. symmetry. exact Hr'.
Qed.

End ParseFileClaims.

Module Witnesses2.
Import Auxiliary GoFmt Static Parser HeaderClaims ParseFileClaims.

Lemma getString_last_column_witness :
  Go.TrimSpace " name " = "name"%string /\
  Forall (fun h' => Go.TrimSpace h' <> "name"%string) ["id"%string] /\
  getString ["a"; " b "; "c"]%string (build_header (["name"%string] ++ " name "%string :: ["id"%string])) "name"
  = "b"%string.
Proof.
  assert (H1 : Go.TrimSpace " name " = "name"%string) by reflexivity.
  assert (H2 : Forall (fun h' => Go.TrimSpace h' <> "name"%string) ["id"%string])
    by (repeat constructor; vm_compute; discriminate).
  split; [exact H1|]. split; [exact H2|].
  exact (getString_last_column ["name"%string] ["id"%string] ["a"; " b "; "c"]%string _ _ H1 H2).
Defined.

Lemma getString_missing_column_witness :
  Forall (fun h => Go.TrimSpace h <> "stop_lat"%string) ["stop_id"; "stop_name"]%string /\
  getString ["1"; "Central"]%string (build_header ["stop_id"; "stop_name"]%string) "stop_lat"
  = ""%string.
Proof.
  assert (H : Forall (fun h => Go.TrimSpace h <> "stop_lat"%string) ["stop_id"; "stop_name"]%string)
    by (repeat constructor; vm_compute; discriminate).
  split; [exact H|]. exact (getString_missing_column _ ["1"; "Central"]%string _ H).
Defined.

Lemma getInt_padded_witness :
  getInt ["q"; " " ++ Itoa (-42) ++ "  "]%string (build_header ["x"; "n"]%string) "n" 7 = -42.
Proof.
  apply (getInt_padded _ _ _ 1 " " "  "); [reflexivity|reflexivity|reflexivity|reflexivity|lia].
Defined.

Lemma parseFile_ok_witness :
  let f := mkZFile "calendar_dates.txt" true
             [["service_id"; "date"; "exception_type"]; ["s1"; "20240229"; "1"];
              ["s2"; "20230229"; "2"]]%string None in
  let cs := fun _ : string => true in
  let call := fun (_ : string) (_ : csv_record) (_ : header_map) => @Ok unit tt in
  let ds := [["s1"; "20240229"; "1"]]%string in
  parseFile cs call None f = (ds, Ok tt) /\
  (zopen_ok f = true /\ zread_err f = None /\
  exists header recs, zrecords f = header :: recs /\
    let hm := build_header header in
    ds = (if existsb (String.eqb (zname f)) dispatched && cs (zname f)
          then List.filter (fun x => record_parses (zname f) x hm) recs else []) /\
    Forall (fun x => call (zname f) x hm = Ok tt) ds /\
    (forall g, None = Some g -> g (zname f) = Ok tt)).
Proof.
  intros f cs call ds.
  assert (H : parseFile cs call None f = (ds, Ok tt)) by (vm_compute; reflexivity).
  split; [exact H|]. exact (parseFile_ok cs call None f ds H).
Defined.

Lemma parseFile_stops_at_error_witness :
  let f := mkZFile "stops.txt" true [["stop_id"]; ["a"]; ["b"]; ["c"]]%string (Some "x"%string) in
  let cs := fun _ : string => true in
  let call := fun (_ : string) (x : csv_record) (_ : header_map) =>
                if bool_decide (x = ["b"%string]) then Err "duplicate key"%string else Ok tt in
  let header := ["stop_id"]%string in
  let recs := [["a"]; ["b"]; ["c"]]%string in
  let ds := [["a"]; ["b"]]%string in
  let r := @Err unit "duplicate key"%string in
  zopen_ok f = true /\ zrecords f = header :: recs /\ parseFile cs call None f = (ds, r) /\
  (let hm := build_header header in
  let eligible := if existsb (String.eqb (zname f)) dispatched && cs (zname f)
                  then List.filter (fun x => record_parses (zname f) x hm) recs else [] in
  (ds = eligible /\ Forall (fun x => call (zname f) x hm = Ok tt) eligible) \/
  (exists pre x post e, eligible = pre ++ x :: post /\ ds = pre ++ [x] /\
     Forall (fun x => call (zname f) x hm = Ok tt) pre /\ call (zname f) x hm = Err e /\
     r = Err e)).
Proof.
  intros f cs call header recs ds r.
  assert (H1 : zopen_ok f = true) by reflexivity.
  assert (H2 : zrecords f = header :: recs) by reflexivity.
  assert (H3 : parseFile cs call None f = (ds, r)) by (vm_compute; reflexivity).
  split; [exact H1|]. split; [exact H2|]. split; [exact H3|].
  exact (parseFile_stops_at_error cs call None f header recs ds r H1 H2 H3).
Defined.

Lemma parseStandardGTFS_order_witness :
  let agency := mkZFile "agency.txt" true [] None in
  let stops := mkZFile "stops.txt" true [] None in
  let stops' := mkZFile "stops.txt" false [] None in
  let pf := fun f : zfile => if zopen_ok f then Ok tt else Err "opening file"%string in
  let files := [stops'; stops; mkZFile "trips.txt" false [] None; agency] in
  let trace := [agency; stops; mkZFile "trips.txt" false [] None] in
  let r := @Err unit "parsing trips.txt: opening file"%string in
  parseStandardGTFS pf (fun _ => false) files = (trace, r) /\
  (let fs := omap (last_named files) parseOrder in
  (r = Ok tt /\ trace = fs /\ Forall (fun f => pf f = Ok tt) fs) \/
  (exists pre f post e, fs = pre ++ f :: post /\ trace = pre ++ [f] /\
     Forall (fun f => pf f = Ok tt) pre /\ pf f = Err e /\
     r = Err ("parsing " ++ zname f ++ ": " ++ e)%string)).
Proof.
  intros agency stops stops' pf files trace r.
  assert (H : parseStandardGTFS pf (fun _ => false) files = (trace, r)) by (vm_compute; reflexivity).
  split; [exact H|]. exact (ParserFacts.parseStandardGTFS_order pf files trace r H).
Defined.

End Witnesses2.

Module StaticTimeFacts.
Import Auxiliary GoFmt GoFmtFacts GTFSTime.
Local Arguments String.append : simpl nomatch.

Lemma two_digits_nocolon (d : Z) : 0 <= d < 100 ->
  str_all (fun c => negb (Ascii.eqb c ":"%char)) (two_digits d) = true.
Proof.
  intros Hd. apply TimeFacts.str_all_digits_nocolon. unfold two_digits. cbn [str_all].
  rewrite !DateFacts.digit_char_ok' by (Z.div_mod_to_equations; lia). reflexivity.
Qed.

Lemma getnum_two (d : Z) (r : string) (fixed : bool) : 0 <= d < 100 ->
  getnum (two_digits d ++ r) fixed = Some (d, r).
Proof.
  intros Hd. unfold two_digits. cbn [String.append getnum].
  rewrite !DateFacts.digit_char_ok' by (Z.div_mod_to_equations; lia). cbn [negb].
  rewrite !DateFacts.digit_val' by (Z.div_mod_to_equations; lia).
  f_equal. f_equal. Z.div_mod_to_equations; lia.
Qed.

(** X13: For 0 <= h < 24 and 0 <= m, s < 60, OnStopTime turns the two-digit HH:MM:SS text into a valid arrival or departure time. The clock is (h, m, s), as parsed by the static parseGTFSTime. *)
Theorem OnStopTime_time_clock (h m s : Z) :
  0 <= h < 24 -> 0 <= m < 60 -> 0 <= s < 60 ->
  OnStopTime_time (hhmmss h m s) = Some (h, m, s).
Proof.
  intros Hh Hm Hs. unfold OnStopTime_time, parseGTFSTime_static, hhmmss.
  assert (Hne : String.eqb (two_digits h ++ ":" ++ two_digits m ++ ":" ++ two_digits s) "" = false)
    by reflexivity.
  rewrite Hne. rewrite !TimeFacts.colon_app.
  rewrite TimeFacts.Split_app_sep by (apply two_digits_nocolon; lia).
  rewrite TimeFacts.Split_app_sep by (apply two_digits_nocolon; lia).
  rewrite TimeFacts.Split_nosep by (apply two_digits_nocolon; lia).
  cbn [length Nat.eqb negb].
  unfold time_Parse_clock. rewrite getnum_two by lia. cbn [expect Ascii.eqb Bool.eqb].
  rewrite getnum_two by lia. cbn [expect Ascii.eqb Bool.eqb].
  rewrite <- (HeaderFacts.string_app_empty (two_digits s)).
  rewrite getnum_two by lia. cbn [skip_fraction String.eqb negb].
  assert ((24 <=? h) || (60 <=? m) || (60 <=? s) = false) as ->
    by (rewrite !orb_false_iff; rewrite !Z.leb_gt; lia).
  reflexivity.
Qed.

End StaticTimeFacts.

Module ConsumerFacts.
Import Consumer.

(** X14: When fetchFeed sends an HTTP request, it sends If-None-Match exactly if a cached entry has a non-empty ETag, and uses one token. A 304 returns the cached message, or 'HTTP error' without one, and leaves the cache unchanged. The cache changes only by a 200 with a decoded body m, which stores (m, now, ETag) under that feed and returns m. *)
Theorem fetchFeed_http_cache (name : string) (w : env) (c : consumer)
    (r : FeedResult) (eff : effects) (c' : consumer) :
  fetchFeed name w c = (r, eff, c') -> http_sent eff = true ->
  if_none_match eff = match cache c !! name with
                      | Some e => if String.eqb (ce_etag e) "" then None else Some (ce_etag e)
                      | None => None
                      end /\
  tokens c' = (tokens c - 1)%nat /\ clock c' = clock c /\
  (forall n, n <> name -> cache c' !! n = cache c !! n) /\
  (forall et b e, http w = Response 304 et b -> cache c !! name = Some e ->
     r = mkFeedResult (Some (ce_feedMessage e)) None /\ cache c' = cache c) /\
  (forall et b, http w = Response 304 et b -> cache c !! name = None ->
     r = mkFeedResult None (Some "HTTP error") /\ cache c' = cache c) /\
  (cache c' = cache c \/
   exists et m, http w = Response 200 et (Some m) /\
     r = mkFeedResult (Some m) None /\
     cache c' = <[name := mkCacheEntry m (clock c) et]> (cache c)).
Proof.
  unfold fetchFeed. intros H Hs.
  destruct (chosen c w); [|inversion H; subst; discriminate..].
  cbn [tokens cache clock CacheExpiration] in H.
  assert (Hhttp : cache c !! name = None \/
                  exists e0, cache c !! name = Some e0 /\
                             (clock c - ce_timestamp e0 <? CacheExpiration c) = false).
  { destruct (cache c !! name) as [e0|]; [|left; reflexivity].
    destruct (clock c - ce_timestamp e0 <? CacheExpiration c) eqn:Hf; [|right; eauto].
    inversion H; subst. discriminate Hs. }
  assert (Hm : (match cache c !! name with
            | Some e => if clock c - ce_timestamp e <? CacheExpiration c
                        then Some (mkFeedResult (Some (ce_feedMessage e)) None, no_effects,
                                   mkConsumer (tokens c - 1) (cache c) (clock c) (CacheExpiration c))
                        else None
            | None => None
            end) = None)
    by (destruct Hhttp as [->|(e0 & -> & ->)]; reflexivity).
  rewrite Hm in H. clear Hm Hhttp.
  remember (http w) as hw eqn:Hw.
  destruct hw as [|st et b];
    [|destruct (Z.eqb_spec st 304) as [->|N304];
      [destruct (cache c !! name) as [e0|] eqn:Hl; cbn in H
      |assert (E304 : (st =? 304) = false) by (apply Z.eqb_neq; exact N304);
       try rewrite E304 in H; destruct (Z.eqb_spec st 200) as [->|N200];
       [cbn in H; destruct b as [m|]
       |assert (E200 : (st =? 200) = false) by (apply Z.eqb_neq; exact N200);
        try rewrite E200 in H; cbn in H]]];
    inversion H; subst; cbn [if_none_match tokens clock cache];
    refine (conj _ (conj _ (conj _ (conj _ (conj _ (conj _ _))))));
    try reflexivity;
    try (left; reflexivity);
    try (intros n Hn; apply fin_maps.lookup_insert_ne; congruence);
    try (intros ? ? ? Hw' Hl'; first [discriminate Hl' |
           (injection Hw'; intros; subst; try congruence; injection Hl' as <-; auto)]);
    try (intros ? ? Hw' Hl'; first [discriminate Hl' |
           (injection Hw'; intros; subst; try congruence; auto)]);
    try (intros ? ? ? Hw'; discriminate Hw');
    try (intros ? ? Hw'; discriminate Hw').
  right. eauto.
Qed.

End ConsumerFacts.

Module VersionExtra.
Import VersionStore VersionStoreFacts.

Lemma find_deactivated (vs : list version) :
  List.find is_active (map (fun v => if is_active v then set_active false v else v) vs) = None.
Proof.
  induction vs as [|v vs IH]; [reflexivity|]. cbn.
  destruct (is_active v) eqn:Ha; cbn; rewrite ?Ha; exact IH.
Qed.

Lemma find_app_none {X} (f : X -> bool) (l1 l2 : list X) :
  List.find f l1 = None -> List.find f (l1 ++ l2) = List.find f l2.
Proof.
  induction l1 as [|x l1 IH]; [reflexivity|]. cbn.
  destruct (f x); [discriminate|exact IH].
Qed.

(** X15: After CreateNewVersion succeeds, no version is active: when
    its query succeeds, GetActiveVersion returns no version and
    HasNewerVersion reports true for every lastModified; when the query
    fails, HasNewerVersion returns an error (Go's [(false, err)]). *)
Theorem CreateNewVersion_no_active (fmt : Z -> string) (fails : nat -> bool)
    (name url : string) (lm : Z) (s : vstore) (id : nat) (s' : vstore) :
  CreateNewVersion fmt fails name url lm s = (Ok id, s') ->
  GetActiveVersion false s' = Ok None /\
  (forall lm', HasNewerVersion false lm' s' = Ok true) /\
  (forall lm', HasNewerVersion true lm' s' = Err "getting active version: querying active version").
Proof.
  intros H. destruct (CreateNewVersion_cases fmt fails name url lm s) as [[e He]|He];
    rewrite He in H; [discriminate|]. injection H as <- <-.
  assert (Hn : List.find is_active (versions
     (mkVStore (map (fun v => if is_active v then set_active false v else v) (versions s)
               ++ [mkVersion (next_version_id s) name (now s) lm false url
                     ("GTFS data imported from " ++ url ++ " at " ++ fmt lm)%string])
              (S (next_version_id s)) (now s))) = None).
  { cbn [versions]. rewrite find_app_none by apply find_deactivated. reflexivity. }
  split; [|split].
  - unfold GetActiveVersion. rewrite Hn. reflexivity.
  - intros lm'. unfold HasNewerVersion, GetActiveVersion. rewrite Hn. reflexivity.
  - intros lm'. reflexivity.
Qed.

End VersionExtra.

Module CleanupExtra.
Import GTFSCleanup.

Lemma delete_tables_keeps (fails : nat -> string -> bool) (vid : nat) (ts : list string)
    (tot : Z) (s : gdb) :
  (forall v, In v (gversions s) -> gv_id v <> vid ->
     In v (gversions (snd (delete_tables fails vid ts tot s)))) /\
  (forall e, In e (gentities s) -> snd e <> vid ->
     In e (gentities (snd (delete_tables fails vid ts tot s)))).
Proof.
  revert tot s. induction ts as [|t ts IH]; intros tot s; cbn [delete_tables].
  - destruct (fails vid "versions"); cbn; split; auto.
    intros v Hv Hid. apply filter_In. split; [exact Hv|].
    apply negb_true_iff, Nat.eqb_neq, Hid.
  - destruct (fails vid t); [split; auto|]. cbn [delete_rows].
    destruct (IH (tot + Z.of_nat (length (List.filter
        (fun e => String.eqb (fst e) t && Nat.eqb (snd e) vid) (gentities s))))
      (mkGDB (gversions s) (List.filter (fun e => negb (String.eqb (fst e) t && Nat.eqb (snd e) vid))
         (gentities s)))) as [H1 H2].
    split.
    + intros v Hv Hid. apply H1; assumption.
    + intros e He Hid. apply H2; [|exact Hid]. cbn. apply filter_In. split; [exact He|].
      apply Nat.eqb_neq in Hid. rewrite Hid, andb_false_r. reflexivity.
Qed.

Lemma delete_each_keeps (fails : nat -> string -> bool) (vs : list gversion) (tot : Z) (s : gdb) :
  (forall v, In v (gversions s) -> ~ In (gv_id v) (map gv_id vs) ->
     In v (gversions (snd (delete_each fails vs tot s)))) /\
  (forall e, In e (gentities s) -> ~ In (snd e) (map gv_id vs) ->
     In e (gentities (snd (delete_each fails vs tot s)))).
Proof.
  revert tot s. induction vs as [|w vs IH]; intros tot s; cbn [delete_each]; [split; auto|].
  unfold deleteGTFSVersion.
  destruct (delete_tables_keeps fails (gv_id w) tables 0 s) as [K1 K2].
  destruct (delete_tables fails (gv_id w) tables 0 s) as [[n [e|]] s1]; cbn [snd] in K1, K2.
  - destruct (IH tot s1) as [J1 J2].
    destruct (delete_each fails vs tot s1) as [[rs t] s2]. cbn [snd] in J1, J2 |- *.
    split.
    + intros v Hv Hn. apply J1; [apply K1; [exact Hv|]|]; intros Heq; apply Hn; cbn; auto.
    + intros x Hx Hn. apply J2; [apply K2; [exact Hx|]|]; intros Heq; apply Hn; cbn; auto.
  - destruct (IH (tot + n) s1) as [J1 J2].
    destruct (delete_each fails vs (tot + n) s1) as [[rs t] s2]. cbn [snd] in J1, J2 |- *.
    split.
    + intros v Hv Hn. apply J1; [apply K1; [exact Hv|]|]; intros Heq; apply Hn; cbn; auto.
    + intros x Hx Hn. apply J2; [apply K2; [exact Hx|]|]; intros Heq; apply Hn; cbn; auto.
Qed.

Lemma CleanupOldGTFSVersions_store (fails : nat -> string -> bool) (sel_err : option string)
    (k : nat) (s : gdb) :
  snd (CleanupOldGTFSVersions fails sel_err k s) =
  match sel_err with
  | Some _ => s
  | None => snd (delete_each fails (versionsToDelete k s) 0 s)
  end.
Proof.
  unfold CleanupOldGTFSVersions. destruct sel_err as [e|]; [reflexivity|].
  destruct (delete_each fails (versionsToDelete k s) 0 s) as [[rs t] s2].
  destruct (Nat.ltb _ _); reflexivity.
Qed.

Lemma map_inj_in {X Y} (f : X -> Y) (l : list X) (x y : X) :
  List.NoDup (map f l) -> In x l -> In y l -> f x = f y -> x = y.
Proof.
  induction l as [|a l IH]; cbn; [tauto|]. intros Hnd Hx Hy Hf.
  apply NoDup_cons_iff in Hnd as [Hna Hnd].
  destruct Hx as [<-|Hx], Hy as [<-|Hy]; auto.
  - exfalso. apply Hna. rewrite Hf. apply in_map, Hy.
  - exfalso. apply Hna. rewrite <- Hf. apply in_map, Hx.
Qed.

Lemma in_inactive (s : gdb) (w : gversion) :
  In w (inactive s) -> In w (gversions s) /\ gv_is_active w = false.
Proof.
  unfold inactive. intros Hw. apply filter_In in Hw as [Hw Ha].
  apply negb_true_iff in Ha. auto.
Qed.

(** X16: With distinct version ids, CleanupOldGTFSVersions never removes an active version or one of the keepInactiveVersions newest inactive ones. It also keeps every entity row of those versions, whichever statements fail (the selection included). *)
Theorem CleanupOldGTFSVersions_keeps (fails : nat -> string -> bool) (sel_err : option string)
    (k : nat) (s : gdb) :
  NoDup (map gv_id (gversions s)) ->
  let s' := snd (CleanupOldGTFSVersions fails sel_err k s) in
  forall v, In v (gversions s) ->
    (gv_is_active v = true \/ In v (take k (sort_desc (inactive s)))) ->
    In v (gversions s') /\
    (forall e, In e (gentities s) -> snd e = gv_id v -> In e (gentities s')).
Proof.
  intros Hnd0 s' v Hv Hkeep. subst s'. rewrite CleanupOldGTFSVersions_store.
  destruct sel_err as [err|]; [split; auto|].
  pose proof (proj1 (NoDup_ListNoDup _) Hnd0) as Hnd.
  assert (Hn : ~ In (gv_id v) (map gv_id (versionsToDelete k s))).
  { intros Hin. apply in_map_iff in Hin as (w & Hwv & Hw).
    assert (HwL : In w (sort_desc (inactive s))).
    { rewrite <- (take_drop k (sort_desc (inactive s))). apply in_or_app. right. exact Hw. }
    pose proof (Permutation_in _ (CleanupFacts.sort_desc_perm (inactive s)) HwL) as HwI.
    destruct (in_inactive s w HwI) as [Hwg Hwa].
    assert (w = v) as -> by exact (map_inj_in gv_id _ w v Hnd Hwg Hv Hwv).
    destruct Hkeep as [Ha|Ht]; [congruence|].
    assert (HndL : List.NoDup (sort_desc (inactive s))).
    { eapply Permutation_NoDup; [symmetry; apply CleanupFacts.sort_desc_perm|].
      unfold inactive. apply List.NoDup_filter. eapply List.NoDup_map_inv. exact Hnd. }
    apply NoDup_ListNoDup in HndL.
    rewrite <- (take_drop k (sort_desc (inactive s))) in HndL.
    apply NoDup_app in HndL as (_ & Hdis & _).
    apply (Hdis v); apply list_elem_of_In; assumption. }
  destruct (delete_each_keeps fails (versionsToDelete k s) 0 s) as [K1 K2].
  split; [exact (K1 v Hv Hn)|].
  intros e He Hid. apply K2; [exact He|]. rewrite Hid. exact Hn.
Qed.

End CleanupExtra.

Module DeleteExtra.
Import Auxiliary GTFSCleanup.

Lemma filter_negb_twice {X} (f g : X -> bool) (l : list X) :
  List.filter (fun e => negb (g e)) (List.filter (fun e => negb (f e)) l)
  = List.filter (fun e => negb (f e || g e)) l.
Proof.
  induction l as [|x l IH]; [reflexivity|]. cbn.
  destruct (f x) eqn:Hf, (g x) eqn:Hg; cbn; rewrite ?Hf, ?Hg; cbn; rewrite ?IH; reflexivity.
Qed.

Lemma length_filter_split {X} (f g : X -> bool) (l : list X) :
  (length (List.filter f l) + length (List.filter g (List.filter (fun e => negb (f e)) l))
   = length (List.filter (fun e => f e || g e) l))%nat.
Proof.
  induction l as [|x l IH]; [reflexivity|]. cbn.
  destruct (f x) eqn:Hf, (g x) eqn:Hg; cbn; rewrite ?Hf, ?Hg; cbn; lia.
Qed.

Lemma delete_tables_stop (fails : nat -> string -> bool) (vid : nat) (pre : list string)
    (t : string) (post : list string) (tot : Z) (s : gdb) :
  Forall (fun t' => fails vid t' = false) pre -> fails vid t = true ->
  delete_tables fails vid (pre ++ t :: post) tot s =
    (tot + Z.of_nat (length (List.filter (hit_in pre vid) (gentities s))),
     Some ("deleting from " ++ t)%string,
     mkGDB (gversions s) (List.filter (fun e => negb (hit_in pre vid e)) (gentities s))).
Proof.
  revert tot s. induction pre as [|t0 pre IH]; intros tot s Hpre Ht; cbn [app delete_tables].
  - rewrite Ht. unfold hit_in. cbn.
    assert (E1 : forall l : list (string * nat), List.filter (fun _ => false) l = [])
      by (induction l; cbn; auto).
    assert (E2 : forall l : list (string * nat), List.filter (fun _ => true) l = l)
      by (induction l; cbn; congruence).
    rewrite E1, E2. cbn. rewrite Z.add_0_r. destruct s; reflexivity.
  - inversion Hpre as [|? ? H0 Hpre']; subst. rewrite H0. cbn [delete_rows].
    rewrite (IH _ _ Hpre' Ht). cbn [gversions gentities].
    rewrite filter_negb_twice.
    assert (Hh : forall e, (String.eqb (fst e) t0 && Nat.eqb (snd e) vid) || hit_in pre vid e
                           = hit_in (t0 :: pre) vid e).
    { intros e. unfold hit_in. cbn. destruct (String.eqb (fst e) t0), (Nat.eqb (snd e) vid);
        cbn; rewrite ?andb_false_r, ?andb_true_r; reflexivity. }
    rewrite <- Z.add_assoc, <- Nat2Z.inj_add.
    rewrite (length_filter_split (fun e => String.eqb (fst e) t0 && Nat.eqb (snd e) vid)
               (hit_in pre vid)).
    rewrite (List.filter_ext _ _ Hh).
    rewrite (List.filter_ext (fun e => negb ((String.eqb (fst e) t0 && Nat.eqb (snd e) vid)
                                             || hit_in pre vid e))
                             (fun e => negb (hit_in (t0 :: pre) vid e)))
      by (intros e; rewrite Hh; reflexivity).
    reflexivity.
Qed.

(** X17: When deleteGTFSVersion's DELETE on a table t fails after the earlier tables succeeded, the version's rows in those earlier tables are already gone. Its rows in t and later tables stay, the version row stays, no transaction undoes anything, and the count deleted so far is returned with the error. *)
Theorem deleteGTFSVersion_partial (fails : nat -> string -> bool) (vid : nat)
    (pre : list string) (t : string) (post : list string) (s : gdb) :
  tables = pre ++ t :: post ->
  Forall (fun t' => fails vid t' = false) pre -> fails vid t = true ->
  deleteGTFSVersion fails vid s =
    (Z.of_nat (length (List.filter (fun e => existsb (String.eqb (fst e)) pre && Nat.eqb (snd e) vid)
                          (gentities s))),
     Some ("deleting from " ++ t)%string,
     mkGDB (gversions s)
       (List.filter (fun e => negb (existsb (String.eqb (fst e)) pre && Nat.eqb (snd e) vid))
          (gentities s))).
Proof.
  intros Htab Hpre Ht. unfold deleteGTFSVersion. rewrite Htab.
  rewrite (delete_tables_stop fails vid pre t post 0 s Hpre Ht). reflexivity.
Qed.

End DeleteExtra.

Module CleanupOutcomes.
Import Auxiliary GTFSCleanup CleanupFacts.

Lemma delete_each_app (fails : nat -> string -> bool) (pre vs : list gversion) (tot : Z) (s : gdb) :
  delete_each fails (pre ++ vs) tot s =
  let '(rs1, tot1, s1) := delete_each fails pre tot s in
  let '(rs2, tot2, s2) := delete_each fails vs tot1 s1 in
  (rs1 ++ rs2, tot2, s2).
Proof.
  revert tot s. induction pre as [|v pre IH]; intros tot s; cbn [app delete_each].
  - destruct (delete_each fails vs tot s) as [[rs2 tot2] s2]. reflexivity.
  - destruct (deleteGTFSVersion fails (gv_id v) s) as [[n [e|]] s1].
    + rewrite IH. destruct (delete_each fails pre tot s1) as [[rs1 tot1] s1'].
      destruct (delete_each fails vs tot1 s1') as [[rs2 tot2] s2]. reflexivity.
    + rewrite IH. destruct (delete_each fails pre (tot + n) s1) as [[rs1 tot1] s1'].
      destruct (delete_each fails vs tot1 s1') as [[rs2 tot2] s2]. reflexivity.
Qed.

Lemma delete_tables_prefix (fails : nat -> string -> bool) (vid : nat) (pre rest : list string)
    (tot : Z) (s : gdb) :
  Forall (fun t' => fails vid t' = false) pre ->
  delete_tables fails vid (pre ++ rest) tot s =
  delete_tables fails vid rest
    (tot + Z.of_nat (length (List.filter (hit_in pre vid) (gentities s))))
    (mkGDB (gversions s) (List.filter (fun e => negb (hit_in pre vid e)) (gentities s))).
Proof.
  revert tot s. induction pre as [|t0 pre IH]; intros tot s Hpre; cbn [app].
  - unfold hit_in. cbn [existsb andb negb].
    assert (E1 : forall l : list (string * nat), List.filter (fun _ => false) l = [])
      by (induction l; cbn; auto).
    assert (E2 : forall l : list (string * nat), List.filter (fun _ => true) l = l)
      by (induction l; cbn; congruence).
    rewrite E1, E2. cbn [length Z.of_nat]. rewrite Z.add_0_r. destruct s; reflexivity.
  - inversion Hpre as [|? ? H0 Hpre']; subst. cbn [delete_tables]. rewrite H0. cbn [delete_rows].
    rewrite (IH _ _ Hpre'). cbn [gversions gentities].
    rewrite DeleteExtra.filter_negb_twice.
    assert (Hh : forall e, (String.eqb (fst e) t0 && Nat.eqb (snd e) vid) || hit_in pre vid e
                           = hit_in (t0 :: pre) vid e).
    { intros e. unfold hit_in. cbn. destruct (String.eqb (fst e) t0), (Nat.eqb (snd e) vid);
        cbn; rewrite ?andb_false_r, ?andb_true_r; reflexivity. }
    rewrite <- Z.add_assoc, <- Nat2Z.inj_add.
    rewrite (DeleteExtra.length_filter_split (fun e => String.eqb (fst e) t0 && Nat.eqb (snd e) vid)
               (hit_in pre vid)).
    rewrite (List.filter_ext _ _ Hh).
    rewrite (List.filter_ext (fun e => negb ((String.eqb (fst e) t0 && Nat.eqb (snd e) vid)
                                             || hit_in pre vid e))
                             (fun e => negb (hit_in (t0 :: pre) vid e)))
      by (intros e; rewrite Hh; reflexivity).
    reflexivity.
Qed.

Lemma first_failing (p : string -> bool) (ts : list string) :
  Forall (fun t => p t = false) ts \/
  exists tpre t tpost, ts = tpre ++ t :: tpost /\ Forall (fun t => p t = false) tpre /\ p t = true.
Proof.
  induction ts as [|t ts IH]; [left; constructor|].
  destruct (p t) eqn:Hp.
  - right. exists [], t, ts. split; [reflexivity|]. split; [constructor|exact Hp].
  - destruct IH as [H|(tpre & t' & tpost & -> & H1 & H2)].
    + left. constructor; assumption.
    + right. exists (t :: tpre), t', tpost. split; [reflexivity|].
      split; [constructor; assumption|exact H2].
Qed.

(** The three ways [deleteGTFSVersion] ends. *)
Lemma deleteGTFSVersion_cases (fails : nat -> string -> bool) (vid : nat) (s : gdb) :
  deleteGTFSVersion fails vid s =
    (Z.of_nat (length (List.filter (hit_in tables vid) (gentities s))), None,
     mkGDB (List.filter (fun v => negb (Nat.eqb (gv_id v) vid)) (gversions s))
           (List.filter (fun e => negb (hit_in tables vid e)) (gentities s))) \/
  (exists tpre t tpost, tables = tpre ++ t :: tpost /\
     deleteGTFSVersion fails vid s =
       (Z.of_nat (length (List.filter (hit_in tpre vid) (gentities s))),
        Some ("deleting from " ++ t)%string,
        mkGDB (gversions s) (List.filter (fun e => negb (hit_in tpre vid e)) (gentities s)))) \/
  deleteGTFSVersion fails vid s =
    (Z.of_nat (length (List.filter (hit_in tables vid) (gentities s))),
     Some "deleting version record"%string,
     mkGDB (gversions s) (List.filter (fun e => negb (hit_in tables vid e)) (gentities s))).
Proof.
  unfold deleteGTFSVersion.
  destruct (first_failing (fails vid) tables) as [Hall|(tpre & t & tpost & Ht & H1 & H2)].
  - replace (delete_tables fails vid tables 0 s) with (delete_tables fails vid (tables ++ []) 0 s)
      by (rewrite app_nil_r; reflexivity).
    rewrite (delete_tables_prefix fails vid tables [] 0 s Hall). cbn [delete_tables gversions gentities].
    destruct (fails vid "versions"); [right; right | left]; reflexivity.
  - right; left. exists tpre, t, tpost. split; [exact Ht|]. rewrite Ht.
    rewrite (DeleteExtra.delete_tables_stop fails vid tpre t tpost 0 s H1 H2). reflexivity.
Qed.

Lemma hit_in_gone (ts : list string) (vid : nat) (l : list (string * nat)) (e : string * nat) :
  In e (List.filter (fun e => negb (hit_in ts vid e)) l) -> In (fst e) ts -> snd e <> vid.
Proof.
  intros He Ht Hid. apply filter_In in He as [_ He]. unfold hit_in in He.
  assert (Hx : existsb (String.eqb (fst e)) ts = true).
  { apply existsb_exists. exists (fst e). split; [exact Ht|apply String.eqb_refl]. }
  rewrite Hx, Hid, Nat.eqb_refl in He. discriminate He.
Qed.

Lemma hit_in_kept (ts : list string) (vid : nat) (l : list (string * nat)) (e : string * nat) :
  In e l -> ~ In (fst e) ts -> In e (List.filter (fun e => negb (hit_in ts vid e)) l).
Proof.
  intros He Ht. apply filter_In. split; [exact He|]. unfold hit_in.
  destruct (existsb (String.eqb (fst e)) ts) eqn:Hx; [|reflexivity].
  apply existsb_exists in Hx as (x & Hx & Heq). apply String.eqb_eq in Heq. subst x. contradiction.
Qed.

Lemma tables_NoDup : NoDup tables.
Proof. apply (bool_decide_unpack _). vm_compute. reflexivity. Qed.

Lemma tables_split_disjoint (tpre : list string) (t : string) (tpost : list string) (x : string) :
  tables = tpre ++ t :: tpost -> In x (t :: tpost) -> ~ In x tpre.
Proof.
  intros Ht Hx Hpre. pose proof tables_NoDup as Hnd. rewrite Ht in Hnd.
  apply NoDup_app in Hnd as (_ & Hdis & _).
  apply (Hdis x); apply list_elem_of_In; assumption.
Qed.

Lemma NoDup_map_filter {X Y} (f : X -> Y) (p : X -> bool) (l : list X) :
  List.NoDup (map f l) -> List.NoDup (map f (List.filter p l)).
Proof.
  induction l as [|x l IH]; cbn; [auto|]. intros Hnd.
  apply NoDup_cons_iff in Hnd as [Hn Hnd].
  destruct (p x); cbn; [|auto]. constructor; [|auto].
  intros Hin. apply Hn. apply in_map_iff in Hin as (y & Hy & Hin).
  apply filter_In in Hin as [Hin _]. rewrite <- Hy. apply in_map, Hin.
Qed.

Lemma NoDup_map_drop {X Y} (f : X -> Y) (k : nat) (l : list X) :
  List.NoDup (map f l) -> List.NoDup (map f (drop k l)).
Proof.
  revert l. induction k as [|k IH]; intros [|x l] H; cbn; auto.
  apply IH. inversion H; assumption.
Qed.

Lemma versionsToDelete_NoDup (k : nat) (s : gdb) :
  NoDup (map gv_id (gversions s)) -> List.NoDup (map gv_id (versionsToDelete k s)).
Proof.
  intros H. apply (proj1 (NoDup_ListNoDup _)) in H. unfold versionsToDelete.
  apply NoDup_map_drop.
  eapply Permutation_NoDup; [apply Permutation_map; symmetry; apply sort_desc_perm|].
  unfold inactive. apply NoDup_map_filter, H.
Qed.

(** What the loop does with the version at position [length pre]. *)
Lemma delete_each_outcome (fails : nat -> string -> bool) (pre : list gversion) (v : gversion)
    (post : list gversion) (s : gdb) :
  let '(rs, _, s') := delete_each fails (pre ++ v :: post) 0 s in
  exists r, nth_error rs (length pre) = Some r /\
    VersionID r = Some (gv_id v) /\ VersionName r = gv_name v /\
    ((CleanupStatus r = "SUCCESS"%string /\
      (forall w, In w (gversions s') -> gv_id w <> gv_id v) /\
      (forall e, In e (gentities s') -> In (fst e) tables -> snd e <> gv_id v)) \/
     (exists tpre t tpost, tables = tpre ++ t :: tpost /\
      CleanupStatus r = ("ERROR: deleting from " ++ t)%string /\
      (forall e, In e (gentities s') -> In (fst e) tpre -> snd e <> gv_id v) /\
      (~ In (gv_id v) (map gv_id pre) -> ~ In (gv_id v) (map gv_id post) ->
        (forall w, In w (gversions s) -> gv_id w = gv_id v -> In w (gversions s')) /\
        (forall e, In e (gentities s) -> snd e = gv_id v -> In (fst e) (t :: tpost) ->
           In e (gentities s')))) \/
     (CleanupStatus r = "ERROR: deleting version record"%string /\
      (forall e, In e (gentities s') -> In (fst e) tables -> snd e <> gv_id v) /\
      (~ In (gv_id v) (map gv_id pre) -> ~ In (gv_id v) (map gv_id post) ->
        forall w, In w (gversions s) -> gv_id w = gv_id v -> In w (gversions s')))).
Proof.
  rewrite delete_each_app.
  pose proof (delete_each_ids fails pre 0 s) as Hids.
  destruct (CleanupExtra.delete_each_keeps fails pre 0 s) as [K1 K2].
  destruct (delete_each fails pre 0 s) as [[rs1 tot1] s1]. cbn [fst snd] in Hids, K1, K2.
  assert (Hlen : length rs1 = length pre).
  { rewrite <- (length_map VersionID rs1), Hids, length_map. reflexivity. }
  assert (Hnth : forall r rs2, nth_error (rs1 ++ r :: rs2) (length pre) = Some r).
  { intros r rs2. rewrite nth_error_app2 by lia. rewrite Hlen, Nat.sub_diag. reflexivity. }
  cbn [delete_each].
  destruct (deleteGTFSVersion_cases fails (gv_id v) s1) as [Hd|[(tpre & t & tpost & Ht & Hd)|Hd]];
    rewrite Hd; cbv beta iota.
  - set (s2 := mkGDB _ _).
    set (n := Z.of_nat (length (List.filter (hit_in tables (gv_id v)) (gentities s1)))).
    destruct (delete_each_shrinks fails post (tot1 + n) s2) as [S1 S2].
    destruct (delete_each fails post (tot1 + n) s2) as [[rs2 tot2] s3]. cbn [snd] in S1, S2.
    eexists. split; [apply Hnth|]. split; [reflexivity|]. split; [reflexivity|].
    left. split; [reflexivity|]. split.
    + intros w Hw. apply S1 in Hw. cbn in Hw. apply filter_In in Hw as [_ Hw].
      apply negb_true_iff, Nat.eqb_neq in Hw. exact Hw.
    + intros e He Ht. apply S2 in He. exact (hit_in_gone _ _ _ _ He Ht).
  - set (s2 := mkGDB _ _).
    destruct (delete_each_shrinks fails post tot1 s2) as [S1 S2].
    destruct (CleanupExtra.delete_each_keeps fails post tot1 s2) as [J1 J2].
    destruct (delete_each fails post tot1 s2) as [[rs2 tot2] s3]. cbn [snd] in S1, S2, J1, J2.
    eexists. split; [apply Hnth|]. split; [reflexivity|]. split; [reflexivity|].
    right; left. exists tpre, t, tpost. split; [exact Ht|]. split; [reflexivity|]. split.
    + intros e He Hin. apply S2 in He. exact (hit_in_gone _ _ _ _ He Hin).
    + intros Hpre Hpost. split.
      * intros w Hw Hid. apply J1; [|rewrite Hid; exact Hpost].
        apply K1; [exact Hw|rewrite Hid; exact Hpre].
      * intros e He Hid Hin. apply J2; [|rewrite Hid; exact Hpost].
        apply hit_in_kept; [apply K2; [exact He|rewrite Hid; exact Hpre]|].
        exact (tables_split_disjoint tpre t tpost (fst e) Ht Hin).
  - set (s2 := mkGDB _ _).
    destruct (delete_each_shrinks fails post tot1 s2) as [S1 S2].
    destruct (CleanupExtra.delete_each_keeps fails post tot1 s2) as [J1 J2].
    destruct (delete_each fails post tot1 s2) as [[rs2 tot2] s3]. cbn [snd] in S1, S2, J1, J2.
    eexists. split; [apply Hnth|]. split; [reflexivity|]. split; [reflexivity|].
    right; right. split; [reflexivity|]. split.
    + intros e He Hin. apply S2 in He. exact (hit_in_gone _ _ _ _ He Hin).
    + intros Hpre Hpost w Hw Hid. apply J1; [|rewrite Hid; exact Hpost].
      apply K1; [exact Hw|rewrite Hid; exact Hpre].
Qed.

(** C7 (amended): one run of [CleanupOldGTFSVersions] with keep
    parameter [k].  If selecting the versions fails, the error is
    returned and nothing is deleted.  Otherwise the run selects the
    inactive versions left after skipping the [k] newest by
    [created_at] (every kept one at least as new as every selected
    one), reports one result per selected version in [created_at] DESC
    order (newest first), followed by a summary row when the selection
    is not empty, and attempts every selected version whatever the
    earlier failures.  For the version at each position, the result
    carries its id and name and one of three outcomes: "SUCCESS", and
    neither its [gtfs.versions] row nor any of its rows in the eleven
    entity tables is left; "ERROR: deleting from t", its rows in the
    tables before [t] already deleted and (version ids being distinct)
    its version row and its rows in [t] and the later tables still
    there; or "ERROR: deleting version record", all its entity rows
    deleted and its version row still there. *)
Theorem CleanupOldGTFSVersions_newest_first (fails : nat -> string -> bool)
    (select_error : option string) (k : nat) (s : gdb) :
  let sel := versionsToDelete k s in
  let '(out, s') := CleanupOldGTFSVersions fails select_error k s in
  match select_error with
  | Some e => out = Err e /\ s' = s
  | None =>
    exists results tot,
      out = Ok results /\
      results = List.filter has_id results ++
                (if Nat.ltb 0 (length sel)
                 then [mkVCR None "CLEANUP_SUMMARY" tot "COMPLETED"] else []) /\
      map VersionID (List.filter has_id results) = map (fun v => Some (gv_id v)) sel /\
      Sorted ge_created sel /\
      (exists kept, Permutation (kept ++ sel) (inactive s) /\
         length kept = Nat.min k (length (inactive s)) /\
         forall x y, In x kept -> In y sel -> gv_created_at y <= gv_created_at x) /\
      (forall pre v post, sel = pre ++ v :: post ->
         exists r, nth_error (List.filter has_id results) (length pre) = Some r /\
           VersionID r = Some (gv_id v) /\ VersionName r = gv_name v /\
           ((CleanupStatus r = "SUCCESS"%string /\
             (forall w, In w (gversions s') -> gv_id w <> gv_id v) /\
             (forall e, In e (gentities s') -> In (fst e) tables -> snd e <> gv_id v)) \/
            (exists tpre t tpost, tables = tpre ++ t :: tpost /\
             CleanupStatus r = ("ERROR: deleting from " ++ t)%string /\
             (forall e, In e (gentities s') -> In (fst e) tpre -> snd e <> gv_id v) /\
             (NoDup (map gv_id (gversions s)) ->
               (forall w, In w (gversions s) -> gv_id w = gv_id v -> In w (gversions s')) /\
               (forall e, In e (gentities s) -> snd e = gv_id v -> In (fst e) (t :: tpost) ->
                  In e (gentities s')))) \/
            (CleanupStatus r = "ERROR: deleting version record"%string /\
             (forall e, In e (gentities s') -> In (fst e) tables -> snd e <> gv_id v) /\
             (NoDup (map gv_id (gversions s)) ->
               forall w, In w (gversions s) -> gv_id w = gv_id v -> In w (gversions s')))))
  end.
Proof.
  cbv zeta. unfold CleanupOldGTFSVersions.
  destruct select_error as [e|]; [split; reflexivity|].
  assert (Hsort : Sorted ge_created (versionsToDelete k s)).
  { apply sorted_drop, sort_desc_sorted. }
  assert (Hkept : exists kept, Permutation (kept ++ versionsToDelete k s) (inactive s) /\
     length kept = Nat.min k (length (inactive s)) /\
     forall x y, In x kept -> In y (versionsToDelete k s) -> gv_created_at y <= gv_created_at x).
  { exists (take k (sort_desc (inactive s))). unfold versionsToDelete.
    split; [rewrite take_drop; apply sort_desc_perm|].
    split; [rewrite length_take, (Permutation_length (sort_desc_perm _)); lia|].
    intros x y Hx Hy.
    apply (strongly_sorted_app (take k (sort_desc (inactive s))) (drop k (sort_desc (inactive s))));
      [|exact Hx|exact Hy].
    rewrite take_drop. apply Sorted_StronglySorted; [apply ge_created_trans|apply sort_desc_sorted]. }
  assert (Hfresh : forall pre v post, versionsToDelete k s = pre ++ v :: post ->
            NoDup (map gv_id (gversions s)) ->
            ~ In (gv_id v) (map gv_id pre) /\ ~ In (gv_id v) (map gv_id post)).
  { intros pre v post Hsel Hnd. pose proof (versionsToDelete_NoDup k s Hnd) as H.
    rewrite Hsel, map_app in H. cbn [map] in H. apply NoDup_remove_2 in H.
    split; intros Hin; apply H, in_or_app; auto. }
  pose proof (delete_each_ids fails (versionsToDelete k s) 0 s) as Hids.
  pose proof (delete_each_all_some fails (versionsToDelete k s) 0 s) as Hall.
  destruct (delete_each fails (versionsToDelete k s) 0 s) as [[rs tot] s'] eqn:Hde.
  cbn [fst] in Hids, Hall.
  assert (Hf : List.filter has_id rs = rs).
  { clear -Hall. induction rs as [|r rs IH]; simpl; [reflexivity|].
    inversion Hall; subst. rewrite H1, IH; auto. }
  assert (Hper : forall pre v post, versionsToDelete k s = pre ++ v :: post ->
         exists r, nth_error rs (length pre) = Some r /\
           VersionID r = Some (gv_id v) /\ VersionName r = gv_name v /\
           ((CleanupStatus r = "SUCCESS"%string /\
             (forall w, In w (gversions s') -> gv_id w <> gv_id v) /\
             (forall e, In e (gentities s') -> In (fst e) tables -> snd e <> gv_id v)) \/
            (exists tpre t tpost, tables = tpre ++ t :: tpost /\
             CleanupStatus r = ("ERROR: deleting from " ++ t)%string /\
             (forall e, In e (gentities s') -> In (fst e) tpre -> snd e <> gv_id v) /\
             (NoDup (map gv_id (gversions s)) ->
               (forall w, In w (gversions s) -> gv_id w = gv_id v -> In w (gversions s')) /\
               (forall e, In e (gentities s) -> snd e = gv_id v -> In (fst e) (t :: tpost) ->
                  In e (gentities s')))) \/
            (CleanupStatus r = "ERROR: deleting version record"%string /\
             (forall e, In e (gentities s') -> In (fst e) tables -> snd e <> gv_id v) /\
             (NoDup (map gv_id (gversions s)) ->
               forall w, In w (gversions s) -> gv_id w = gv_id v -> In w (gversions s'))))).
  { intros pre v post Hsel. pose proof (delete_each_outcome fails pre v post s) as Hout.
    rewrite <- Hsel, Hde in Hout.
    destruct Hout as (r & H1 & H2 & H3 & [H4|[(tpre & t & tpost & Ht & H5 & H6 & H7)|(H5 & H6 & H7)]]);
      exists r; split; [exact H1| |exact H1| |exact H1|]; split; [exact H2| |exact H2| |exact H2|];
      split; [exact H3| |exact H3| |exact H3|].
    - left. exact H4.
    - right; left. exists tpre, t, tpost. split; [exact Ht|]. split; [exact H5|].
      split; [exact H6|]. intros Hnd. destruct (Hfresh pre v post Hsel Hnd). apply H7; assumption.
    - right; right. split; [exact H5|]. split; [exact H6|].
      intros Hnd. destruct (Hfresh pre v post Hsel Hnd). apply H7; assumption. }
  destruct (Nat.ltb 0 (length (versionsToDelete k s))); cbv beta iota.
  - exists (rs ++ [mkVCR None "CLEANUP_SUMMARY" tot "COMPLETED"]), tot.
    rewrite List.filter_app, Hf. cbn [List.filter has_id VersionID]. rewrite app_nil_r.
    split; [reflexivity|]. split; [reflexivity|]. split; [exact Hids|].
    split; [exact Hsort|]. split; [exact Hkept|]. exact Hper.
  - exists rs, tot. rewrite Hf, app_nil_r.
    split; [reflexivity|]. split; [reflexivity|]. split; [exact Hids|].
    split; [exact Hsort|]. split; [exact Hkept|]. exact Hper.
Qed.

End CleanupOutcomes.

Module RetentionExtra.
Import Realtime Retention.

Lemma doomed_mono (f : nat) (cutoff : Z) (rs rs' : list rrow) (r : rrow) :
  (forall x, In x rs' -> In x rs) ->
  doomed f cutoff rs' r = true -> doomed f cutoff rs r = true.
Proof.
  intros Hsub. revert r. induction f as [|f IH]; intros r; [discriminate|]. cbn [doomed].
  destruct (parent_table (r_tbl r)) as [pt|]; [|auto].
  intros H. apply existsb_exists in H as (p & Hp & Hk). apply andb_true_iff in Hk as [Hk Hd].
  apply existsb_exists. exists p. split; [exact (Hsub p Hp)|].
  rewrite Hk. cbn. exact (IH p Hd).
Qed.

Lemma filter_all {X} (f : X -> bool) (l : list X) :
  (forall x, In x l -> f x = true) -> List.filter f l = l.
Proof.
  induction l as [|x l IH]; intros H; [reflexivity|]. cbn.
  rewrite (H x (or_introl eq_refl)), IH; [reflexivity|]. intros y Hy. apply H. right. exact Hy.
Qed.

(** X18: At a fixed time, a successful retention cleanup run twice leaves the same rows as running it once. *)
Theorem performCleanup_idempotent (now : Z) (rs : list rrow) :
  performCleanup false now (performCleanup false now rs) = performCleanup false now rs.
Proof.
  unfold performCleanup. set (cutoff := now - retention_window).
  set (rs' := List.filter (fun r => negb (doomed 3 cutoff rs r)) rs).
  apply filter_all. intros x Hx. apply negb_true_iff.
  destruct (doomed 3 cutoff rs' x) eqn:Hd; [|reflexivity]. exfalso.
  assert (Hsub : forall y, In y rs' -> In y rs) by (intros y Hy; apply filter_In in Hy; tauto).
  pose proof (doomed_mono 3 cutoff rs rs' x Hsub Hd) as Hd'.
  apply filter_In in Hx as [_ Hx]. rewrite Hd' in Hx. discriminate.
Qed.

End RetentionExtra.

Module RealtimeExtra.
Import Realtime.

Section Seq.
Context {SEQ : Sequences}.

Lemma getOrCreateVersion_ok_store (p : processor) (v : nat) (p1 : processor) :
  getOrCreateVersion p = (Ok v, p1) -> store p1 = store p /\ sourceMapping p1 = sourceMapping p.
Proof.
  unfold getOrCreateVersion. destruct (versionMapping p); [intros [= _ <-]; auto|].
  destruct (db_active_version p); [intros [= _ <-]; auto|discriminate].
Qed.

(** X19: If one of the three diagnostic QueryRow probes at the start of processFeedMessage's transaction fails, the transaction is aborted. Inserting the feed message then fails, processFeedMessage returns 'failed to insert feed message', and no row is written. *)
Theorem processFeedMessage_probe_aborts (fails : nat -> bool) (own : nat) (r : FeedResult)
    (entities : list FeedEntity) (p : processor) (sourceID : nat) :
  sourceMapping p !! ep_source r = Some sourceID ->
  (versionMapping p <> None \/ db_active_version p <> None) ->
  fails 0%nat = false -> (fails 1%nat || fails 2%nat || fails 3%nat) = true ->
  fst (processFeedMessage fails own r entities p) = Err "failed to insert feed message" /\
  store (snd (processFeedMessage fails own r entities p)) = store p.
Proof.
  intros Hs Hv H0 Hp. unfold processFeedMessage. rewrite Hs.
  destruct (getOrCreateVersion p) as [[v|e] p1] eqn:Hg.
  2: { exfalso. unfold getOrCreateVersion in Hg.
       destruct (versionMapping p); [discriminate|].
       destruct (db_active_version p); [discriminate|]. destruct Hv; congruence. }
  destruct (getOrCreateVersion_ok_store p v p1 Hg) as [Hst _].
  unfold rt_with_tx. rewrite H0.
  unfold tx_bind, rt_probe, rt_stmt. cbn [tx_tables tx_aborted].
  destruct (fails 1%nat), (fails 2%nat), (fails 3%nat); cbn in Hp; try discriminate Hp;
    cbn [orb tx_tables tx_aborted fst snd store]; rewrite ?orb_true_r; cbn; auto.
Qed.

End Seq.

End RealtimeExtra.

Module VehicleExtra.
Import Realtime.

Section Seq.
Context {SEQ : Sequences}.

Lemma row_count_app (tb : table) (own : nat) (l1 l2 : list row) :
  row_count tb own (mkRT (l1 ++ l2)) = (row_count tb own (mkRT l1) + row_count tb own (mkRT l2))%nat.
Proof. unfold row_count. cbn [rows]. rewrite List.filter_app, length_app. reflexivity. Qed.

Lemma row_count_one (tb : table) (own : nat) (x : row) :
  row_count tb own (mkRT [x]) = if bool_decide (tbl x = tb) && Nat.eqb (owner x) own then 1%nat else 0%nat.
Proof. unfold row_count. cbn. destruct (bool_decide (tbl x = tb) && Nat.eqb (owner x) own); reflexivity. Qed.

Lemma row_count_foreign (tb : table) (own : nat) (l : list row) :
  Forall (fun x => owner x <> own) l -> row_count tb own (mkRT l) = 0%nat.
Proof.
  induction 1 as [|x l Hx _ IH]; [reflexivity|].
  change (x :: l) with ([x] ++ l). rewrite row_count_app, row_count_one, IH.
  apply Nat.eqb_neq in Hx. rewrite Hx, andb_false_r. reflexivity.
Qed.

Lemma insert_rows_spec (tb : table) (own : nat) (buf : list (nat * string)) (s : rtstore) :
  insert_rows tb own buf s =
  mkRT (rows s ++ map (fun '(k, (par, ent)) => mkRow tb (nextval own tb k) par ent own)
                      (combine (seq (row_count tb own s) (length buf)) buf)).
Proof.
  revert s. induction buf as [|[par ent] buf IH]; intros s; cbn [insert_rows].
  - cbn. rewrite app_nil_r. destruct s; reflexivity.
  - rewrite IH. cbn [snd insert_row rows]. rewrite <- app_assoc.
    replace (row_count tb own (mkRT (rows s ++ [mkRow tb (nextval own tb (row_count tb own s)) par ent own])))
      with (S (row_count tb own s)).
    + reflexivity.
    + rewrite row_count_app, row_count_one. cbn [tbl owner].
      rewrite bool_decide_eq_true_2 by reflexivity. rewrite Nat.eqb_refl.
      destruct s; cbn. lia.
Qed.

Lemma copy_add_nofail {X} (keep : X -> bool) (xs : list X) (n : nat) (s : rtstore) :
  copy_add keep xs (fun _ => false) n (mkTx s false) =
  Ok (tt, (n + length (List.filter keep xs))%nat, mkTx s false).
Proof.
  revert n. induction xs as [|x xs IH]; intros n; cbn [copy_add].
  - cbn. rewrite Nat.add_0_r. reflexivity.
  - destruct (keep x) eqn:Hk; cbn [List.filter]; rewrite Hk.
    + unfold tx_bind, rt_stmt. cbn. rewrite IH. cbn. f_equal. f_equal. f_equal. lia.
    + apply IH.
Qed.

(** X20: For a known source with a version and no failing statement, a
    vehicle_positions feed commits. It appends one feed_messages row and
    then one vehicle_positions row per entity with a position, in order;
    entities without a position are skipped. The header gets the first
    value the feed_messages sequence hands to this transaction, the
    vehicle rows get the next values of the vehicle_positions sequence
    (its own sequence, counted from the first row of this transaction),
    and every vehicle row references the new feed message. *)
Theorem processFeedMessage_vehicle_positions (own : nat) (r : FeedResult)
    (entities : list FeedEntity) (p : processor) (sourceID : nat) :
  sourceMapping p !! ep_source r = Some sourceID ->
  (versionMapping p <> None \/ db_active_version p <> None) ->
  ep_feed_type r = "vehicle_positions"%string ->
  Forall (fun x => owner x <> own) (rows (store p)) ->
  let fid := nextval own FeedMessages 0 in
  let kept := List.filter vehicle_has_position entities in
  fst (processFeedMessage (fun _ => false) own r entities p) = Ok tt /\
  store (snd (processFeedMessage (fun _ => false) own r entities p)) =
  mkRT (rows (store p) ++ mkRow FeedMessages fid 0 "" own ::
        map (fun '(k, e) => mkRow VehiclePositions (nextval own VehiclePositions k) fid
                                  (entity_id e) own)
            (combine (seq 0 (length kept)) kept)).
Proof.
  intros Hs Hv Hft Hnew fid kept. unfold processFeedMessage. rewrite Hs.
  destruct (getOrCreateVersion p) as [[v|e] p1] eqn:Hg.
  2: { exfalso. unfold getOrCreateVersion in Hg.
       destruct (versionMapping p); [discriminate|].
       destruct (db_active_version p); [discriminate|]. destruct Hv; congruence. }
  destruct (RealtimeExtra.getOrCreateVersion_ok_store p v p1 Hg) as [Hst _].
  rewrite Hft. cbn [String.eqb Ascii.eqb Bool.eqb].
  unfold rt_with_tx, processVehiclePositionsBulk, tx_bind, rt_probe, rt_stmt, insert_row.
  cbn -[copy_add insert_rows row_count].
  rewrite copy_add_nofail. cbn -[insert_rows row_count]. rewrite insert_rows_spec.
  cbn -[seq combine row_count].
  split; [reflexivity|]. rewrite Hst.
  assert (H0 : forall tb, row_count tb own (mkRT (rows (store p))) = 0%nat)
    by (intros tb; apply row_count_foreign, Hnew).
  assert (Hfm : row_count FeedMessages own (store p) = 0%nat)
    by (destruct (store p); apply H0).
  assert (Hvp : row_count VehiclePositions own
                  (mkRT (rows (store p) ++ [mkRow FeedMessages (nextval own FeedMessages 0) 0 "" own]))
                = 0%nat).
  { rewrite row_count_app, H0, row_count_one. reflexivity. }
  rewrite Hfm, Hvp. subst fid kept.
  assert (Hc : forall (a : nat) (l : list FeedEntity),
     map (fun '(k, (par, ent)) => mkRow VehiclePositions (nextval own VehiclePositions k) par ent own)
         (combine (seq a (length (map (fun e => (nextval own FeedMessages 0, entity_id e)) l)))
                  (map (fun e => (nextval own FeedMessages 0, entity_id e)) l))
     = map (fun '(k, e) => mkRow VehiclePositions (nextval own VehiclePositions k)
                                 (nextval own FeedMessages 0) (entity_id e) own)
           (combine (seq a (length l)) l)).
  { intros a l. revert a. induction l as [|x l IH]; intros a; [reflexivity|].
    cbn. f_equal. apply IH. }
  rewrite Hc, <- app_assoc. reflexivity.
Qed.

End Seq.

End VehicleExtra.

Module Witnesses3.
Import Auxiliary.

Lemma OnStopTime_time_clock_witness :
  GTFSTime.OnStopTime_time (hhmmss 23 59 5) = Some (23, 59, 5).
Proof. apply StaticTimeFacts.OnStopTime_time_clock; lia. Defined.

Lemma fetchFeed_http_cache_witness :
  let c := Consumer.mkConsumer 1 {[ "metro_trains" := Consumer.mkCacheEntry "msg_1" 100 "abc" ]} 200 30 in
  let w := Consumer.mkEnv false false false 0 (Consumer.Response 304 "" None) in
  Consumer.fetchFeed "metro_trains" w c =
    (Consumer.mkFeedResult (Some "msg_1"%string) None, Consumer.mkEffects true (Some "abc"%string), 
     Consumer.mkConsumer 0 (Consumer.cache c) 200 30) /\
  Consumer.if_none_match (Consumer.mkEffects true (Some "abc"%string)) = Some "abc"%string /\
  Consumer.cache (Consumer.mkConsumer 0 (Consumer.cache c) 200 30) = Consumer.cache c.
Proof.
  intros c w.
  assert (H : Consumer.fetchFeed "metro_trains" w c =
    (Consumer.mkFeedResult (Some "msg_1"%string) None, Consumer.mkEffects true (Some "abc"%string),
     Consumer.mkConsumer 0 (Consumer.cache c) 200 30)) by (vm_compute; reflexivity).
  split; [exact H|].
  destruct (ConsumerFacts.fetchFeed_http_cache _ _ _ _ _ _ H eq_refl)
    as (Hinm & _ & _ & _ & H304 & _ & _).
  split; [exact Hinm|].
  exact (proj2 (H304 "" None (Consumer.mkCacheEntry "msg_1" 100 "abc") eq_refl eq_refl)).
Defined.

Lemma CreateNewVersion_no_active_witness :
  let s := VersionStore.mkVStore
             [VersionStore.mkVersion 1 "v1" 0 100 true "u" "d"] 2 500 in
  VersionStore.CreateNewVersion (fun _ => ""%string) (fun _ => false) "v2" "u" 150 s
  = (Ok 2%nat, snd (VersionStore.CreateNewVersion (fun _ => ""%string) (fun _ => false) "v2" "u" 150 s)) /\
  VersionStore.HasNewerVersion false 0
    (snd (VersionStore.CreateNewVersion (fun _ => ""%string) (fun _ => false) "v2" "u" 150 s)) = Ok true.
Proof.
  intros s.
  assert (H : VersionStore.CreateNewVersion (fun _ => ""%string) (fun _ => false) "v2" "u" 150 s
    = (Ok 2%nat, snd (VersionStore.CreateNewVersion (fun _ => ""%string) (fun _ => false) "v2" "u" 150 s)))
    by (vm_compute; reflexivity).
  split; [exact H|].
  exact (proj1 (proj2 (VersionExtra.CreateNewVersion_no_active _ _ _ _ _ _ _ _ H)) 0).
Defined.

Lemma CleanupOldGTFSVersions_keeps_witness :
  let s := GTFSCleanup.mkGDB
             [GTFSCleanup.mkGVersion 1 "v1" 10 false; GTFSCleanup.mkGVersion 2 "v2" 20 false;
              GTFSCleanup.mkGVersion 3 "v3" 30 false; GTFSCleanup.mkGVersion 4 "v4" 5 true]
             [("stops", 1%nat); ("stops", 3%nat); ("trips", 4%nat)] in
  NoDup (map GTFSCleanup.gv_id (GTFSCleanup.gversions s)) /\
  In (GTFSCleanup.mkGVersion 4 "v4" 5 true)
     (GTFSCleanup.gversions (snd (GTFSCleanup.CleanupOldGTFSVersions (fun _ _ => false) None 1 s))) /\
  In ("trips"%string, 4%nat)
     (GTFSCleanup.gentities (snd (GTFSCleanup.CleanupOldGTFSVersions (fun _ _ => false) None 1 s))).
Proof.
  intros s.
  assert (Hnd : NoDup (map GTFSCleanup.gv_id (GTFSCleanup.gversions s))) by (apply (bool_decide_unpack _); vm_compute; reflexivity).
  assert (Hin : In (GTFSCleanup.mkGVersion 4 "v4" 5 true) (GTFSCleanup.gversions s)) by (cbn; tauto).
  split; [exact Hnd|].
  destruct (CleanupExtra.CleanupOldGTFSVersions_keeps (fun _ _ => false) None 1 s Hnd _ Hin
              (or_introl eq_refl)) as [H1 H2].
  split; [exact H1|]. apply H2; [cbn; tauto|reflexivity].
Defined.

Lemma deleteGTFSVersion_partial_witness :
  let s := GTFSCleanup.mkGDB [GTFSCleanup.mkGVersion 7 "v7" 10 false]
             [("stop_times", 7%nat); ("trips", 7%nat); ("shapes", 7%nat); ("stops", 7%nat);
              ("trips", 8%nat)] in
  let fails := fun (_ : nat) (t : string) => String.eqb t "shapes" in
  GTFSCleanup.deleteGTFSVersion fails 7 s =
    (2, Some "deleting from shapes"%string,
     GTFSCleanup.mkGDB [GTFSCleanup.mkGVersion 7 "v7" 10 false]
       [("shapes", 7%nat); ("stops", 7%nat); ("trips", 8%nat)]).
Proof.
  intros s fails.
  rewrite (DeleteExtra.deleteGTFSVersion_partial fails 7 ["stop_times"; "trips"]%string "shapes"
             ["calendar_dates"; "calendar"; "transfers"; "pathways"; "levels"; "stops"; "routes";
              "agency"]%string s);
    [vm_compute; reflexivity|reflexivity|repeat constructor|reflexivity].
Defined.

Import Realtime.SampleSequences.

Lemma processFeedMessage_probe_aborts_witness :
  fst (Realtime.processFeedMessage (fun n => Nat.eqb n 2) 0
         (Realtime.mkResult "metro_train" "vehicle_positions" (Some Realtime.sample_entities) false)
         Realtime.sample_entities Realtime.sample_proc) = Err "failed to insert feed message" /\
  Realtime.store (snd (Realtime.processFeedMessage (fun n => Nat.eqb n 2) 0
         (Realtime.mkResult "metro_train" "vehicle_positions" (Some Realtime.sample_entities) false)
         Realtime.sample_entities Realtime.sample_proc)) = Realtime.store Realtime.sample_proc.
Proof.
  apply (RealtimeExtra.processFeedMessage_probe_aborts _ _ _ _ _ 2);
    [reflexivity|right; discriminate|reflexivity|reflexivity].
Defined.

Lemma processFeedMessage_vehicle_positions_witness :
  let r := Realtime.mkResult "metro_train" "vehicle_positions" (Some Realtime.sample_entities) false in
  Realtime.sourceMapping Realtime.sample_proc !! Realtime.ep_source r = Some 2%nat /\
  Realtime.ep_feed_type r = "vehicle_positions"%string /\
  Forall (fun x => Realtime.owner x <> 0%nat) (Realtime.rows (Realtime.store Realtime.sample_proc)) /\
  fst (Realtime.processFeedMessage (fun _ => false) 0 r Realtime.sample_entities Realtime.sample_proc)
    = Ok tt /\
  Realtime.store (snd (Realtime.processFeedMessage (fun _ => false) 0 r Realtime.sample_entities
                         Realtime.sample_proc)) =
  Realtime.mkRT [Realtime.mkRow Realtime.FeedMessages 1 0 "" 0;
                 Realtime.mkRow Realtime.VehiclePositions 1 1 "e1" 0].
Proof.
  intros r.
  assert (H1 : Realtime.sourceMapping Realtime.sample_proc !! Realtime.ep_source r = Some 2%nat)
    by reflexivity.
  assert (H2 : Realtime.versionMapping Realtime.sample_proc <> None \/
               Realtime.db_active_version Realtime.sample_proc <> None) by (right; discriminate).
  assert (H3 : Realtime.ep_feed_type r = "vehicle_positions"%string) by reflexivity.
  assert (H4 : Forall (fun x => Realtime.owner x <> 0%nat) (Realtime.rows (Realtime.store Realtime.sample_proc)))
    by constructor.
  split; [exact H1|]. split; [exact H3|]. split; [exact H4|].
  exact (VehicleExtra.processFeedMessage_vehicle_positions 0 r Realtime.sample_entities
           Realtime.sample_proc 2 H1 H2 H3 H4).
Defined.

End Witnesses3.
